(** * Static memory planning pass (torch/csrc/jit/passes/memory_planning.cpp)

    A shallow embedding of the pass that collects the managed tensor values
    of a graph, asks a packing strategy for a plan (value -> Region) and
    rewrites the graph with one prim::AllocateStorage node and one
    prim::AllocateTensor node per planned value.

    Conventions of the embedding.
    - [uint64_t], [int64_t] and [int8_t] are integers of [Z] with the
      wrap-around written out ([wrap_u64], [wrap_i64], [wrap_i8]).
    - A [Node*] or [Value*] is a number of [N] that names the object, its
      address; the nodes live in a heap ([gmap N Node]) and the block's node
      list holds addresses, so a node is mutated in place whether or not it
      is linked in the list yet.
    - A [std::unordered_map] that the code iterates is the list of its
      entries in iteration order; a result that must not depend on the hash
      order is stated for every permutation of that list.
    - A [std::unordered_set] used only through [count] is a [gset]; the
      attribute dictionary of a node is a [gmap] from attribute names.
    - C++ exceptions (TORCH_CHECK, internal asserts, [optional::value]) are
      the [Throw] outcome of a state-and-exception monad over the graph; the
      graph at the time of the throw is kept, as the caller would see it.
    - TORCH_WARN, GRAPH_DEBUG and printAllocation only write diagnostics and
      are left out. *)

From Stdlib Require Import ZArith Lia.
From stdpp Require Import base decidable option list sorting gmap strings.

Local Open Scope Z_scope.

(** ** Machine integers *)

Definition wrap_u64 (z : Z) : Z := z mod 2 ^ 64.
Definition wrap_i64 (z : Z) : Z := (z + 2 ^ 63) mod 2 ^ 64 - 2 ^ 63.
Definition wrap_i8 (z : Z) : Z := (z + 128) mod 256 - 128.

(** ** Types, values, nodes, graphs *)

(** c10::ScalarType and c10::DeviceType are [enum class ... : int8_t]; an
    enumerator is its code. *)
Definition ScalarType := Z.
Definition DeviceType := Z.
Definition kCPU : DeviceType := 0.

(** What the pass reads of a c10::TensorType: each accessor's answer. *)
Record TensorType := mkTensorType {
  scalarType : option ScalarType;
  sizes_concrete : option (list Z);      (* sizes().concrete_sizes() *)
  strides_concrete : option (list Z);    (* strides().concrete_sizes() *)
  numel : option Z                       (* numel(), a size_t *)
}.

Inductive JitType :=
  | TensorTy (ttp : TensorType)
  | OtherTy.

(** A Value: its address, its type, the address of the node that owns it. *)
Record Value := mkValue {
  v_unique : N;
  v_type : JitType;
  v_node : N
}.

Inductive AttrValue :=
  | AttrInt (i : Z)                (* Node::i_, an int64_t *)
  | AttrInts (is_ : list Z).       (* Node::is_, a vector of int64_t *)

Record Node := mkNode {
  n_kind : string;
  n_inputs : list Value;
  n_outputs : list Value;
  n_attrs : gmap string AttrValue
}.

Record Graph := mkGraph {
  g_heap : gmap N Node;      (* every node object, by address *)
  g_nodes : list N;          (* graph->nodes(), in program order *)
  g_next : N                 (* the next fresh address, of a node or a value *)
}.

(** graph->nodes(): the linked nodes with their addresses. *)
Definition nodes (g : Graph) : list (N * Node) :=
  omap (fun a => pair a <$> g_heap g !! a) (g_nodes g).

(** ** Region model *)

(** Modelled from the spec: Region and LiveRange are declared in
    memory_planning.h, which is not part of the sources; section 3 of the
    spec gives their fields.  The offset and the size of a Region are
    uint64_t: getTotalAllocationSize takes std::max of their sum and a
    uint64_t. *)
Record Region := mkRegion { r_offset : Z; r_size : Z }.
Record LiveRange := mkLiveRange { lr_start : Z; lr_end : Z }.

(** [item.second.offset + item.second.size] on uint64_t. *)
Definition region_end (r : Region) : Z := wrap_u64 (r_offset r + r_size r).

(** The three maps are std::unordered_map keyed by [const Value*].  A list
    stands for such a map with its entries in some order.  The container
    fixes no order of iteration, so the place of an entry in the list has
    no meaning: what is stated of a map is stated of its entries, or for
    every order of them. *)
Definition Allocations := list (Value * Region).
Definition ManagedSizes := list (Value * Z).
Definition ManagedRanges := list (Value * LiveRange).

(** [m.count(v) > 0] on a map keyed by [const Value*]. *)
Definition count_key {A} (v : Value) (m : list (Value * A)) : bool :=
  existsb (fun e => N.eqb (v_unique (fst e)) (v_unique v)) m.

(** [m.insert({v, a})]: nothing happens when the key is present.  Where
    the container puts a new entry among the others is not specified; the
    list takes it last, and no statement rests on that place. *)
Definition map_insert {A} (v : Value) (a : A) (m : list (Value * A))
  : list (Value * A) :=
  if count_key v m then m else m ++ [(v, a)].

(** ** getTotalAllocationSize *)

Definition getTotalAllocationSize (allocations : Allocations) : Z :=
  fold_left (fun total_size item => Z.max total_size (region_end item.2))
            allocations 0.

(** ** getSizesStrides *)

(** Modelled from the spec: at::detail::defaultStrides is not part of the
    sources; the spec calls it the row-major default.  The innermost axis has
    stride 1 and each outer stride is the product of the inner extents (on
    int64_t). *)
Fixpoint defaultStrides (sizes : list Z) : list Z :=
  match sizes with
  | [] => []
  | _ :: inner =>
      fold_right (fun s stride => wrap_i64 (stride * s)) 1 inner
      :: defaultStrides inner
  end.

(** [o.has_value() && o.value().size() > 0 && o.value()[0] != 0] *)
Definition usable (o : option (list Z)) : bool :=
  match o with
  | Some (x :: _) => negb (x =? 0)
  | _ => false
  end.

Definition getSizesStrides (ttp : TensorType) : list Z * list Z :=
  let sizes :=
    if usable (sizes_concrete ttp)
    then default [] (sizes_concrete ttp) else [0] in
  let strides :=
    if usable (strides_concrete ttp)
    then default [] (strides_concrete ttp) else defaultStrides sizes in
  (sizes, strides).

(** ** Operator registry, as hasOutVariant reads it *)

Record Argument := mkArgument { arg_name : string }.
Record FunctionSchema := mkSchema { arguments : list Argument }.
Record Operator := mkOperator { schema : FunctionSchema }.

Section Collector.

(** c10::elementSize, the operator registry and the container test belong
    to other parts of the library; each is taken as a function that returns
    on every argument it is given here. *)
Variable elementSize : ScalarType -> Z.
Variable getAllOperatorsFor : string -> list Operator.
Variable isOptimizableContainerType : Node -> bool.

Definition computeStorageSize (value : Value) : option Z :=
  match v_type value with
  | OtherTy => None
  | TensorTy ttp =>
      match scalarType ttp with
      | None => None
      | Some scalar_type =>
          match sizes_concrete ttp with
          | None => None
          | Some _ =>
              let element_size := elementSize scalar_type in
              match numel ttp with
              | None => None
              | Some n => Some (wrap_u64 (n * element_size))
              end
          end
      end
  end.

Definition hasOutVariant (node : Node) : bool :=
  existsb
    (fun variant =>
       existsb (fun arg => String.eqb (arg_name arg) "out")
               (arguments (schema variant)))
    (getAllOperatorsFor (n_kind node)).

(** The state of the loops of getManagedValues. *)
Record Collected := mkCollected {
  out_nodes : list (N * Node);
  managed_tensor_values : ManagedSizes;
  leaked_values : list Value
}.

(** The body of the loop over node->outputs(). *)
Definition visit_output (always_alive_values : gset N) (node : Node)
    (c : Collected) (out_v : Value) : Collected :=
  if bool_decide (v_unique out_v ∈ always_alive_values) then c
  else
    match computeStorageSize out_v with
    | Some size =>
        if 0 <? size
        then mkCollected (out_nodes c)
               (map_insert out_v size (managed_tensor_values c))
               (leaked_values c)
        else mkCollected (out_nodes c) (managed_tensor_values c)
               (out_v :: leaked_values c)
    | None =>
        if isOptimizableContainerType node
        then mkCollected (out_nodes c) (managed_tensor_values c)
               (out_v :: leaked_values c)
        else mkCollected (out_nodes c) (managed_tensor_values c)
               (out_v :: leaked_values c)
    end.

(** The body of the loop over graph->nodes(). *)
Definition visit_node (always_alive_values : gset N)
    (c : Collected) (an : N * Node) : Collected :=
  if hasOutVariant an.2
  then fold_left (visit_output always_alive_values an.2) (n_outputs an.2)
         (mkCollected (out_nodes c ++ [an]) (managed_tensor_values c)
            (leaked_values c))
  else c.

(** getManagedValues up to its return statement, which drops the leaked
    set. *)
Definition collect (graph : Graph) (always_alive_values : gset N)
  : Collected :=
  fold_left (visit_node always_alive_values) (nodes graph)
            (mkCollected [] [] []).

Definition getManagedValues (graph : Graph) (always_alive_values : gset N)
  : list (N * Node) * ManagedSizes :=
  let c := collect graph always_alive_values in
  (out_nodes c, managed_tensor_values c).

(** A value is planned when it is not pinned and has a positive size. *)
Definition plannable (always_alive_values : gset N) (v : Value) (s : Z)
  : Prop :=
  (v_unique v ∉ always_alive_values) /\
  computeStorageSize v = Some s /\ 0 < s.

(** An output that is not pinned ends up planned or leaked. *)
Definition settled (c : Collected) (v : Value) : Prop :=
  match computeStorageSize v with
  | Some s =>
      if 0 <? s then count_key v (managed_tensor_values c) = true
      else v ∈ leaked_values c
  | None => v ∈ leaked_values c
  end.

End Collector.

(** ** The rewriting monad: a graph that is mutated, and exceptions *)

Inductive Error :=
  | InternalAssert          (* AT_ASSERT, expect<T>, a missing attribute *)
  | BadOptionalAccess       (* optional::value() on nullopt *)
  | ExceedsPlannedMemory.   (* the TORCH_CHECK of insertAllocTensorNodes *)

Inductive Outcome (A : Type) :=
  | Return (a : A)
  | Throw (e : Error).
Arguments Return {A} a.
Arguments Throw {A} e.

Definition Pass (A : Type) : Type := Graph -> Graph * Outcome A.

Definition ret {A} (a : A) : Pass A := fun g => (g, Return a).
Definition throw {A} (e : Error) : Pass A := fun g => (g, Throw e).
Definition bind {A B} (m : Pass A) (k : A -> Pass B) : Pass B :=
  fun g =>
    match m g with
    | (g', Return a) => k a g'
    | (g', Throw e) => (g', Throw e)
    end.

Global Instance Pass_ret : MRet Pass := @ret.
Global Instance Pass_bind : MBind Pass := fun A B k m => bind m k.

Fixpoint for_each {A} (body : A -> Pass unit) (l : list A) : Pass unit :=
  match l with
  | [] => ret tt
  | x :: rest => body x;; for_each body rest
  end.

Definition gets {A} (f : Graph -> A) : Pass A := fun g => (g, Return (f g)).

Definition deref (a : N) : Pass Node :=
  fun g =>
    match g_heap g !! a with
    | Some n => (g, Return n)
    | None => (g, Throw InternalAssert)
    end.

Definition update (a : N) (f : Node -> Node) : Pass unit :=
  fun g =>
    match g_heap g !! a with
    | Some n => (mkGraph (<[a := f n]> (g_heap g)) (g_nodes g) (g_next g),
                 Return tt)
    | None => (g, Throw InternalAssert)
    end.

(** Value::Value gives a fresh value the unrefined tensor type. *)
Definition dynamicTensor : JitType := TensorTy (mkTensorType None None None None).

(** graph->create(kind, 1): a new node with one output, not linked yet. *)
Definition create (kind : string) : Pass N :=
  fun g =>
    let a := g_next g in
    (mkGraph (<[a := mkNode kind [] [mkValue a dynamicTensor a] ∅]> (g_heap g))
             (g_nodes g) (a + 1)%N,
     Return a).

(** node->output(): asserts that the node has exactly one output. *)
Definition output (a : N) : Pass Value :=
  n ← deref a;
  match n_outputs n with
  | [v] => ret v
  | _ => throw InternalAssert
  end.

Definition addInput (a : N) (v : Value) : Pass unit :=
  update a (fun n =>
    mkNode (n_kind n) (n_inputs n ++ [v]) (n_outputs n) (n_attrs n)).

Definition setAttr (a : N) (name : string) (x : AttrValue) : Pass unit :=
  update a (fun n =>
    mkNode (n_kind n) (n_inputs n) (n_outputs n) (<[name := x]> (n_attrs n))).

Definition i_ (a : N) (name : string) (v : Z) : Pass unit :=
  setAttr a name (AttrInt v).
Definition is_ (a : N) (name : string) (v : list Z) : Pass unit :=
  setAttr a name (AttrInts v).

(** node->i(name): throws unless the attribute is there and is an int. *)
Definition i (a : N) (name : string) : Pass Z :=
  n ← deref a;
  match n_attrs n !! name with
  | Some (AttrInt v) => ret v
  | _ => throw InternalAssert
  end.

(** graph->nodes().front(): the first node; [None] stands for the block's
    return node, which closes the list and is what front() yields when the
    list is empty. *)
Definition front : Pass (option N) := gets (fun g => head (g_nodes g)).

Fixpoint insert_before (a target : N) (l : list N) : option (list N) :=
  match l with
  | [] => None
  | x :: rest =>
      if N.eqb x target then Some (a :: x :: rest)
      else cons x <$> insert_before a target rest
  end.

(** a->insertBefore(n): asserts that n is linked in the block's list. *)
Definition insertBefore (a : N) (n : option N) : Pass unit :=
  fun g =>
    match n with
    | None => (mkGraph (g_heap g) (g_nodes g ++ [a]) (g_next g), Return tt)
    | Some target =>
        match insert_before a target (g_nodes g) with
        | Some l => (mkGraph (g_heap g) l (g_next g), Return tt)
        | None => (g, Throw InternalAssert)
        end
    end.

(** type->expect<TensorType>() and optional::value(). *)
Definition expectTensorType (t : JitType) : Pass TensorType :=
  match t with
  | TensorTy ttp => ret ttp
  | OtherTy => throw InternalAssert
  end.

Definition value {A} (o : option A) : Pass A :=
  match o with
  | Some a => ret a
  | None => throw BadOptionalAccess
  end.

Definition TORCH_CHECK (cond : bool) (e : Error) : Pass unit :=
  if cond then ret tt else throw e.

(** ** The plan applier *)

Definition AllocateStorage : string := "prim::AllocateStorage".
Definition AllocateTensor : string := "prim::AllocateTensor".

Section Applier.

(** jit::tensorexpr::pickDeviceType walks graph->nodes(). *)
Variable pickDeviceType : list (N * Node) -> option DeviceType.

Definition insertAllocStorageNode (total_size : Z) : Pass N :=
  storage ← create AllocateStorage;
  i_ storage "total_size" (wrap_i64 total_size);;
  deviceType ← gets (fun g => pickDeviceType (nodes g));
  match deviceType with
  | Some d => i_ storage "device" (wrap_i8 d)
  | None => i_ storage "device" (wrap_i8 kCPU)
  end;;
  first ← front;
  insertBefore storage first;;
  ret storage.

(** The body of the loop of insertAllocTensorNodes. *)
Definition insertAllocTensorNode (storage : N) (total_size : Z)
    (allocation : Value * Region) : Pass unit :=
  let node := v_node allocation.1 in
  let region := allocation.2 in
  alloc ← create AllocateTensor;
  alloc_out ← output alloc;
  addInput node alloc_out;;
  insertBefore alloc (Some node);;
  storage_out ← output storage;
  addInput alloc storage_out;;
  ttp ← expectTensorType (v_type allocation.1);
  let sizes_strides := getSizesStrides ttp in
  TORCH_CHECK (region_end region <=? total_size) ExceedsPlannedMemory;;
  i_ alloc "size" (wrap_i64 (r_size region));;
  i_ alloc "offset" (wrap_i64 (r_offset region));;
  is_ alloc "sizes" sizes_strides.1;;
  is_ alloc "stride" sizes_strides.2;;
  device ← i storage "device";
  i_ alloc "device" (wrap_i8 device);;
  dtype ← value (scalarType ttp);
  i_ alloc "dtype" (wrap_i8 dtype).

Definition insertAllocTensorNodes (storage : N) (allocations : Allocations)
  : Pass unit :=
  total ← i storage "total_size";
  let total_size := wrap_u64 total in
  for_each (insertAllocTensorNode storage total_size) allocations.

End Applier.

(** ** planMemory *)

(** The Strategy enumeration is declared in memory_planning.h; its
    enumerators are the labels of the switch of planMemory.  A value of an
    [enum class] may also hold a code that names no enumerator, which is what
    the [default] label catches. *)
Inductive Strategy :=
  | NAIVE
  | GREEDY_BY_SIZE
  | LINEAR_SCAN
  | GREEDY_BY_BREADTH
  | OTHER (code : Z).

Section Planner.

Variable elementSize : ScalarType -> Z.
Variable getAllOperatorsFor : string -> list Operator.
Variable isOptimizableContainerType : Node -> bool.
Variable pickDeviceType : list (N * Node) -> option DeviceType.

(** The liveness analysis. *)
Variable GetAlwaysAliveValues : Graph -> gset N.
Variable GetLiveness : Graph -> gset N -> ManagedRanges.

(** The packing strategies (memory_planning/*.h). *)
Variable greedyBySize : ManagedSizes -> ManagedRanges -> Allocations.
Variable linearScanHeuristic : ManagedSizes -> ManagedRanges -> Allocations.
Variable greedyByOperatorBreadth :
  ManagedSizes -> ManagedRanges -> list (N * Node) -> Allocations.

Definition getManagedStuff (graph : Graph)
  : list (N * Node) * ManagedSizes * ManagedRanges :=
  let always_alive := GetAlwaysAliveValues graph in
  let live_ranges := GetLiveness graph always_alive in
  let '(out_nodes, managed_tensor_values) :=
    getManagedValues elementSize getAllOperatorsFor
      isOptimizableContainerType graph always_alive in
  let managed_ranges :=
    fold_left
      (fun acc lvr =>
         if count_key lvr.1 managed_tensor_values
         then map_insert lvr.1 lvr.2 acc else acc)
      live_ranges [] in
  (out_nodes, managed_tensor_values, managed_ranges).

(** The switch of planMemory: the plan, or nothing when it returns. *)
Definition selectAllocations (strat : Strategy)
    (out_nodes : list (N * Node)) (managed_values : ManagedSizes)
    (managed_ranges : ManagedRanges) : option Allocations :=
  match strat with
  | NAIVE => None
  | GREEDY_BY_SIZE => Some (greedyBySize managed_values managed_ranges)
  | LINEAR_SCAN => Some (linearScanHeuristic managed_values managed_ranges)
  | GREEDY_BY_BREADTH =>
      Some (greedyByOperatorBreadth managed_values managed_ranges out_nodes)
  | OTHER _ => None
  end.

Definition planMemory (strat : Strategy) : Pass unit :=
  stuff ← gets getManagedStuff;
  let '(out_nodes, managed_values, managed_ranges) := stuff in
  match selectAllocations strat out_nodes managed_values managed_ranges with
  | None => ret tt
  | Some allocations =>
      let total_size := getTotalAllocationSize allocations in
      storage_node ← insertAllocStorageNode pickDeviceType total_size;
      insertAllocTensorNodes storage_node allocations
  end.

End Planner.

(** ** The rewritten graph, stated directly *)

(** A graph is well formed when its node list has no repetition and holds
    addresses of node objects, every node object and every output lies
    below the next fresh address, and a node's outputs name it as their
    owner. *)
Definition wf_graph (g : Graph) : Prop :=
  NoDup (g_nodes g) /\
  Forall (fun a => is_Some (g_heap g !! a)) (g_nodes g) /\
  map_Forall
    (fun a n =>
       (a < g_next g)%N /\
       Forall (fun v => v_node v = a /\ (v_unique v < g_next g)%N)
              (n_outputs n))
    (g_heap g).

(** The output of a node made by [create] at address [a]. *)
Definition out_value (a : N) : Value := mkValue a dynamicTensor a.

(** The attributes of a finished prim::AllocateTensor node. *)
Definition binding_attrs (r : Region) (ttp : TensorType)
    (device : Z) (dtype : ScalarType) : gmap string AttrValue :=
  <["dtype" := AttrInt (wrap_i8 dtype)]>
  (<["device" := AttrInt (wrap_i8 device)]>
  (<["stride" := AttrInts (getSizesStrides ttp).2]>
  (<["sizes" := AttrInts (getSizesStrides ttp).1]>
  (<["offset" := AttrInt (wrap_i64 (r_offset r))]>
  (<["size" := AttrInt (wrap_i64 (r_size r))]> ∅))))).

(** The attributes of the prim::AllocateStorage node. *)
Definition storage_attrs (total_size : Z) (device : option DeviceType)
  : gmap string AttrValue :=
  <["device" := AttrInt (wrap_i8 (default kCPU device))]>
  (<["total_size" := AttrInt (wrap_i64 total_size)]> ∅).

(** The entries of a plan with the addresses their binding nodes get: the
    loop creates one node per entry, at consecutive fresh addresses. *)
Fixpoint number_from (base : N) (plan : Allocations)
  : list (N * (Value * Region)) :=
  match plan with
  | [] => []
  | e :: rest => (base, e) :: number_from (N.succ base) rest
  end.

(** The binding nodes of the values that node [p] produces, oldest first. *)
Definition bindings_of (p : N) (tagged : list (N * (Value * Region)))
  : list N :=
  (filter (fun t => v_node t.2.1 = p) tagged).*1.

(** The node list once every tagged entry is bound: each node is preceded
    by the binding nodes of the values it produces. *)
Definition with_bindings (tagged : list (N * (Value * Region)))
    (l : list N) : list N :=
  flat_map (fun p => bindings_of p tagged ++ [p]) l.

(** A producer that takes the outputs of its binding nodes as further
    inputs. *)
Definition rewired (pn : Node) (bindings : list N) : Node :=
  mkNode (n_kind pn) (n_inputs pn ++ map out_value bindings)
         (n_outputs pn) (n_attrs pn).

(** [bound so device finished started g g']: [g'] is [g] after the loop of
    insertAllocTensorNodes went through the entries [finished] and then
    stopped inside the entries [started] (none, or the one whose check
    failed), past the point where their node is created, linked and
    wired. *)
Definition bound (so : Value) (device : Z)
    (finished started : Allocations) (g g' : Graph) : Prop :=
  let tagged := number_from (g_next g) (finished ++ started) in
  g_next g' = (g_next g + N.of_nat (length (finished ++ started)))%N /\
  g_nodes g' = with_bindings tagged (g_nodes g) /\
  (forall a v r ttp st,
     (a, (v, r)) ∈ number_from (g_next g) finished ->
     v_type v = TensorTy ttp -> scalarType ttp = Some st ->
     g_heap g' !! a =
       Some (mkNode AllocateTensor [so] [out_value a]
               (binding_attrs r ttp device st))) /\
  (forall a e,
     (a, e) ∈ number_from (g_next g + N.of_nat (length finished)) started ->
     g_heap g' !! a = Some (mkNode AllocateTensor [so] [out_value a] ∅)) /\
  (forall p pn, g_heap g !! p = Some pn ->
     g_heap g' !! p = Some (rewired pn (bindings_of p tagged))) /\
  (forall a, is_Some (g_heap g' !! a) ->
     is_Some (g_heap g !! a) \/ a ∈ tagged.*1).

(** An entry the loop can go through: its value is produced by a node of
    the graph other than the storage node and has a tensor type. *)
Definition bindable (g : Graph) (storage : N) (e : Value * Region) : Prop :=
  v_node e.1 ∈ g_nodes g /\ v_node e.1 <> storage /\
  exists ttp, v_type e.1 = TensorTy ttp.

Definition typed (e : Value * Region) : Prop :=
  exists ttp st, v_type e.1 = TensorTy ttp /\ scalarType ttp = Some st.

(** An entry the loop goes through without throwing. *)
Definition passes (g : Graph) (storage : N) (total : Z)
    (e : Value * Region) : Prop :=
  bindable g storage e /\ typed e /\ region_end e.2 <= total.

(** A plan that only holds managed values. *)
Definition picks_managed (sizes : ManagedSizes) (plan : Allocations) : Prop :=
  forall e, e ∈ plan -> exists s, (e.1, s) ∈ sizes.

(** The addresses that key a map. *)
Definition keys {A} (m : list (Value * A)) : list N :=
  (fun e => v_unique e.1) <$> m.

(** ** The packing strategies, read from the spec *)

(** Modelled from the spec: greedyBySize, linearScanHeuristic and
    greedyByOperatorBreadth are defined in memory_planning/greedy_by_size.h,
    linear_scan.h and greedy_by_breadth.h, none of which is part of the
    sources.  Sections 4.2 to 4.4 of the spec describe them; the
    definitions of this module follow its words, with byte counts as
    integers of [Z]. *)
Module Strategies.

(** A managed value with its byte size and live range. *)
Record Managed := mkManaged {
  m_value : Value;
  m_size : Z;
  m_range : LiveRange
}.

(** The handle of a managed value, the number that names it: the stable
    secondary key of the orders below. *)
Definition handle (it : Managed) : N := v_unique (m_value it).

Definition Placed := list (Managed * Region).

(** [m.find(v)] on a map keyed by [const Value*]. *)
Definition find_key {A} (v : Value) (m : list (Value * A)) : option A :=
  snd <$> find (fun e => N.eqb (v_unique e.1) (v_unique v)) m.

(** The values of [sizes] with their ranges. *)
Definition managed_items (sizes : ManagedSizes) (ranges : ManagedRanges)
  : list Managed :=
  omap (fun e => mkManaged e.1 e.2 <$> find_key e.1 ranges) sizes.

Definition plan_of (placed : Placed) : Allocations :=
  (fun p => (m_value p.1, p.2)) <$> placed.

(** Modelled from the spec: overlaps(rangeA, rangeB), the closed-interval
    test of section 3 ([start_a <= end_b and start_b <= end_a]). *)
Definition overlaps (a b : LiveRange) : bool :=
  (lr_start a <=? lr_end b) && (lr_start b <=? lr_end a).

(** The arena high-water mark of what is placed. *)
Definition arena_top (placed : Placed) : Z :=
  foldr (fun p top => Z.max (r_offset p.2 + r_size p.2) top) 0 placed.

(** The Regions of the placed values whose live range overlaps that of
    the candidate. *)
Definition conflicting (it : Managed) (placed : Placed) : list Region :=
  snd <$> filter (fun p => overlaps (m_range p.1) (m_range it) = true) placed.

(** [offset, offset + size) meets none of the busy byte ranges. *)
Definition clear_of (busy : list Region) (size offset : Z) : bool :=
  forallb (fun r => (offset + size <=? r_offset r)
                    || (r_offset r + r_size r <=? offset)) busy.

Definition lowest (l : list Z) : option Z :=
  match l with
  | [] => None
  | x :: rest => Some (foldr Z.min x rest)
  end.

(** Modelled from the spec: the placement rule of section 4.2, first fit
    by offset over the time-conflicting neighbours.  A gap can only start
    at 0 or where a conflicting Region ends; the lowest such offset at
    which the candidate fits inside the arena placed so far is taken, and
    when there is none the candidate is appended at the high-water
    mark. *)
Definition first_fit (size : Z) (busy : list Region) (top : Z) : Z :=
  default top
    (lowest
       (filter (fun o => clear_of busy size o = true /\ o + size <= top)
               (0 :: map (fun r => r_offset r + r_size r) busy))).

Definition place (placed : Placed) (it : Managed) : Placed :=
  placed ++
  [(it, mkRegion (first_fit (m_size it) (conflicting it placed)
                    (arena_top placed))
          (m_size it))].

(** Descending byte size, ties by ascending handle. *)
Definition by_size (a b : Managed) : Prop :=
  m_size b < m_size a \/
  (m_size a = m_size b /\ (handle a <= handle b)%N).

Global Instance by_size_dec : RelDecision by_size.
Proof. intros a b. unfold by_size. apply _. Defined.

(** Modelled from the spec: greedy-by-size (section 4.2), whose body
    (memory_planning/greedy_by_size.h) is not part of the sources.  The
    managed values are sorted by descending size and placed one after the
    other. *)
Definition greedyBySize (sizes : ManagedSizes) (ranges : ManagedRanges)
  : Allocations :=
  plan_of (fold_left place (merge_sort by_size (managed_items sizes ranges)) []).

(** Ascending start, then ascending end, then ascending handle. *)
Definition by_start (a b : Managed) : Prop :=
  lr_start (m_range a) < lr_start (m_range b) \/
  (lr_start (m_range a) = lr_start (m_range b) /\
   (lr_end (m_range a) < lr_end (m_range b) \/
    (lr_end (m_range a) = lr_end (m_range b) /\
     (handle a <= handle b)%N))).

Global Instance by_start_dec : RelDecision by_start.
Proof. intros a b. unfold by_start. apply _. Defined.

Record ScanState := mkScanState {
  ls_active : Placed;          (* the values that are live, with their Regions *)
  ls_free : list Region;       (* the released Regions, by offset *)
  ls_top : Z;                  (* the arena high-water mark *)
  ls_plan : Placed
}.

Fixpoint insert_by_offset (r : Region) (free : list Region) : list Region :=
  match free with
  | [] => [r]
  | x :: rest =>
      if r_offset r <=? r_offset x then r :: x :: rest
      else x :: insert_by_offset r rest
  end.

(** The smallest free Region that is large enough, the lowest one among
    equals. *)
Definition best_fit (need : Z) (free : list Region) : option Region :=
  fold_left
    (fun best r =>
       match best with
       | None => Some r
       | Some b => if r_size r <? r_size b then Some r else Some b
       end)
    (filter (fun r => need <= r_size r) free) None.

Global Instance Region_eq_dec : EqDecision Region.
Proof. solve_decision. Defined.

Fixpoint remove_first (r : Region) (free : list Region) : list Region :=
  match free with
  | [] => []
  | x :: rest => if decide (x = r) then rest else x :: remove_first r rest
  end.

Definition scan_step (st : ScanState) (it : Managed) : ScanState :=
  let start := lr_start (m_range it) in
  let ended := filter (fun p => lr_end (m_range p.1) < start) (ls_active st) in
  let active :=
    filter (fun p => ~ lr_end (m_range p.1) < start) (ls_active st) in
  let free := fold_left (fun f p => insert_by_offset p.2 f) ended (ls_free st) in
  match best_fit (m_size it) free with
  | Some r =>
      let region := mkRegion (r_offset r) (m_size it) in
      let free1 := remove_first r free in
      let free2 :=
        if m_size it <? r_size r
        then insert_by_offset
               (mkRegion (r_offset r + m_size it) (r_size r - m_size it))
               free1
        else free1 in
      mkScanState ((it, region) :: active) free2 (ls_top st)
                  (ls_plan st ++ [(it, region)])
  | None =>
      let region := mkRegion (ls_top st) (m_size it) in
      mkScanState ((it, region) :: active) free (ls_top st + m_size it)
                  (ls_plan st ++ [(it, region)])
  end.

(** Modelled from the spec: linear scan (section 4.3), whose body
    (memory_planning/linear_scan.h) is not part of the sources.  The
    values are taken by ascending start; the Regions of the values that
    ended before the start at hand are released to the free list; the
    value gets the best-fitting free Region, the rest of which stays
    free, or the arena grows. *)
Definition linearScanHeuristic (sizes : ManagedSizes)
    (ranges : ManagedRanges) : Allocations :=
  plan_of
    (ls_plan
       (fold_left scan_step
          (merge_sort by_start (managed_items sizes ranges))
          (mkScanState [] [] 0 []))).

Section Breadth.

(** The spec does not say which Region is taken when several retiring
    inputs fit: [choose] is that rule. *)
Variable choose : Placed -> option (Managed * Region).

Record BreadthState := mkBreadthState {
  bs_owned : Placed;     (* the Regions with the value that owns each now *)
  bs_plan : Placed
}.

Definition breadth_output (sizes : ManagedSizes) (ranges : ManagedRanges)
    (node : Node) (st : BreadthState) (out_v : Value) : BreadthState :=
  match find_key out_v sizes, find_key out_v ranges with
  | Some size, Some range =>
      let it := mkManaged out_v size range in
      let retiring :=
        filter
          (fun p =>
             count_key (m_value p.1) ((fun v => (v, tt)) <$> n_inputs node)
               = true /\
             lr_end (m_range p.1) <= lr_start range /\
             size <= r_size p.2)
          (bs_owned st) in
      match choose retiring with
      | Some p =>
          let region := mkRegion (r_offset p.2) size in
          mkBreadthState
            ((it, region)
               :: filter (fun q => handle q.1 <> handle p.1) (bs_owned st))
            (bs_plan st ++ [(it, region)])
      | None =>
          let region :=
            mkRegion (first_fit size (conflicting it (bs_plan st))
                        (arena_top (bs_plan st)))
                     size in
          mkBreadthState ((it, region) :: bs_owned st)
                         (bs_plan st ++ [(it, region)])
      end
  | _, _ => st
  end.

(** Modelled from the spec: greedy-by-breadth (section 4.4), whose body
    (memory_planning/greedy_by_breadth.h) is not part of the sources.
    The operations are walked in program order; an output takes over
    the Region of an input of its operation that retires there and is
    large enough, and is placed by the rule of greedy-by-size
    otherwise. *)
Definition greedyByOperatorBreadth (sizes : ManagedSizes)
    (ranges : ManagedRanges) (out_nodes : list (N * Node)) : Allocations :=
  plan_of
    (bs_plan
       (fold_left
          (fun st an =>
             fold_left (breadth_output sizes ranges an.2)
                       (n_outputs an.2) st)
          out_nodes (mkBreadthState [] []))).

End Breadth.

End Strategies.

(** ** A small graph to run the pass on *)

Module Example.

(** Element sizes of a few scalar types (Int 3, Long 4, Float 6,
    Double 7). *)
Definition elementSize (t : ScalarType) : Z :=
  if t =? 3 then 4 else if t =? 4 then 8 else if t =? 6 then 4
  else if t =? 7 then 8 else 1.

Definition unary : Operator :=
  mkOperator (mkSchema [mkArgument "self"]).
Definition unary_out : Operator :=
  mkOperator (mkSchema [mkArgument "self"; mkArgument "out"]).

Definition registry (kind : string) : list Operator :=
  if String.eqb kind "aten::relu" then [unary; unary_out]
  else if String.eqb kind "aten::sigmoid" then [unary; unary_out]
  else if String.eqb kind "aten::size" then [unary]
  else [].

Definition no_container (_ : Node) : bool := false.
Definition no_device (_ : list (N * Node)) : option DeviceType := None.

(** Float tensors of 6 and 4 elements, and a list of ints. *)
Definition float_2x3 : JitType :=
  TensorTy (mkTensorType (Some 6) (Some [2; 3]) (Some [3; 1]) (Some 6)).
Definition float_4 : JitType :=
  TensorTy (mkTensorType (Some 6) (Some [4]) None (Some 4)).

Definition x : Value := mkValue 1 float_2x3 10.
Definition y : Value := mkValue 2 float_4 11.
Definition shape : Value := mkValue 3 OtherTy 12.

Definition relu : Node := mkNode "aten::relu" [] [x] ∅.
Definition sigmoid : Node := mkNode "aten::sigmoid" [x] [y] ∅.
Definition size_of_y : Node := mkNode "aten::size" [y] [shape] ∅.

Definition graph : Graph :=
  mkGraph (<[10%N := relu]> (<[11%N := sigmoid]> (<[12%N := size_of_y]> ∅)))
          [10%N; 11%N; 12%N] 20.

Definition nothing_pinned (_ : Graph) : gset N := ∅.
Definition y_pinned (_ : Graph) : gset N := {[ 2%N ]}.
Definition liveness (_ : Graph) (_ : gset N) : ManagedRanges :=
  [(x, mkLiveRange 0 1); (y, mkLiveRange 1 2)].

(** A strategy without reuse: the values one after the other. *)
Fixpoint stack (offset : Z) (sizes : ManagedSizes) : Allocations :=
  match sizes with
  | [] => []
  | (v, s) :: rest => (v, mkRegion offset s) :: stack (offset + s) rest
  end.
Definition stack2 (sizes : ManagedSizes) (_ : ManagedRanges) : Allocations :=
  stack 0 sizes.
Definition stack3 (sizes : ManagedSizes) (_ : ManagedRanges)
    (_ : list (N * Node)) : Allocations :=
  stack 0 sizes.

(** The graph once a storage node for 40 bytes is in, a plan that fits
    it, and a plan whose second Region ends beyond it. *)
Definition stored : Graph := (insertAllocStorageNode no_device 40 graph).1.
Definition storage_node : Node :=
  mkNode AllocateStorage [] [out_value 20] (storage_attrs 40 None).
Definition fitting : Allocations :=
  [(x, mkRegion 0 24); (y, mkRegion 24 16)].
Definition corrupted : Allocations :=
  [(x, mkRegion 0 24); (y, mkRegion 32 16)].

(** A value that is only a name, for the strategies. *)
Definition buffer (name : N) : Value := mkValue name OtherTy 0.

(** A Float tensor of rank 0 (one element, no axis) that a node with an
    out variant produces, and a Float type whose leading extent is 0. *)
Definition float_rank0 : TensorType :=
  mkTensorType (Some 6) (Some []) (Some []) (Some 1).
Definition z : Value := mkValue 1 (TensorTy float_rank0) 10.
Definition relu_rank0 : Node := mkNode "aten::relu" [] [z] ∅.
Definition rank0_graph : Graph :=
  mkGraph (<[10%N := relu_rank0]> ∅) [10%N] 20.
Definition rank0_liveness (_ : Graph) (_ : gset N) : ManagedRanges :=
  [(z, mkLiveRange 0 1)].
Definition float_0x5 : TensorType :=
  mkTensorType (Some 6) (Some [0; 5]) None (Some 0).

End Example.

(** ** A Hoare logic for the rewriting monad *)

(** [triple P m Q E]: from a graph in [P], [m] ends in [Q] when it returns
    and in [E] when it throws. *)
Definition triple {A} (P : Graph -> Prop) (m : Pass A)
    (Q : A -> Graph -> Prop) (E : Error -> Graph -> Prop) : Prop :=
  forall g, P g ->
    match m g with
    | (g', Return a) => Q a g'
    | (g', Throw e) => E e g'
    end.

Definition any_graph (_ : Graph) : Prop := True.

(** The failed assertions: AT_ASSERT, expect<T>, a missing attribute. *)
Definition only_assert (e : Error) (_ : Graph) : Prop := e = InternalAssert.

(** The errors other than the failed TORCH_CHECK. *)
Definition other_error (e : Error) (_ : Graph) : Prop :=
  e = InternalAssert \/ e = BadOptionalAccess.

(** What must hold of a plan entry for one turn of the loop of
    insertAllocTensorNodes to end in the error [e], the storage node
    recording [total] bytes. *)
Definition turn_cause (total : Z) (x : Value * Region) (e : Error) : Prop :=
  match e with
  | InternalAssert => True
  | BadOptionalAccess =>
      exists ttp, v_type x.1 = TensorTy ttp /\ scalarType ttp = None
  | ExceedsPlannedMemory => total < region_end x.2
  end.

(** A node with further inputs at the end of its input list. *)
Definition extended (n : Node) (extra : list Value) : Node :=
  mkNode (n_kind n) (n_inputs n ++ extra) (n_outputs n) (n_attrs n).

(** [kept g0 g]: [g] still has the nodes of [g0], linked in the same
    order and each with its kind, outputs and attributes; their input
    lists may have grown at the end.  What [g] links beyond the nodes of
    [g0] lies at or above the fresh address of [g0], and a node object
    there is a prim::AllocateStorage or a prim::AllocateTensor node. *)
Definition kept (g0 g : Graph) : Prop :=
  (g_next g0 <= g_next g)%N /\
  sublist (g_nodes g0) (g_nodes g) /\
  (forall a n, g_heap g0 !! a = Some n ->
     exists extra, g_heap g !! a = Some (extended n extra)) /\
  (forall a, a ∈ g_nodes g -> a ∈ g_nodes g0 \/ (g_next g0 <= a)%N) /\
  (forall a n, (g_next g0 <= a)%N -> g_heap g !! a = Some n ->
     n_kind n = AllocateStorage \/ n_kind n = AllocateTensor).

(** * The shape functions of symbolic_shape_registry.cpp *)

(** The functions of the string shape_compute_functions are TorchScript.
    A call that does not return (a failed assert, a position out of range,
    a division by 0) is [None].  TorchScript's int is int64_t: arithmetic
    on extents is written with its wrap-around ([add64], [sub64], [mul64],
    [neg64]); the length of a list and the positions in it stay far below
    2^63 and are computed on Z.  The operations of the language on lists
    ([getitem], [list_insert], [list_slice]) count a negative position
    from the end, as Python does. *)
Module Shape.

Definition add64 (a b : Z) : Z := wrap_i64 (a + b).
Definition sub64 (a b : Z) : Z := wrap_i64 (a - b).
Definition mul64 (a b : Z) : Z := wrap_i64 (a * b).
Definition neg64 (a : Z) : Z := wrap_i64 (- a).

(** [a // b] and [a % b]: the quotient is rounded down and the remainder
    has the sign of [b], as Z.div and Z.modulo have them. *)
Definition floordiv (a b : Z) : option Z :=
  if b =? 0 then None else Some (wrap_i64 (a / b)).
Definition remainder (a b : Z) : option Z :=
  if b =? 0 then None else Some (a mod b).

Definition len {A} (l : list A) : Z := Z.of_nat (length l).

(** [l[i]]: a negative position counts from the end. *)
Definition getitem (l : list Z) (i : Z) : option Z :=
  let i := if i <? 0 then len l + i else i in
  if (0 <=? i) && (i <? len l) then l !! Z.to_nat i else None.

(** [l.insert(idx, x)]: a position before the start inserts first, one at
    or after the end appends. *)
Definition list_insert (l : list Z) (idx x : Z) : list Z :=
  let idx := if idx <? 0 then len l + idx else idx in
  if idx <? 0 then x :: l
  else if len l <=? idx then l ++ [x]
  else take (Z.to_nat idx) l ++ x :: drop (Z.to_nat idx) l.

(** [l[start:stop]]: both ends are counted from the end when negative and
    then brought into the list. *)
Definition list_slice (l : list Z) (start stop : Z) : list Z :=
  let clamp i :=
    let i := if i <? 0 then len l + i else i in
    Z.max 0 (Z.min (len l) i) in
  drop (Z.to_nat (clamp start)) (take (Z.to_nat (clamp stop)) l).

(** [for x in l: body], the body updating the variables [s]. *)
Fixpoint for_in {A S} (l : list A) (body : A -> S -> option S) (s : S)
  : option S :=
  match l with
  | [] => Some s
  | x :: rest => s' ← body x s; for_in rest body s'
  end.

(** [range(n)] and [range(a, b)]. *)
Definition range (n : Z) : list Z := seqZ 0 n.
Definition range_from (a b : Z) : list Z := seqZ a (b - a).

Definition assert_that (cond : bool) : option unit :=
  if cond then Some tt else None.

Definition maybe_wrap_dim (dim dim_post_expr : Z) (wrap_scalar : bool)
  : option Z :=
  dim_post_expr ←
    (if dim_post_expr <=? 0
     then assert_that wrap_scalar;; Some 1
     else Some dim_post_expr);
  let min := - dim_post_expr in
  let max := dim_post_expr - 1 in
  assert_that (negb ((dim <? min) || (max <? dim)));;
  Some (if dim <? 0 then dim + dim_post_expr else dim).

Definition broadcast (a b : list Z) : option (list Z) :=
  let dimsA := len a in
  let dimsB := len b in
  let ndim := Z.max dimsA dimsB in
  for_in (range ndim)
    (fun i expandedSizes =>
       let offset := ndim - 1 - i in
       let dimA := dimsA - 1 - offset in
       let dimB := dimsB - 1 - offset in
       sizeA ← (if 0 <=? dimA then getitem a dimA else Some 1);
       sizeB ← (if 0 <=? dimB then getitem b dimB else Some 1);
       if negb (sizeA =? sizeB) && negb (sizeA =? 1) && negb (sizeB =? 1)
       then None
       else Some (expandedSizes ++ [if sizeA =? 1 then sizeB else sizeA]))
    [].

Definition _copy (self : list Z) : option (list Z) :=
  for_in self (fun elem out => Some (out ++ [elem])) [].

Definition unary (self : list Z) : option (list Z) := _copy self.

Definition view (self sizes : list Z) : option (list Z) :=
  for_in sizes
    (fun elem out => if elem =? -1 then None else Some (out ++ [elem])) [].

Definition mean_dim {Any} (self dims : list Z) (keep_dim : bool) (dt : Any)
  : option (list Z) :=
  for_in (range (len self))
    (fun idx out =>
       for_in dims
         (fun reduce_dim (is_mean_dim : bool) =>
            d ← maybe_wrap_dim reduce_dim (len self) true;
            Some (if idx =? d then true else is_mean_dim))
         false
       ≫= fun is_mean_dim : bool =>
       if is_mean_dim
       then if keep_dim then Some (out ++ [1]) else Some out
       else x ← getitem self idx; Some (out ++ [x]))
    [].

Definition mm (self mat2 : list Z) : option (list Z) :=
  assert_that (len self =? 2);;
  assert_that (len mat2 =? 2);;
  self1 ← getitem self 1;
  mat2_0 ← getitem mat2 0;
  assert_that (self1 =? mat2_0);;
  self0 ← getitem self 0;
  mat2_1 ← getitem mat2 1;
  Some [self0; mat2_1].

Definition dot (self tensor : list Z) : option (list Z) :=
  assert_that ((len self =? 1) && (len tensor =? 1));;
  self0 ← getitem self 0;
  tensor0 ← getitem tensor 0;
  assert_that (self0 =? tensor0);;
  Some [].

Definition mv (self vec : list Z) : option (list Z) :=
  assert_that ((len self =? 2) && (len vec =? 1));;
  self1 ← getitem self 1;
  vec0 ← getitem vec 0;
  assert_that (self1 =? vec0);;
  self0 ← getitem self 0;
  Some [self0].

Definition unsqueeze (li : list Z) (dim : Z) : option (list Z) :=
  dim ← maybe_wrap_dim dim (len li + 1) true;
  out ← _copy li;
  Some (list_insert out dim 1).

Definition squeeze_nodim (li : list Z) : option (list Z) :=
  for_in (range (len li))
    (fun i out =>
       x ← getitem li i;
       if negb (x =? 1)
       then y ← getitem li i; Some (out ++ [y])
       else Some out)
    [].

Definition squeeze (li : list Z) (dim : Z) : option (list Z) :=
  for_in (range (len li))
    (fun i out =>
       d ← maybe_wrap_dim dim (len li) true;
       if i =? d
       then
         x ← getitem li i;
         if negb (x =? 1)
         then y ← getitem li i; Some (out ++ [y])
         else Some out
       else y ← getitem li i; Some (out ++ [y]))
    [].

Definition multiply_integers (li : list Z) : Z :=
  fold_left (fun out elem => mul64 out elem) li 1.

Definition select (self : list Z) (dim index : Z) : option (list Z) :=
  let ndim := len self in
  assert_that (negb (ndim =? 0));;
  dim ← maybe_wrap_dim dim ndim true;
  size ← getitem self dim;
  assert_that (negb ((index <? neg64 size) || (size <=? index)));;
  let index := if index <? 0 then add64 index size else index in
  for_in (range ndim)
    (fun i out =>
       if negb (i =? dim)
       then x ← getitem self i; Some (out ++ [x])
       else Some out)
    [].

Definition matmul (tensor1 tensor2 : list Z) : option (list Z) :=
  let dim_tensor1 := len tensor1 in
  let dim_tensor2 := len tensor2 in
  if (dim_tensor1 =? 1) && (dim_tensor2 =? 1) then dot tensor1 tensor2
  else if (dim_tensor1 =? 2) && (dim_tensor2 =? 1) then mv tensor1 tensor2
  else if (dim_tensor1 =? 1) && (dim_tensor2 =? 2) then
    unsqueezed ← unsqueeze tensor1 0;
    product ← mm unsqueezed tensor2;
    squeeze product 0
  else if (dim_tensor1 =? 2) && (dim_tensor2 =? 2) then mm tensor1 tensor2
  else if (1 <=? dim_tensor1) && (1 <=? dim_tensor2) then
    n ← (if 1 <? dim_tensor1 then getitem tensor1 (-2) else Some 1);
    m1 ← getitem tensor1 (-1);
    batch_tensor1 ←
      for_in (range (dim_tensor1 - 2))
        (fun i batch => x ← getitem tensor1 i; Some (batch ++ [x])) [];
    m2 ← (if 1 <? dim_tensor2 then getitem tensor2 (-1) else Some 1);
    p ← getitem tensor2 (-1);
    batch_tensor2 ←
      for_in (range (dim_tensor2 - 2))
        (fun i batch => x ← getitem tensor2 i; Some (batch ++ [x])) [];
    expand_batch_portion ← broadcast batch_tensor1 batch_tensor2;
    let output_shape := expand_batch_portion in
    let output_shape :=
      if 1 <? dim_tensor1 then output_shape ++ [n] else output_shape in
    let output_shape :=
      if 1 <? dim_tensor2 then output_shape ++ [p] else output_shape in
    Some output_shape
  else None.

Definition t (self : list Z) : option (list Z) :=
  assert_that (len self <=? 2);;
  let self_len := len self in
  if self_len =? 0 then Some []
  else if self_len =? 1 then self0 ← getitem self 0; Some [self0]
  else self1 ← getitem self 1; self0 ← getitem self 0; Some [self1; self0].

Definition transpose (self : list Z) (dim0 dim1 : Z) : option (list Z) :=
  let ndims := len self in
  dim0 ← maybe_wrap_dim dim0 ndims true;
  dim1 ← maybe_wrap_dim dim1 ndims true;
  if dim0 =? dim1 then _copy self
  else
    for_in (range ndims)
      (fun i out =>
         if i =? dim0 then x ← getitem self dim1; Some (out ++ [x])
         else if i =? dim1 then x ← getitem self dim0; Some (out ++ [x])
         else x ← getitem self i; Some (out ++ [x]))
      [].

Definition linear (input weight : list Z) (bias : option (list Z))
  : option (list Z) :=
  transposed ← t weight;
  out ← matmul input transposed;
  match bias with
  | Some bias =>
      expanded ← broadcast bias out;
      assert_that (bool_decide (expanded = out));;
      Some out
  | None => Some out
  end.

(** The flag is raised by a negative element, whatever the name says. *)
Definition check_non_negative (array : list Z) : bool :=
  fold_left (fun non_negative val => if val <? 0 then true else non_negative)
            array false.

Definition check_shape_forward (input weight_sizes : list Z)
    (bias : option (list Z)) (stride padding dilation : list Z) (groups : Z)
  : option unit :=
  let k := len input in
  let weight_dim := len weight_sizes in
  assert_that (negb (check_non_negative padding));;
  assert_that (negb (check_non_negative stride));;
  assert_that (weight_dim =? k);;
  weight0 ← getitem weight_sizes 0;
  assert_that (groups <=? weight0);;
  weight0 ← getitem weight_sizes 0;
  rest ← remainder weight0 groups;
  assert_that (rest =? 0);;
  input1 ← getitem input 1;
  weight1 ← getitem weight_sizes 1;
  assert_that (input1 =? mul64 weight1 groups);;
  match bias with
  | None => Some tt
  | Some bias =>
      if len bias =? 1
      then
        bias0 ← getitem bias 0;
        weight0 ← getitem weight_sizes 0;
        assert_that (bias0 =? weight0)
      else None
  end;;
  for_in (range_from 2 k)
    (fun i _ =>
       input_i ← getitem input i;
       padding_i ← getitem padding (i - 2);
       dilation_i ← getitem dilation (i - 2);
       weight_i ← getitem weight_sizes i;
       assert_that
         (add64 (mul64 dilation_i (sub64 weight_i 1)) 1
          <=? add64 input_i (mul64 2 padding_i)))
    tt.

Definition conv_output_size (input_size weight_size : list Z)
    (bias : option (list Z)) (stride padding dilation : list Z) (groups : Z)
  : option (list Z) :=
  check_shape_forward input_size weight_size bias stride padding dilation
    groups;;
  let has_dilation := 0 <? len dilation in
  let dim := len input_size in
  let input_batch_size_dim := 0 in
  let weight_output_channels_dim := 0 in
  batch ← getitem input_size input_batch_size_dim;
  channels ← getitem weight_size weight_output_channels_dim;
  for_in (range_from 2 dim)
    (fun d output_size =>
       dilation_ ←
         (if has_dilation then getitem dilation (d - 2) else Some 1);
       weight_d ← getitem weight_size d;
       let kernel := add64 (mul64 dilation_ (sub64 weight_d 1)) 1 in
       input_d ← getitem input_size d;
       padding_d ← getitem padding (d - 2);
       stride_d ← getitem stride (d - 2);
       quotient ←
         floordiv (sub64 (add64 input_d (mul64 2 padding_d)) kernel) stride_d;
       Some (output_size ++ [add64 quotient 1]))
    [batch; channels].

Definition conv1d (input weight : list Z) (bias : option (list Z))
    (stride padding dilation : list Z) (groups : Z) : option (list Z) :=
  assert_that (len weight =? 3);;
  assert_that (len input =? 3);;
  conv_output_size input weight bias stride padding dilation groups.

Definition conv2d (input weight : list Z) (bias : option (list Z))
    (stride padding dilation : list Z) (groups : Z) : option (list Z) :=
  assert_that (len weight =? 4);;
  assert_that (len input =? 4);;
  conv_output_size input weight bias stride padding dilation groups.

Definition conv3d (input weight : list Z) (bias : option (list Z))
    (stride padding dilation : list Z) (groups : Z) : option (list Z) :=
  assert_that (len weight =? 5);;
  assert_that (len input =? 5);;
  conv_output_size input weight bias stride padding dilation groups.

Definition flatten (input : list Z) (start_dim end_dim : Z)
  : option (list Z) :=
  start_dim ← maybe_wrap_dim start_dim (len input) true;
  end_dim ← maybe_wrap_dim end_dim (len input) true;
  assert_that (start_dim <=? end_dim);;
  if len input =? 0 then Some [1]
  else if start_dim =? end_dim
  then for_in input (fun elem out => Some (out ++ [elem])) []
  else
    let slice_numel :=
      multiply_integers
        (list_slice input start_dim (end_dim - start_dim + 1)) in
    shape ←
      for_in (range start_dim)
        (fun i shape => x ← getitem input i; Some (shape ++ [x])) [];
    let shape := shape ++ [slice_numel] in
    for_in (range_from (end_dim + 1) (len input))
      (fun i shape => x ← getitem input i; Some (shape ++ [x])) shape.

Definition index_select (self : list Z) (dim : Z) (index : list Z)
  : option (list Z) :=
  dim ← maybe_wrap_dim dim (len self) true;
  let numel := multiply_integers index in
  assert_that (len index <=? 1);;
  assert_that ((dim =? 0) || (dim <? len self));;
  for_in (range (len self))
    (fun i result_size =>
       if dim =? i
       then Some (result_size ++ [numel])
       else x ← getitem self i; Some (result_size ++ [x]))
    [].

Definition max_int : Z := 9223372036854775807.

(** [end] is a keyword here, so the argument is [end_]. *)
Definition slice (self : list Z) (dim : Z) (start end_ : option Z) (step : Z)
  : option (list Z) :=
  let ndim := len self in
  assert_that (negb (ndim =? 0));;
  dim ← maybe_wrap_dim dim ndim true;
  let start_val := match start with Some start => start | None => 0 end in
  let end_val := match end_ with Some end_ => end_ | None => max_int end in
  assert_that (0 <? step);;
  let start_val := if start_val =? max_int then 0 else start_val in
  start_val ←
    (if start_val <? 0
     then size ← getitem self dim; Some (add64 start_val size)
     else Some start_val);
  end_val ←
    (if end_val <? 0
     then size ← getitem self dim; Some (add64 end_val size)
     else Some end_val);
  start_val ←
    (if start_val <? 0 then Some 0
     else
       size ← getitem self dim;
       if size <=? start_val then getitem self dim else Some start_val);
  end_val ←
    (if end_val <? start_val then Some start_val
     else
       size ← getitem self dim;
       if size <=? end_val then getitem self dim else Some end_val);
  let len := sub64 end_val start_val in
  for_in (range ndim)
    (fun i out =>
       if i =? dim
       then
         quotient ← floordiv (sub64 (add64 len step) 1) step;
         Some (out ++ [quotient])
       else x ← getitem self i; Some (out ++ [x]))
    [].

End Shape.

(** * Properties *)

(** ** Region model: the total arena size *)

Lemma region_end_nonneg (r : Region) : 0 <= region_end r.
Proof. unfold region_end, wrap_u64. apply Z.mod_pos_bound. lia. Qed.

Lemma region_end_exact (r : Region) :
  0 <= r_offset r -> 0 <= r_size r -> r_offset r + r_size r < 2 ^ 64 ->
  region_end r = r_offset r + r_size r.
Proof. intros. unfold region_end, wrap_u64. apply Z.mod_small. lia. Qed.

Local Abbreviation running_max acc plan :=
  (fold_left (fun total_size item => Z.max total_size (region_end item.2))
             plan acc).

Lemma running_max_ge (plan : Allocations) (acc : Z) :
  acc <= running_max acc plan.
Proof.
  revert acc. induction plan as [|e plan IH]; intros acc; simpl; [lia|].
  specialize (IH (Z.max acc (region_end e.2))). lia.
Qed.

Lemma running_max_upper (plan : Allocations) (acc : Z) (e : Value * Region) :
  e ∈ plan -> region_end e.2 <= running_max acc plan.
Proof.
  revert acc. induction plan as [|x plan IH]; intros acc Hin.
  - inversion Hin.
  - apply elem_of_cons in Hin as [->|Hin]; simpl.
    + pose proof (running_max_ge plan (Z.max acc (region_end x.2))). lia.
    + by apply IH.
Qed.

Lemma running_max_attained (plan : Allocations) (acc : Z) :
  running_max acc plan = acc \/
  exists e, e ∈ plan /\ running_max acc plan = region_end e.2.
Proof.
  revert acc. induction plan as [|x plan IH]; intros acc; simpl; [by left|].
  destruct (IH (Z.max acc (region_end x.2))) as [Heq|(e & Hin & Heq)].
  - destruct (Z.max_spec acc (region_end x.2)) as [[_ Hm]|[_ Hm]].
    + right. exists x. split; [left|]. lia.
    + left. lia.
  - right. exists e. split; [by right|]. exact Heq.
Qed.

(** C2. For every plan, in whatever order the map is iterated,
    getTotalAllocationSize is 0 when the plan is empty and otherwise the
    maximum of [offset + size] over the entries: it bounds every entry's
    sum and is the sum of one of them.  The sum is the one the code
    computes, on uint64_t; when no entry's sum leaves the 64-bit range the
    same holds of the exact sums. *)
Theorem getTotalAllocationSize_is_max (plan : Allocations) :
  (plan = [] -> getTotalAllocationSize plan = 0) /\
  (forall v r, (v, r) ∈ plan -> region_end r <= getTotalAllocationSize plan) /\
  (plan <> [] ->
   exists v r, (v, r) ∈ plan /\ getTotalAllocationSize plan = region_end r) /\
  ((forall v r, (v, r) ∈ plan ->
      0 <= r_offset r /\ 0 <= r_size r /\ r_offset r + r_size r < 2 ^ 64) ->
   (forall v r, (v, r) ∈ plan ->
      r_offset r + r_size r <= getTotalAllocationSize plan) /\
   (plan <> [] ->
    exists v r, (v, r) ∈ plan /\
      getTotalAllocationSize plan = r_offset r + r_size r)).
Proof.
  assert (Hattained : plan <> [] ->
    exists v r, (v, r) ∈ plan /\ getTotalAllocationSize plan = region_end r).
  { unfold getTotalAllocationSize. intros Hne.
    destruct (running_max_attained plan 0) as [H0|(e & Hin & He)].
    - destruct plan as [|[v r] plan]; [done|]. exists v, r. split; [left|].
      pose proof (running_max_upper ((v, r) :: plan) 0 (v, r)) as Hup.
      pose proof (region_end_nonneg r).
      specialize (Hup ltac:(left)). simpl in Hup, H0 |- *. lia.
    - destruct e as [v r]. by exists v, r. }
  split; [by intros ->|]. split; [|split; [exact Hattained|]].
  - intros v r Hin. exact (running_max_upper plan 0 (v, r) Hin).
  - intros Hfit. split.
    + intros v r Hin. destruct (Hfit v r Hin) as (Ho & Hs & Hlt).
      rewrite <- (region_end_exact r Ho Hs Hlt).
      exact (running_max_upper plan 0 (v, r) Hin).
    + intros Hne. destruct (Hattained Hne) as (v & r & Hin & Heq).
      exists v, r. split; [done|].
      destruct (Hfit v r Hin) as (Ho & Hs & Hlt).
      by rewrite Heq, (region_end_exact r Ho Hs Hlt).
Qed.

(** The total does not depend on the order in which the unordered map
    hands out its entries. *)
Lemma getTotalAllocationSize_Permutation (p q : Allocations) :
  p ≡ₚ q -> getTotalAllocationSize p = getTotalAllocationSize q.
Proof.
  intros Hpq. unfold getTotalAllocationSize. generalize 0. induction Hpq as [|x p q _ IH|x y p|p q r _ IH1 _ IH2];
    intros acc; simpl.
  - done.
  - apply IH.
  - f_equal. lia.
  - by rewrite IH1.
Qed.

(** ** getSizesStrides *)

Lemma usable_false_iff (o : option (list Z)) :
  usable o = false <->
  o = None \/ o = Some [] \/ exists rest, o = Some (0 :: rest).
Proof.
  destruct o as [[|x rest]|]; simpl.
  - naive_solver.
  - rewrite negb_false_iff, Z.eqb_eq. split.
    + intros ->. right; right. by exists rest.
    + intros [?|[?|(r & Hr)]]; try done. by inversion Hr.
  - naive_solver.
Qed.

Lemma getSizesStrides_extents (ttp : TensorType) :
  (forall x rest, sizes_concrete ttp = Some (x :: rest) -> x <> 0 ->
     (getSizesStrides ttp).1 = x :: rest) /\
  ((sizes_concrete ttp = None \/ sizes_concrete ttp = Some [] \/
    exists rest, sizes_concrete ttp = Some (0 :: rest)) ->
   (getSizesStrides ttp).1 = [0]).
Proof.
  split.
  - intros x rest Hs Hx. unfold getSizesStrides. cbn [fst]. rewrite Hs.
    cbn [usable default]. apply Z.eqb_neq in Hx. by rewrite Hx.
  - intros Hdeg%usable_false_iff. unfold getSizesStrides. cbn [fst].
    by rewrite Hdeg.
Qed.

Lemma getSizesStrides_reported_strides (ttp : TensorType) (x : Z)
    (rest : list Z) :
  strides_concrete ttp = Some (x :: rest) -> x <> 0 ->
  (getSizesStrides ttp).2 = x :: rest.
Proof.
  intros Hs Hx. unfold getSizesStrides. cbn [snd]. rewrite Hs.
  cbn [usable default]. apply Z.eqb_neq in Hx. by rewrite Hx.
Qed.

Lemma getSizesStrides_default_strides (ttp : TensorType) :
  strides_concrete ttp = None \/ strides_concrete ttp = Some [] \/
  (exists rest, strides_concrete ttp = Some (0 :: rest)) ->
  (getSizesStrides ttp).2 = defaultStrides (getSizesStrides ttp).1.
Proof.
  intros Hdeg%usable_false_iff. unfold getSizesStrides. cbn [fst snd].
  by rewrite Hdeg.
Qed.

(** C7, as the code has it.  When the reported strides are absent, empty
    or start with 0, getSizesStrides returns the row-major default strides
    of the extents it returns, and these are not always the extents of the
    type: they are the reported extents when those are present, not empty
    and do not start with 0, and the single extent 0 in every other case,
    where the strides are [1].  Otherwise it returns the reported strides
    as they are. *)
Theorem getSizesStrides_strides (ttp : TensorType) :
  ((strides_concrete ttp = None \/ strides_concrete ttp = Some [] \/
    exists rest, strides_concrete ttp = Some (0 :: rest)) ->
   (forall x rest, sizes_concrete ttp = Some (x :: rest) -> x <> 0 ->
      getSizesStrides ttp = (x :: rest, defaultStrides (x :: rest))) /\
   ((sizes_concrete ttp = None \/ sizes_concrete ttp = Some [] \/
     exists rest, sizes_concrete ttp = Some (0 :: rest)) ->
    getSizesStrides ttp = ([0], [1]))) /\
  (forall x rest, strides_concrete ttp = Some (x :: rest) -> x <> 0 ->
   (getSizesStrides ttp).2 = x :: rest).
Proof.
  destruct (getSizesStrides_extents ttp) as [Hreported Hzero].
  split; [|apply getSizesStrides_reported_strides].
  intros Hdefault%getSizesStrides_default_strides.
  destruct (getSizesStrides ttp) as [extents strides] eqn:Hrun.
  cbn [fst snd] in *. split.
  - intros x rest Hs Hx. by rewrite Hdefault, (Hreported x rest Hs Hx).
  - intros Hdeg. by rewrite Hdefault, (Hzero Hdeg).
Qed.

(** ** Maps keyed by addresses *)

Lemma count_key_true {A} (v : Value) (m : list (Value * A)) :
  count_key v m = true <-> exists e, e ∈ m /\ v_unique e.1 = v_unique v.
Proof.
  unfold count_key. induction m as [|x m IH]; simpl.
  - split; [done|]. intros (e & He & _). inversion He.
  - rewrite orb_true_iff, IH, N.eqb_eq. split.
    + intros [Hx|(e & He & Hu)]; [exists x|exists e]; split; try done.
      * left.
      * by right.
    + intros (e & He & Hu). apply elem_of_cons in He as [->|He]; [by left|].
      right. by exists e.
Qed.

Lemma count_key_app {A} (v : Value) (m1 m2 : list (Value * A)) :
  count_key v (m1 ++ m2) = count_key v m1 || count_key v m2.
Proof. unfold count_key. apply existsb_app. Qed.

Lemma elem_of_map_insert {A} (v : Value) (a : A) (m : list (Value * A))
    (e : Value * A) :
  e ∈ map_insert v a m -> e ∈ m \/ (e = (v, a) /\ count_key v m = false).
Proof.
  unfold map_insert. destruct (count_key v m) eqn:Hc; [by left|].
  rewrite elem_of_app, list_elem_of_singleton. intros [?| ->]; [by left|by right].
Qed.

Lemma map_insert_mono {A} (v : Value) (a : A) (m : list (Value * A))
    (e : Value * A) :
  e ∈ m -> e ∈ map_insert v a m.
Proof.
  unfold map_insert. destruct (count_key v m); [done|].
  intros. apply elem_of_app. by left.
Qed.

Lemma count_key_map_insert {A} (v : Value) (a : A) (m : list (Value * A)) :
  count_key v (map_insert v a m) = true.
Proof.
  unfold map_insert. destruct (count_key v m) eqn:Hc; [done|].
  rewrite count_key_app. simpl. rewrite N.eqb_refl. by rewrite orb_true_r.
Qed.

Lemma count_key_mono {A} (v w : Value) (a : A) (m : list (Value * A)) :
  count_key w m = true -> count_key w (map_insert v a m) = true.
Proof.
  rewrite !count_key_true. intros (e & He & Hu). exists e.
  split; [by apply map_insert_mono|done].
Qed.

(** ** The collector *)

Section CollectorFacts.

Variable elementSize : ScalarType -> Z.
Variable getAllOperatorsFor : string -> list Operator.
Variable isOptimizableContainerType : Node -> bool.
Variable always_alive : gset N.

Local Abbreviation size_of := (computeStorageSize elementSize).
Local Abbreviation has_out := (hasOutVariant getAllOperatorsFor).
Local Abbreviation on_output :=
  (visit_output elementSize isOptimizableContainerType always_alive).
Local Abbreviation on_node :=
  (visit_node elementSize getAllOperatorsFor isOptimizableContainerType
     always_alive).

Lemma on_output_out_nodes node c out_v :
  out_nodes (on_output node c out_v) = out_nodes c.
Proof.
  unfold visit_output. repeat case_match; done.
Qed.

Lemma on_output_managed node c out_v e :
  e ∈ managed_tensor_values (on_output node c out_v) ->
  e ∈ managed_tensor_values c \/ (e.1 = out_v /\ plannable elementSize always_alive e.1 e.2).
Proof.
  unfold visit_output, plannable. case_bool_decide as Haa; [by left|].
  destruct (size_of out_v) as [s|] eqn:Hs.
  - destruct (0 <? s) eqn:Hpos; simpl; [|by left].
    intros [?|[-> _]]%elem_of_map_insert; [by left|right]. simpl.
    apply Z.ltb_lt in Hpos. by rewrite Hs.
  - destruct (isOptimizableContainerType node); by left.
Qed.

Lemma on_output_mono node c out_v :
  (forall e, e ∈ managed_tensor_values c ->
             e ∈ managed_tensor_values (on_output node c out_v)) /\
  (forall w, w ∈ leaked_values c -> w ∈ leaked_values (on_output node c out_v)).
Proof.
  unfold visit_output. case_bool_decide; [done|].
  destruct (size_of out_v) as [s|].
  - destruct (0 <? s); simpl; split; intros; try done.
    + by apply map_insert_mono.
    + by right.
  - destruct (isOptimizableContainerType node); simpl; split; intros;
      try done; by right.
Qed.

Lemma on_output_hit node c out_v :
  v_unique out_v ∉ always_alive ->
  match size_of out_v with
  | Some s =>
      if 0 <? s
      then count_key out_v (managed_tensor_values (on_output node c out_v))
           = true
      else out_v ∈ leaked_values (on_output node c out_v)
  | None => out_v ∈ leaked_values (on_output node c out_v)
  end.
Proof.
  intros Haa. unfold visit_output. rewrite bool_decide_eq_false_2 by done.
  destruct (size_of out_v) as [s|].
  - destruct (0 <? s); simpl; [apply count_key_map_insert|left].
  - destruct (isOptimizableContainerType node); simpl; left.
Qed.

Lemma outputs_out_nodes node outs c :
  out_nodes (fold_left (on_output node) outs c) = out_nodes c.
Proof.
  revert c. induction outs as [|o outs IH]; intros c; simpl; [done|].
  by rewrite IH, on_output_out_nodes.
Qed.

Lemma outputs_managed node outs c e :
  e ∈ managed_tensor_values (fold_left (on_output node) outs c) ->
  e ∈ managed_tensor_values c \/ (e.1 ∈ outs /\ plannable elementSize always_alive e.1 e.2).
Proof.
  revert c. induction outs as [|o outs IH]; intros c; simpl; [by left|].
  intros [Hin|[Hin Hp]]%IH.
  - apply on_output_managed in Hin as [?|[<- Hp]]; [by left|right].
    split; [left|done].
  - right. split; [by right|done].
Qed.

Lemma outputs_mono node outs c :
  (forall e, e ∈ managed_tensor_values c ->
             e ∈ managed_tensor_values (fold_left (on_output node) outs c)) /\
  (forall w, w ∈ leaked_values c ->
             w ∈ leaked_values (fold_left (on_output node) outs c)).
Proof.
  revert c. induction outs as [|o outs IH]; intros c; simpl; [done|].
  destruct (IH (on_output node c o)) as [IHm IHl].
  destruct (on_output_mono node c o) as [Hm Hl]. split; auto.
Qed.

Lemma count_key_elem {A} (v : Value) (m m' : list (Value * A)) :
  (forall e, e ∈ m -> e ∈ m') -> count_key v m = true -> count_key v m' = true.
Proof.
  rewrite !count_key_true. intros Hsub (e & He & Hu). exists e. split; auto.
Qed.

Lemma settled_mono (c c' : Collected) (v : Value) :
  (forall e, e ∈ managed_tensor_values c -> e ∈ managed_tensor_values c') ->
  (forall w, w ∈ leaked_values c -> w ∈ leaked_values c') ->
  settled elementSize c v -> settled elementSize c' v.
Proof.
  unfold settled. intros Hm Hl. destruct (size_of v) as [s|]; [|auto].
  destruct (0 <? s); [|auto]. by apply count_key_elem.
Qed.

Lemma outputs_settled node outs c v :
  v ∈ outs -> v_unique v ∉ always_alive ->
  settled elementSize (fold_left (on_output node) outs c) v.
Proof.
  revert c. induction outs as [|o outs IH]; intros c Hin Haa.
  - inversion Hin.
  - simpl. apply elem_of_cons in Hin as [->|Hin]; [|by apply IH].
    destruct (outputs_mono node outs (on_output node c o)) as [Hm Hl].
    apply (settled_mono (on_output node c o)); [done|done|].
    exact (on_output_hit node c o Haa).
Qed.

Lemma on_node_managed c an e :
  e ∈ managed_tensor_values (on_node c an) ->
  e ∈ managed_tensor_values c \/
  (has_out an.2 = true /\ e.1 ∈ n_outputs an.2 /\ plannable elementSize always_alive e.1 e.2).
Proof.
  unfold visit_node. destruct (has_out an.2) eqn:Hout; [|by left].
  intros [?|[? ?]]%outputs_managed; [by left|by right].
Qed.

Lemma on_node_mono c an :
  (forall e, e ∈ managed_tensor_values c ->
             e ∈ managed_tensor_values (on_node c an)) /\
  (forall w, w ∈ leaked_values c -> w ∈ leaked_values (on_node c an)).
Proof.
  unfold visit_node. destruct (has_out an.2); [|done].
  apply (outputs_mono an.2 (n_outputs an.2)
           (mkCollected (out_nodes c ++ [an]) (managed_tensor_values c)
              (leaked_values c))).
Qed.

Lemma on_node_out_nodes c an :
  out_nodes (on_node c an) =
  out_nodes c ++ (if has_out an.2 then [an] else []).
Proof.
  unfold visit_node. destruct (has_out an.2).
  - by rewrite outputs_out_nodes.
  - by rewrite app_nil_r.
Qed.

Lemma nodes_managed l c e :
  e ∈ managed_tensor_values (fold_left on_node l c) ->
  e ∈ managed_tensor_values c \/
  exists an, an ∈ l /\ has_out an.2 = true /\ e.1 ∈ n_outputs an.2 /\
             plannable elementSize always_alive e.1 e.2.
Proof.
  revert c. induction l as [|x l IH]; intros c; simpl; [by left|].
  intros [Hin|(an & Han & H)]%IH.
  - apply on_node_managed in Hin as [?|?]; [by left|right].
    exists x. split; [left|done].
  - right. exists an. split; [by right|done].
Qed.

Lemma nodes_mono l c :
  (forall e, e ∈ managed_tensor_values c ->
             e ∈ managed_tensor_values (fold_left on_node l c)) /\
  (forall w, w ∈ leaked_values c ->
             w ∈ leaked_values (fold_left on_node l c)).
Proof.
  revert c. induction l as [|x l IH]; intros c; simpl; [done|].
  destruct (IH (on_node c x)) as [IHm IHl].
  destruct (on_node_mono c x) as [Hm Hl]. split; auto.
Qed.

Lemma nodes_out_nodes l c :
  out_nodes (fold_left on_node l c) =
  out_nodes c ++ filter (fun an => has_out an.2 = true) l.
Proof.
  revert c. induction l as [|x l IH]; intros c; simpl.
  - by rewrite app_nil_r.
  - rewrite IH, on_node_out_nodes, filter_cons, <- app_assoc.
    destruct (has_out x.2) eqn:Hx; case_decide; done.
Qed.

Lemma nodes_settled l c an v :
  an ∈ l -> has_out an.2 = true -> v ∈ n_outputs an.2 ->
  v_unique v ∉ always_alive ->
  settled elementSize (fold_left on_node l c) v.
Proof.
  revert c. induction l as [|x l IH]; intros c Hin Hout Hv Haa.
  - inversion Hin.
  - simpl. apply elem_of_cons in Hin as [->|Hin]; [|by apply (IH _ Hin)].
    destruct (nodes_mono l (on_node c x)) as [Hm Hl].
    apply (settled_mono (on_node c x)); [done|done|].
    unfold visit_node. rewrite Hout. by apply outputs_settled.
Qed.

End CollectorFacts.

Section CollectorClaims.

Variable elementSize : ScalarType -> Z.
Variable getAllOperatorsFor : string -> list Operator.
Variable isOptimizableContainerType : Node -> bool.

Local Abbreviation size_of := (computeStorageSize elementSize).
Local Abbreviation has_out := (hasOutVariant getAllOperatorsFor).
Local Abbreviation collected :=
  (collect elementSize getAllOperatorsFor isOptimizableContainerType).
Local Abbreviation managed_of graph always_alive :=
  (getManagedValues elementSize getAllOperatorsFor
     isOptimizableContainerType graph always_alive).2.

Lemma computeStorageSize_nonneg (v : Value) (s : Z) :
  size_of v = Some s -> 0 <= s.
Proof.
  unfold computeStorageSize. intros H. repeat case_match; try done.
  inversion H. unfold wrap_u64. apply Z.mod_pos_bound. lia.
Qed.

Lemma computeStorageSize_None (v : Value) :
  size_of v = None <->
  v_type v = OtherTy \/
  exists ttp, v_type v = TensorTy ttp /\
    (scalarType ttp = None \/ sizes_concrete ttp = None \/ numel ttp = None).
Proof.
  unfold computeStorageSize.
  destruct (v_type v) as [ttp|]; [|split; [by left|done]]. split.
  - intros Hnone. right. exists ttp. split; [done|].
    destruct (scalarType ttp); [|by left].
    destruct (sizes_concrete ttp); [|by right; left].
    destruct (numel ttp); [done|by right; right].
  - intros [?|(ttp' & [= <-] & [Hn|[Hn|Hn]])]; [done|..]; rewrite Hn;
      repeat case_match; done.
Qed.

Lemma managed_provenance graph always_alive e :
  e ∈ managed_of graph always_alive ->
  exists an, an ∈ nodes graph /\ has_out an.2 = true /\
             e.1 ∈ n_outputs an.2 /\
             plannable elementSize always_alive e.1 e.2.
Proof.
  unfold getManagedValues, collect. simpl.
  intros [Hin|H]%nodes_managed; [inversion Hin|done].
Qed.

(** C3. The byte size of a value cannot be computed exactly when its type
    is no tensor type or lacks the scalar type, the concrete sizes or the
    element count.  A candidate output whose size cannot be computed, or is
    0, is never in the managed map: it goes to the leaked set, the
    collector returns all the same, and the other candidates (not pinned,
    with a positive size) are still collected.  An entry of the managed map
    always carries the defined, strictly positive size of its value. *)
Theorem unsized_values_are_leaked (graph : Graph) (always_alive : gset N) :
  (forall v, size_of v = None <->
     v_type v = OtherTy \/
     exists ttp, v_type v = TensorTy ttp /\
       (scalarType ttp = None \/ sizes_concrete ttp = None \/
        numel ttp = None)) /\
  (forall v s, (v, s) ∈ managed_of graph always_alive ->
     size_of v = Some s /\ 0 < s) /\
  (forall v, size_of v = None \/ size_of v = Some 0 ->
     forall s, (v, s) ∉ managed_of graph always_alive) /\
  (forall a node v, (a, node) ∈ nodes graph -> has_out node = true ->
     v ∈ n_outputs node -> v_unique v ∉ always_alive ->
     size_of v = None \/ size_of v = Some 0 ->
     v ∈ leaked_values (collected graph always_alive)) /\
  (forall a node v s, (a, node) ∈ nodes graph -> has_out node = true ->
     v ∈ n_outputs node -> v_unique v ∉ always_alive ->
     size_of v = Some s -> 0 < s ->
     count_key v (managed_of graph always_alive) = true).
Proof.
  assert (Hsound : forall v s, (v, s) ∈ managed_of graph always_alive ->
                               size_of v = Some s /\ 0 < s).
  { intros v s (an & _ & _ & _ & _ & Hs & Hpos)%managed_provenance. done. }
  split; [exact computeStorageSize_None|].
  split; [exact Hsound|]. split; [|split].
  - intros v Hno s Hin. destruct (Hsound v s Hin) as [Hs Hpos].
    destruct Hno as [Hno|Hno]; rewrite Hno in Hs; [done|].
    inversion Hs. lia.
  - intros a node v Hn Hout Hv Haa Hno.
    pose proof (nodes_settled elementSize getAllOperatorsFor
                  isOptimizableContainerType always_alive (nodes graph)
                  (mkCollected [] [] []) (a, node) v Hn Hout Hv Haa) as Hset.
    unfold settled in Hset. fold (collected graph always_alive) in Hset.
    destruct Hno as [Hno|Hno]; rewrite Hno in Hset; exact Hset.
  - intros a node v s Hn Hout Hv Haa Hs Hpos.
    pose proof (nodes_settled elementSize getAllOperatorsFor
                  isOptimizableContainerType always_alive (nodes graph)
                  (mkCollected [] [] []) (a, node) v Hn Hout Hv Haa) as Hset.
    unfold settled in Hset. rewrite Hs in Hset.
    apply Z.ltb_lt in Hpos. rewrite Hpos in Hset. exact Hset.
Qed.

Lemma hasOutVariant_spec (node : Node) :
  has_out node = true <->
  exists variant arg,
    variant ∈ getAllOperatorsFor (n_kind node) /\
    arg ∈ arguments (schema variant) /\ arg_name arg = "out"%string.
Proof.
  unfold hasOutVariant. rewrite existsb_exists. split.
  - intros (variant & Hv & (arg & Ha & Hname)%existsb_exists).
    exists variant, arg. rewrite <- !list_elem_of_In in *.
    by apply String.eqb_eq in Hname.
  - intros (variant & arg & Hv & Ha & Hname). exists variant.
    rewrite <- list_elem_of_In. split; [done|].
    apply existsb_exists. exists arg. rewrite <- list_elem_of_In.
    split; [done|]. by apply String.eqb_eq.
Qed.

Lemma skip_nodes_without_out always_alive l c :
  fold_left (visit_node elementSize getAllOperatorsFor
               isOptimizableContainerType always_alive) l c =
  fold_left (visit_node elementSize getAllOperatorsFor
               isOptimizableContainerType always_alive)
    (filter (fun an => has_out an.2 = true) l) c.
Proof.
  revert c. induction l as [|x l IH]; intros c; [done|].
  rewrite filter_cons. case_decide as Hx; simpl; [apply IH|].
  rewrite <- IH. unfold visit_node at 2.
  by destruct (has_out x.2).
Qed.

(** C10. hasOutVariant holds of a node exactly when some operator
    registered for its kind has an argument named "out".  The out-node
    list is the graph's nodes that pass this test, in program order; every
    managed value is an output of such a node; and the nodes that fail the
    test contribute nothing: dropping them from the walk leaves the
    collector's result as it is.  The outputs of a node that passes the
    test are all considered: each one that is not pinned ends in the
    managed map when its size is known and positive, and in the leaked set
    when it is not. *)
Theorem outputs_considered_iff_out_variant
    (graph : Graph) (always_alive : gset N) :
  (forall node, has_out node = true <->
     exists variant arg,
       variant ∈ getAllOperatorsFor (n_kind node) /\
       arg ∈ arguments (schema variant) /\ arg_name arg = "out"%string) /\
  (getManagedValues elementSize getAllOperatorsFor
     isOptimizableContainerType graph always_alive).1 =
    filter (fun an => has_out an.2 = true) (nodes graph) /\
  (forall v s, (v, s) ∈ managed_of graph always_alive ->
     exists a node, (a, node) ∈ nodes graph /\ has_out node = true /\
                    v ∈ n_outputs node) /\
  collected graph always_alive =
    fold_left (visit_node elementSize getAllOperatorsFor
                 isOptimizableContainerType always_alive)
      (filter (fun an => has_out an.2 = true) (nodes graph))
      (mkCollected [] [] []) /\
  (forall a node v, (a, node) ∈ nodes graph -> has_out node = true ->
     v ∈ n_outputs node -> v_unique v ∉ always_alive ->
     (forall s, size_of v = Some s -> 0 < s ->
        count_key v (managed_of graph always_alive) = true) /\
     (size_of v = None \/ (exists s, size_of v = Some s /\ s <= 0) ->
        v ∈ leaked_values (collected graph always_alive))).
Proof.
  split; [exact hasOutVariant_spec|]. split; [|split; [|split]].
  - unfold getManagedValues, collect. simpl. by rewrite nodes_out_nodes.
  - intros v s ([a node] & Hn & Hout & Hv & _)%managed_provenance.
    by exists a, node.
  - unfold collect. apply skip_nodes_without_out.
  - intros a node v Hn Hout Hv Haa.
    pose proof (nodes_settled elementSize getAllOperatorsFor
                  isOptimizableContainerType always_alive (nodes graph)
                  (mkCollected [] [] []) (a, node) v Hn Hout Hv Haa) as Hset.
    unfold settled in Hset. fold (collected graph always_alive) in Hset.
    split.
    + intros s Hs Hpos%Z.ltb_lt. by rewrite Hs, Hpos in Hset.
    + intros [Hno|(s & Hs & Hle)]; [by rewrite Hno in Hset|].
      rewrite Hs in Hset. by destruct (Z.ltb_spec 0 s); [lia|].
Qed.

End CollectorClaims.

(** ** The inputs of the strategies *)

Section PlannerInputs.

Variable elementSize : ScalarType -> Z.
Variable getAllOperatorsFor : string -> list Operator.
Variable isOptimizableContainerType : Node -> bool.
Variable GetAlwaysAliveValues : Graph -> gset N.
Variable GetLiveness : Graph -> gset N -> ManagedRanges.
Variable greedyBySize : ManagedSizes -> ManagedRanges -> Allocations.
Variable linearScanHeuristic : ManagedSizes -> ManagedRanges -> Allocations.
Variable greedyByOperatorBreadth :
  ManagedSizes -> ManagedRanges -> list (N * Node) -> Allocations.

Local Abbreviation stuff_of :=
  (getManagedStuff elementSize getAllOperatorsFor isOptimizableContainerType
     GetAlwaysAliveValues GetLiveness).
Local Abbreviation select :=
  (selectAllocations greedyBySize linearScanHeuristic
     greedyByOperatorBreadth).

Lemma managed_not_pinned graph always_alive v :
  v_unique v ∈ always_alive ->
  count_key v
    (getManagedValues elementSize getAllOperatorsFor
       isOptimizableContainerType graph always_alive).2 = false.
Proof.
  intros Haa. apply not_true_iff_false.
  intros (e & He & Hu)%count_key_true.
  apply managed_provenance in He as (_ & _ & _ & _ & Hna & _).
  rewrite Hu in Hna. done.
Qed.

Lemma restrict_ranges_keys (sizes : ManagedSizes)
    (live_ranges acc : ManagedRanges) e :
  e ∈ fold_left
        (fun acc lvr =>
           if count_key lvr.1 sizes then map_insert lvr.1 lvr.2 acc else acc)
        live_ranges acc ->
  e ∈ acc \/ (e ∈ live_ranges /\ count_key e.1 sizes = true).
Proof.
  revert acc. induction live_ranges as [|[w lr] l IH]; intros acc; simpl;
    [by left|].
  intros [Hin|[Hin Hk]]%IH.
  - destruct (count_key w sizes) eqn:Hx; [|by left].
    apply elem_of_map_insert in Hin as [?|[-> _]]; [by left|right].
    split; [left|done].
  - right. split; [by right|done].
Qed.

(** C8. A value that the liveness analysis pins as always alive has no
    entry in the managed sizes and none in the managed ranges, the two maps
    handed to every strategy; so a plan whose keys are among the managed
    values gives it no Region. *)
Theorem always_alive_values_are_excluded (graph : Graph) (v : Value) :
  v_unique v ∈ GetAlwaysAliveValues graph ->
  count_key v (stuff_of graph).1.2 = false /\
  count_key v (stuff_of graph).2 = false /\
  (forall strat plan,
     select strat (stuff_of graph).1.1 (stuff_of graph).1.2
       (stuff_of graph).2 = Some plan ->
     (forall e, e ∈ plan -> count_key e.1 (stuff_of graph).1.2 = true) ->
     count_key v plan = false).
Proof.
  intros Haa. unfold getManagedStuff.
  pose proof (managed_not_pinned graph (GetAlwaysAliveValues graph) v Haa)
    as Hsizes.
  destruct (getManagedValues elementSize getAllOperatorsFor
              isOptimizableContainerType graph (GetAlwaysAliveValues graph))
    as [outs sizes] eqn:Hmv. simpl in Hsizes |- *.
  assert (Hkeys : forall {A} (m : list (Value * A)),
             (forall e, e ∈ m -> count_key e.1 sizes = true) ->
             count_key v m = false).
  { intros A m Hm. apply not_true_iff_false.
    intros (e & He & Hu)%count_key_true.
    apply Hm, count_key_true in He as (e' & He' & Hu').
    assert (count_key v sizes = true) as Hc; [|by rewrite Hc in Hsizes].
    apply count_key_true. exists e'. split; [done|congruence]. }
  split; [done|]. split.
  - apply Hkeys. intros e [Hin|[_ ?]]%restrict_ranges_keys; [|done].
    inversion Hin.
  - intros strat plan _ Hplan. by apply Hkeys.
Qed.

End PlannerInputs.

(** ** The plan applier *)

(** ** Lists of node addresses *)

Lemma number_from_app (base : N) (l1 l2 : Allocations) :
  number_from base (l1 ++ l2) =
  number_from base l1 ++ number_from (base + N.of_nat (length l1)) l2.
Proof.
  revert base. induction l1 as [|e l1 IH]; intros base; simpl.
  - by rewrite N.add_0_r.
  - rewrite IH. do 3 f_equal. lia.
Qed.

Lemma number_from_range (base : N) (l : Allocations) a e :
  (a, e) ∈ number_from base l ->
  (base <= a < base + N.of_nat (length l))%N /\ e ∈ l.
Proof.
  revert base. induction l as [|x l IH]; intros base; simpl.
  - intros H. inversion H.
  - intros [Heq|Hin]%elem_of_cons.
    + inversion Heq; subst. split; [lia|left].
    + apply IH in Hin as [? ?]. split; [lia|by right].
Qed.

Lemma number_from_fst_range (base : N) (l : Allocations) a :
  a ∈ (number_from base l).*1 ->
  (base <= a < base + N.of_nat (length l))%N.
Proof.
  intros ([a' e] & -> & Hin)%list_elem_of_fmap.
  by apply number_from_range in Hin as [? _].
Qed.

Lemma number_from_NoDup (base : N) (plan : Allocations) :
  NoDup (number_from base plan).*1.
Proof.
  revert base. induction plan as [|e plan IH]; intros base; [constructor|].
  cbn [number_from fmap list_fmap]. apply NoDup_cons. split; [|apply IH].
  intros Hin%number_from_fst_range. simpl in Hin. lia.
Qed.

Lemma bindings_of_app p (t1 t2 : list (N * (Value * Region))) :
  bindings_of p (t1 ++ t2) = bindings_of p t1 ++ bindings_of p t2.
Proof. unfold bindings_of. by rewrite filter_app, fmap_app. Qed.

Lemma bindings_of_elem p (t : list (N * (Value * Region))) a :
  a ∈ bindings_of p t -> a ∈ t.*1.
Proof.
  unfold bindings_of. intros (x & -> & Hx)%list_elem_of_fmap.
  apply list_elem_of_filter in Hx as [_ Hx]. apply list_elem_of_fmap. by exists x.
Qed.

Lemma bindings_of_one_eq p a (e : Value * Region) :
  v_node e.1 = p -> bindings_of p [(a, e)] = [a].
Proof.
  intros Hp. unfold bindings_of. rewrite filter_cons, filter_nil.
  by rewrite decide_True.
Qed.

Lemma bindings_of_one_ne p a (e : Value * Region) :
  v_node e.1 <> p -> bindings_of p [(a, e)] = [].
Proof.
  intros Hp. unfold bindings_of. rewrite filter_cons, filter_nil.
  by rewrite decide_False.
Qed.

Lemma with_bindings_nil (l : list N) : with_bindings [] l = l.
Proof.
  unfold with_bindings. induction l as [|p l IH]; [done|].
  cbn [flat_map]. by rewrite IH.
Qed.

Lemma insert_before_skip a p (pre l : list N) :
  p ∉ pre ->
  insert_before a p (pre ++ l) = app pre <$> insert_before a p l.
Proof.
  induction pre as [|x pre IH]; intros Hp; simpl.
  - by destruct (insert_before a p l).
  - apply not_elem_of_cons in Hp as [Hne Hp].
    destruct (N.eqb_spec x p) as [->|_]; [done|].
    rewrite IH by done. by destruct (insert_before a p l).
Qed.

Lemma with_bindings_snoc_other t a (e : Value * Region) (l : list N) :
  v_node e.1 ∉ l ->
  with_bindings (t ++ [(a, e)]) l = with_bindings t l.
Proof.
  unfold with_bindings. induction l as [|q l IH]; intros Hp; [done|].
  apply not_elem_of_cons in Hp as [Hne Hp]. cbn [flat_map].
  rewrite IH by done. rewrite bindings_of_app, bindings_of_one_ne by done.
  by rewrite app_nil_r.
Qed.

Lemma insert_before_with_bindings t a (e : Value * Region) (l : list N) :
  NoDup l -> v_node e.1 ∈ l -> (forall b, b ∈ t.*1 -> b ∉ l) ->
  insert_before a (v_node e.1) (with_bindings t l) =
  Some (with_bindings (t ++ [(a, e)]) l).
Proof.
  intros Hnd Hin Hfresh. induction l as [|q l IH]; [inversion Hin|].
  apply NoDup_cons in Hnd as [Hq Hnd].
  change (with_bindings t (q :: l))
    with ((bindings_of q t ++ [q]) ++ with_bindings t l).
  change (with_bindings (t ++ [(a, e)]) (q :: l))
    with ((bindings_of q (t ++ [(a, e)]) ++ [q])
            ++ with_bindings (t ++ [(a, e)]) l).
  rewrite <- !app_assoc. rewrite insert_before_skip.
  2: { intros Hb%bindings_of_elem. apply (Hfresh _ Hb), Hin. }
  simpl. destruct (N.eqb_spec q (v_node e.1)) as [->|Hne].
  - simpl. rewrite with_bindings_snoc_other by done.
    rewrite bindings_of_app, bindings_of_one_eq by done.
    by rewrite <- app_assoc.
  - apply elem_of_cons in Hin as [?|Hin]; [done|].
    rewrite IH; [|done|done|].
    2: { intros b Hb Hbl. apply (Hfresh b Hb). by right. }
    simpl. rewrite bindings_of_app, bindings_of_one_ne by done.
    by rewrite app_nil_r.
Qed.

(** ** One turn of the loop *)

Ltac run_pass :=
  cbv beta iota zeta delta
    [insertAllocTensorNode insertAllocStorageNode mbind Pass_bind bind create
     output deref addInput insertBefore i_ is_ setAttr update i gets front
     expectTensorType value TORCH_CHECK ret throw g_heap g_nodes g_next];
  cbn [fst snd].

Ltac heap_eq :=
  apply map_eq; intros ?k;
  repeat match goal with
  | |- context [<[?a := _]> _ !! ?k] =>
      destruct (decide (a = k)) as [->|?];
      [by rewrite ?lookup_insert_eq
      |rewrite ?(lookup_insert_ne _ a k) by done]
  end; try done.

Section Step.

Variables (storage : N) (total : Z) (v : Value) (r : Region).
Variables (sn pn : Node) (so : Value) (ttp : TensorType) (l' : list N).
Variable g : Graph.

Hypothesis Hfresh : forall a n, g_heap g !! a = Some n -> (a < g_next g)%N.
Hypothesis Hstorage : g_heap g !! storage = Some sn.
Hypothesis Hso : n_outputs sn = [so].
Hypothesis Hproducer : g_heap g !! v_node v = Some pn.
Hypothesis Hne : v_node v <> storage.
Hypothesis Hlinked :
  insert_before (g_next g) (v_node v) (g_nodes g) = Some l'.
Hypothesis Htype : v_type v = TensorTy ttp.

Lemma turn_finishes device st :
  n_attrs sn !! "device" = Some (AttrInt device) ->
  scalarType ttp = Some st ->
  region_end r <= total ->
  insertAllocTensorNode storage total (v, r) g =
  (mkGraph
     (<[g_next g := mkNode AllocateTensor [so] [out_value (g_next g)]
                      (binding_attrs r ttp device st)]>
        (<[v_node v := rewired pn [g_next g]]> (g_heap g)))
     l' (g_next g + 1)%N,
   Return tt).
Proof using All.
  destruct g as [h l nx]. simpl in *. intros Hdev Hst Hle.
  assert (v_node v <> nx) by (apply Hfresh in Hproducer; lia).
  assert (storage <> nx) by (apply Hfresh in Hstorage; lia).
  apply Z.leb_le in Hle. run_pass.
  repeat (first [ rewrite lookup_insert_eq | rewrite lookup_insert_ne by done
                | rewrite Hproducer | rewrite Hstorage | rewrite Hso
                | rewrite Hdev | rewrite Hlinked | rewrite Htype
                | rewrite Hst | rewrite Hle ];
          cbn [n_kind n_inputs n_outputs n_attrs]).
  do 2 f_equal. unfold rewired, binding_attrs. simpl. heap_eq.
Qed.

Lemma turn_aborts :
  total < region_end r ->
  insertAllocTensorNode storage total (v, r) g =
  (mkGraph
     (<[g_next g := mkNode AllocateTensor [so] [out_value (g_next g)] ∅]>
        (<[v_node v := rewired pn [g_next g]]> (g_heap g)))
     l' (g_next g + 1)%N,
   Throw ExceedsPlannedMemory).
Proof using All.
  destruct g as [h l nx]. simpl in *. intros Hlt.
  assert (v_node v <> nx) by (apply Hfresh in Hproducer; lia).
  assert (storage <> nx) by (apply Hfresh in Hstorage; lia).
  apply Z.leb_gt in Hlt. run_pass.
  repeat (first [ rewrite lookup_insert_eq | rewrite lookup_insert_ne by done
                | rewrite Hproducer | rewrite Hstorage | rewrite Hso
                | rewrite Hlinked | rewrite Htype | rewrite Hlt ];
          cbn [n_kind n_inputs n_outputs n_attrs]).
  do 2 f_equal. unfold rewired. simpl. heap_eq.
Qed.

End Step.

(** ** The whole loop *)

Lemma for_each_app {A} (body : A -> Pass unit) (l1 l2 : list A) (g : Graph) :
  for_each body (l1 ++ l2) g =
  match for_each body l1 g with
  | (g1, Return _) => for_each body l2 g1
  | (g1, Throw e) => (g1, Throw e)
  end.
Proof.
  revert g. induction l1 as [|x l1 IH]; intros g; [done|].
  simpl. unfold mbind, Pass_bind, bind.
  destruct (body x g) as [g1 [[]|e]]; [apply IH|done].
Qed.

Lemma rewired_nil (pn : Node) : rewired pn [] = pn.
Proof. destruct pn. unfold rewired. simpl. by rewrite app_nil_r. Qed.

Lemma rewired_rewired (pn : Node) (l1 l2 : list N) :
  rewired (rewired pn l1) l2 = rewired pn (l1 ++ l2).
Proof. unfold rewired. simpl. by rewrite map_app, app_assoc. Qed.

Section Loop.

Variables (storage : N) (total : Z) (so : Value) (device : Z) (sn : Node).
Variable g : Graph.

Hypothesis Hnodup : NoDup (g_nodes g).
Hypothesis Hlinked : forall a, a ∈ g_nodes g -> is_Some (g_heap g !! a).
Hypothesis Hfresh : forall a n, g_heap g !! a = Some n -> (a < g_next g)%N.
Hypothesis Hstorage : g_heap g !! storage = Some sn.
Hypothesis Hso : n_outputs sn = [so].
Hypothesis Hdev : n_attrs sn !! "device" = Some (AttrInt device).

Lemma bound_nil : bound so device [] [] g g.
Proof using Type.
  unfold bound. simpl. repeat split.
  - lia.
  - by rewrite with_bindings_nil.
  - intros a v r ttp st H. inversion H.
  - intros a e H. inversion H.
  - intros p pn Hp. by rewrite rewired_nil.
  - intros a Ha. by left.
Qed.

(** The state in which the loop meets its next entry, and the state a
    turn leaves behind, whatever it stores in the new node. *)
Lemma bound_grow (finished : Allocations) (e : Value * Region)
    (g1 : Graph) :
  bound so device finished [] g g1 -> bindable g storage e ->
  let tagged := number_from (g_next g) finished in
  let tagged' := number_from (g_next g) (finished ++ [e]) in
  exists pn,
    g_heap g !! v_node e.1 = Some pn /\
    (forall a n, g_heap g1 !! a = Some n -> (a < g_next g1)%N) /\
    g_heap g1 !! storage = Some (rewired sn (bindings_of storage tagged)) /\
    g_heap g1 !! v_node e.1 =
      Some (rewired pn (bindings_of (v_node e.1) tagged)) /\
    insert_before (g_next g1) (v_node e.1) (g_nodes g1) =
      Some (with_bindings tagged' (g_nodes g)) /\
    forall B : Node,
      let h2 := <[g_next g1 := B]>
                  (<[v_node e.1 :=
                       rewired (rewired pn (bindings_of (v_node e.1) tagged))
                         [g_next g1]]> (g_heap g1)) in
      (forall a, a ∈ tagged.*1 -> h2 !! a = g_heap g1 !! a) /\
      h2 !! g_next g1 = Some B /\
      (forall p pn', g_heap g !! p = Some pn' ->
         h2 !! p = Some (rewired pn' (bindings_of p tagged'))) /\
      (forall a, is_Some (h2 !! a) ->
         is_Some (g_heap g !! a) \/ a ∈ tagged'.*1).
Proof using Hnodup Hlinked Hfresh Hstorage.
  intros (Hnext & Hnodes & Hfin & _ & Hrew & Hdom) (Hin & Hne & _).
  rewrite app_nil_r in Hnext, Hnodes, Hrew, Hdom. simpl.
  destruct (Hlinked _ Hin) as [pn Hpn]. exists pn.
  assert (Hlow : forall p n, g_heap g !! p = Some n -> (p < g_next g1)%N).
  { intros p n Hp%Hfresh. lia. }
  assert (Hids : forall a, a ∈ (number_from (g_next g) finished).*1 ->
                           (g_next g <= a < g_next g1)%N).
  { intros a Ha%number_from_fst_range. lia. }
  assert (Htag : number_from (g_next g) (finished ++ [e]) =
                 number_from (g_next g) finished ++ [(g_next g1, e)]).
  { rewrite number_from_app, Hnext. done. }
  split; [done|]. split; [|split; [by apply Hrew|split; [by apply Hrew|]]].
  { intros a n Ha. destruct (Hdom a) as [[n' Hn']|Ha']; [by eexists| |].
    - by apply Hlow in Hn'.
    - apply Hids in Ha'. lia. }
  split.
  { rewrite Hnodes, Htag. apply insert_before_with_bindings; [done|done|].
    intros b Hb%Hids Hbl. destruct (Hlinked _ Hbl) as [n Hn%Hfresh]. lia. }
  intros B. pose proof (Hlow _ _ Hpn) as Hp1.
  pose proof (Hfresh _ _ Hpn) as Hp0. repeat split.
  - intros a Ha%Hids. rewrite !lookup_insert_ne by lia. done.
  - by rewrite lookup_insert_eq.
  - intros p pn' Hp. pose proof (Hlow _ _ Hp).
    rewrite lookup_insert_ne by lia. rewrite Htag, bindings_of_app.
    destruct (decide (v_node e.1 = p)) as [<-|Hpe].
    + rewrite lookup_insert_eq, rewired_rewired.
      rewrite bindings_of_one_eq by done. congruence.
    + rewrite lookup_insert_ne by done.
      rewrite bindings_of_one_ne, app_nil_r by done. by apply Hrew.
  - intros a Ha. rewrite Htag, fmap_app, elem_of_app. simpl.
    destruct (decide (g_next g1 = a)) as [<-|?]; [right; right; left|].
    rewrite lookup_insert_ne in Ha by done.
    destruct (decide (v_node e.1 = a)) as [<-|?]; [left; by eexists|].
    rewrite lookup_insert_ne in Ha by done.
    destruct (Hdom a Ha); [by left|right; by left].
Qed.

Lemma loop_finishes (plan : Allocations) :
  (forall e, e ∈ plan -> passes g storage total e) ->
  exists g',
    for_each (insertAllocTensorNode storage total) plan g = (g', Return tt)
    /\ bound so device plan [] g g'.
Proof using All.
  induction plan as [|e plan IH] using rev_ind; intros Hall.
  - exists g. split; [done|apply bound_nil].
  - destruct IH as (g1 & Hrun & Hb).
    { intros x Hx. apply Hall, elem_of_app. by left. }
    destruct (Hall e) as (Hbind & (ttp & st & Hty & Hst) & Hle).
    { apply elem_of_app. right. left. }
    destruct (bound_grow plan e g1 Hb Hbind)
      as (pn & Hpn & Hfresh1 & Hs1 & Hp1 & Hins & Hgrow).
    rewrite for_each_app, Hrun. simpl.
    unfold mbind, Pass_bind, bind.
    destruct e as [v r]. simpl in *.
    rewrite (turn_finishes storage total v r _ _ so ttp _ g1 Hfresh1 Hs1 Hso
               Hp1 (proj1 (proj2 Hbind)) Hins Hty device st Hdev Hst Hle).
    eexists. split; [done|].
    specialize (Hgrow (mkNode AllocateTensor [so] [out_value (g_next g1)]
                         (binding_attrs r ttp device st))).
    destruct Hgrow as (Hold & Hnew & Hrew & Hdom).
    destruct Hb as (Hnext & Hnodes & Hfin & _).
    rewrite app_nil_r in Hnext.
    unfold bound. rewrite !app_nil_r. simpl. repeat split.
    + rewrite length_app. simpl. lia.
    + intros a v' r' ttp' st' Hin Hty' Hst'.
      rewrite number_from_app in Hin.
      apply elem_of_app in Hin as [Hin|Hin].
      * rewrite Hold; [by eapply Hfin|].
        apply list_elem_of_fmap. by exists (a, (v', r')).
      * simpl in Hin. apply list_elem_of_singleton in Hin.
        rewrite <- Hnext in Hin. inversion Hin; subst.
        rewrite Hnew. congruence.
    + intros a e H. inversion H.
    + done.
    + done.
Qed.

Lemma loop_aborts (finished rest : Allocations) (e : Value * Region) :
  (forall x, x ∈ finished -> passes g storage total x) ->
  bindable g storage e -> total < region_end e.2 ->
  exists g',
    for_each (insertAllocTensorNode storage total) (finished ++ e :: rest) g
      = (g', Throw ExceedsPlannedMemory)
    /\ bound so device finished [e] g g'.
Proof using All.
  intros Hall Hbind Hlt.
  destruct (loop_finishes finished Hall) as (g1 & Hrun & Hb).
  destruct (bound_grow finished e g1 Hb Hbind)
    as (pn & Hpn & Hfresh1 & Hs1 & Hp1 & Hins & Hgrow).
  destruct Hbind as (Hin & Hne & ttp & Hty).
  rewrite for_each_app, Hrun. simpl. unfold mbind, Pass_bind, bind.
  destruct e as [v r]. simpl in *.
  rewrite (turn_aborts storage total v r _ _ so ttp _ g1 Hfresh1 Hs1 Hso
             Hp1 Hne Hins Hty Hlt).
  eexists. split; [done|].
  specialize (Hgrow (mkNode AllocateTensor [so] [out_value (g_next g1)] ∅)).
  destruct Hgrow as (Hold & Hnew & Hrew & Hdom).
  destruct Hb as (Hnext & Hnodes & Hfin & _).
  rewrite app_nil_r in Hnext.
  unfold bound. simpl. repeat split.
  - rewrite length_app. simpl. lia.
  - intros a v' r' ttp' st' Hin' Hty' Hst'.
    rewrite Hold; [by eapply Hfin|].
    apply list_elem_of_fmap. by exists (a, (v', r')).
  - intros a e Hin'. apply list_elem_of_singleton in Hin'.
    rewrite <- Hnext in Hin'. inversion Hin'; subst. done.
  - done.
  - done.
Qed.

End Loop.

(** ** Claims on the plan applier *)

Lemma wf_graph_linked g a :
  wf_graph g -> a ∈ g_nodes g -> is_Some (g_heap g !! a).
Proof. intros (_ & Hl & _) Ha. by eapply (proj1 (Forall_forall _ _) Hl). Qed.

Lemma wf_graph_fresh g a n :
  wf_graph g -> g_heap g !! a = Some n -> (a < g_next g)%N.
Proof. intros (_ & _ & Hm) Ha. by destruct (Hm a n Ha). Qed.

Lemma wf_graph_owner g a n v :
  wf_graph g -> g_heap g !! a = Some n -> v ∈ n_outputs n -> v_node v = a.
Proof.
  intros (_ & _ & Hm) Ha Hv. destruct (Hm a n Ha) as [_ Ho].
  by destruct (proj1 (Forall_forall _ _) Ho v Hv).
Qed.

Lemma number_from_snd (base : N) (plan : Allocations) :
  (number_from base plan).*2 = plan.
Proof.
  revert base. induction plan as [|e l IH]; intros base; simpl; [done|].
  by rewrite IH.
Qed.

Lemma with_bindings_app t (l1 l2 : list N) :
  with_bindings t (l1 ++ l2) = with_bindings t l1 ++ with_bindings t l2.
Proof. unfold with_bindings. apply flat_map_app. Qed.

Lemma bindings_of_tagged t a (e : Value * Region) :
  (a, e) ∈ t -> a ∈ bindings_of (v_node e.1) t.
Proof.
  intros Hin. unfold bindings_of. apply list_elem_of_fmap. exists (a, e).
  split; [done|]. by apply list_elem_of_filter.
Qed.

Lemma bindings_of_cons p (x : N * (Value * Region)) t :
  bindings_of p (x :: t) =
  (if decide (v_node x.2.1 = p) then [x.1] else []) ++ bindings_of p t.
Proof. unfold bindings_of. rewrite filter_cons. by case_decide. Qed.

(** The binding nodes of a producer come in the order of their creation. *)
Lemma bindings_of_sorted p (base : N) (plan : Allocations) :
  StronglySorted N.lt (bindings_of p (number_from base plan)).
Proof.
  revert base. induction plan as [|e plan IH]; intros base; [constructor|].
  cbn [number_from]. rewrite bindings_of_cons. case_decide; simpl; [|apply IH].
  constructor; [apply IH|]. apply Forall_forall.
  intros b Hb%bindings_of_elem%number_from_fst_range. lia.
Qed.

(** A binding node stands before the node that produces its value, and
    only binding nodes made later for that same producer stand between the
    two. *)
Lemma binding_before_producer (base : N) (plan : Allocations) (l : list N)
    a (e : Value * Region) :
  (a, e) ∈ number_from base plan -> v_node e.1 ∈ l ->
  exists front between back,
    with_bindings (number_from base plan) l =
      front ++ a :: between ++ v_node e.1 :: back /\
    (forall b, b ∈ between ->
       b ∈ bindings_of (v_node e.1) (number_from base plan) /\ (a < b)%N).
Proof.
  intros Ht (l1 & l2 & ->)%list_elem_of_split.
  pose proof (bindings_of_sorted (v_node e.1) base plan) as Hsorted.
  apply bindings_of_tagged, list_elem_of_split in Ht as (b1 & b2 & Hb).
  exists (with_bindings (number_from base plan) l1 ++ b1), b2,
         (with_bindings (number_from base plan) l2).
  split.
  - rewrite with_bindings_app.
    change (with_bindings ?t (v_node e.1 :: l2))
      with ((bindings_of (v_node e.1) t ++ [v_node e.1]) ++ with_bindings t l2).
    rewrite Hb, <- !app_assoc. done.
  - intros b Hb2. split; [rewrite Hb, elem_of_app; right; by right|].
    rewrite Hb in Hsorted. apply StronglySorted_app_1_r in Hsorted.
    apply StronglySorted_cons in Hsorted as [Hlt _].
    by apply (proj1 (Forall_forall _ _) Hlt).
Qed.

Section ApplierClaims.

Variables (storage : N) (sn : Node) (so : Value) (total device : Z).
Variable g : Graph.

Hypothesis Hwf : wf_graph g.
Hypothesis Hstorage : g_heap g !! storage = Some sn.
Hypothesis Hso : n_outputs sn = [so].
Hypothesis Htotal : n_attrs sn !! "total_size" = Some (AttrInt total).
Hypothesis Hdev : n_attrs sn !! "device" = Some (AttrInt device).

Lemma insertAllocTensorNodes_unfold (plan : Allocations) :
  insertAllocTensorNodes storage plan g =
  for_each (insertAllocTensorNode storage (wrap_u64 total)) plan g.
Proof using Hstorage Htotal.
  unfold insertAllocTensorNodes, i, deref, mbind, Pass_bind, bind, ret.
  by rewrite Hstorage, Htotal.
Qed.

Lemma tensor_nodes_bound (plan : Allocations) :
  (forall e, e ∈ plan -> passes g storage (wrap_u64 total) e) ->
  exists g',
    insertAllocTensorNodes storage plan g = (g', Return tt) /\
    bound so device plan [] g g'.
Proof using All.
  intros Hall. destruct Hwf as (Hnd & Hl & Hm).
  rewrite insertAllocTensorNodes_unfold.
  exact (loop_finishes storage (wrap_u64 total) so device sn g Hnd
           (fun a => wf_graph_linked g a Hwf)
           (fun a n => wf_graph_fresh g a n Hwf)
           Hstorage Hso Hdev plan Hall).
Qed.

Lemma tensor_nodes_abort (finished rest : Allocations)
    (e : Value * Region) :
  (forall x, x ∈ finished -> passes g storage (wrap_u64 total) x) ->
  bindable g storage e -> wrap_u64 total < region_end e.2 ->
  exists g',
    insertAllocTensorNodes storage (finished ++ e :: rest) g =
      (g', Throw ExceedsPlannedMemory) /\
    bound so device finished [e] g g'.
Proof using All.
  intros Hall Hbind Hlt. destruct Hwf as (Hnd & Hl & Hm).
  rewrite insertAllocTensorNodes_unfold.
  exact (loop_aborts storage (wrap_u64 total) so device sn g Hnd
           (fun a => wf_graph_linked g a Hwf)
           (fun a n => wf_graph_fresh g a n Hwf)
           Hstorage Hso Hdev finished rest e Hall Hbind Hlt).
Qed.

(** C6, as the code has it.  When every entry of the plan passes (its
    value has a tensor type with an element type, is produced by a linked
    node other than the storage node, and its Region ends within the
    arena), the loop returns and creates one prim::AllocateTensor node per
    entry, at a fresh address.  That node carries the Region's size and
    offset, the storage node's device and the value's element type, and
    takes the storage node's output as input.  The extents it carries are
    the extents the value's type reports when these are present, not
    empty and do not start with 0, and the single extent 0 otherwise, as
    for a value of rank 0; its strides are the reported strides under the
    same condition and otherwise the row-major strides of the extents it
    carries.
    It is linked before the node that produces the value: it is inserted
    immediately before it, so only binding nodes that the loop made later
    (at higher addresses) for the same producer stand between the two.
    Every producer gets the outputs of its binding nodes appended to its
    inputs, and the loop creates no other node. *)
Theorem every_planned_value_gets_one_binding (plan : Allocations) :
  (forall e, e ∈ plan -> passes g storage (wrap_u64 total) e) ->
  let tagged := number_from (g_next g) plan in
  exists g',
    insertAllocTensorNodes storage plan g = (g', Return tt) /\
    tagged.*2 = plan /\ NoDup tagged.*1 /\
    g_nodes g' = with_bindings tagged (g_nodes g) /\
    (forall a v r, (a, (v, r)) ∈ tagged ->
       exists ttp st extents strides front between back,
         v_type v = TensorTy ttp /\ scalarType ttp = Some st /\
         g_heap g !! a = None /\
         g_heap g' !! a =
           Some (mkNode AllocateTensor [so] [out_value a]
                   (<["dtype" := AttrInt (wrap_i8 st)]>
                   (<["device" := AttrInt (wrap_i8 device)]>
                   (<["stride" := AttrInts strides]>
                   (<["sizes" := AttrInts extents]>
                   (<["offset" := AttrInt (wrap_i64 (r_offset r))]>
                   (<["size" := AttrInt (wrap_i64 (r_size r))]> ∅))))))) /\
         (forall x rest, sizes_concrete ttp = Some (x :: rest) -> x <> 0 ->
            extents = x :: rest) /\
         ((sizes_concrete ttp = None \/ sizes_concrete ttp = Some [] \/
           exists rest, sizes_concrete ttp = Some (0 :: rest)) ->
          extents = [0]) /\
         (forall x rest, strides_concrete ttp = Some (x :: rest) -> x <> 0 ->
            strides = x :: rest) /\
         ((strides_concrete ttp = None \/ strides_concrete ttp = Some [] \/
           exists rest, strides_concrete ttp = Some (0 :: rest)) ->
          strides = defaultStrides extents) /\
         g_nodes g' = front ++ a :: between ++ v_node v :: back /\
         (forall b, b ∈ between ->
            b ∈ bindings_of (v_node v) tagged /\ (a < b)%N)) /\
    (forall p pn, g_heap g !! p = Some pn ->
       g_heap g' !! p = Some (rewired pn (bindings_of p tagged))) /\
    (forall a, is_Some (g_heap g' !! a) ->
       is_Some (g_heap g !! a) \/ a ∈ tagged.*1).
Proof using All.
  intros Hall tagged.
  destruct (tensor_nodes_bound plan Hall)
    as (g' & Hrun & Hnext & Hnodes & Hfin & _ & Hrew & Hdom).
  rewrite app_nil_r in Hnodes, Hrew, Hdom.
  exists g'. split; [done|].
  split; [apply number_from_snd|]. split; [apply number_from_NoDup|].
  split; [done|]. split; [|done].
  - intros a v r Hin.
    destruct (number_from_range _ _ _ _ Hin) as [Hrange He].
    destruct (Hall _ He) as ((Hp & _ & _) & (ttp & st & Hty & Hst) & _).
    destruct (binding_before_producer (g_next g) plan (g_nodes g) a (v, r)
                Hin Hp)
      as (front & between & back & Hsplit & Hbetween).
    destruct (getSizesStrides_extents ttp) as [Hreported Hzero].
    exists ttp, st, (getSizesStrides ttp).1, (getSizesStrides ttp).2,
      front, between, back. simpl in *.
    split; [done|]. split; [done|]. split; [|split].
    + destruct (g_heap g !! a) as [n|] eqn:Hn; [|done].
      apply (wf_graph_fresh g a n Hwf) in Hn. lia.
    + by eapply Hfin.
    + split; [exact Hreported|]. split; [exact Hzero|].
      split; [apply getSizesStrides_reported_strides|].
      split; [apply getSizesStrides_default_strides|].
      split; [by rewrite Hnodes|done].
Qed.

(** C1, as the code has it.  The TORCH_CHECK sits inside the loop, after
    the node of the entry at hand is created, linked and wired.  When the
    entries before [e] pass and the Region of [e] ends beyond the arena,
    insertAllocTensorNodes throws at [e], and the graph it leaves behind
    is rewritten up to that point: the entries before [e] have their
    finished binding nodes, the binding node of [e] is linked before its
    producer with the storage output as input and no attribute, and the
    producers of all these entries, that of [e] included, are rewired.
    The entries after [e] are not touched. *)
Theorem oversized_region_aborts_midway
    (finished rest : Allocations) (e : Value * Region) :
  (forall x, x ∈ finished -> passes g storage (wrap_u64 total) x) ->
  bindable g storage e -> wrap_u64 total < region_end e.2 ->
  let tagged := number_from (g_next g) (finished ++ [e]) in
  let a := (g_next g + N.of_nat (length finished))%N in
  exists g',
    insertAllocTensorNodes storage (finished ++ e :: rest) g =
      (g', Throw ExceedsPlannedMemory) /\
    g_nodes g' = with_bindings tagged (g_nodes g) /\
    g_heap g' !! a = Some (mkNode AllocateTensor [so] [out_value a] ∅) /\
    (forall p pn, g_heap g !! p = Some pn ->
       g_heap g' !! p = Some (rewired pn (bindings_of p tagged))) /\
    (forall a' v r ttp st,
       (a', (v, r)) ∈ number_from (g_next g) finished ->
       v_type v = TensorTy ttp -> scalarType ttp = Some st ->
       g_heap g' !! a' =
         Some (mkNode AllocateTensor [so] [out_value a']
                 (binding_attrs r ttp device st))) /\
    (forall a', is_Some (g_heap g' !! a') ->
       is_Some (g_heap g !! a') \/ a' ∈ tagged.*1).
Proof using All.
  intros Hall Hbind Hlt tagged a.
  destruct (tensor_nodes_abort finished rest e Hall Hbind Hlt)
    as (g' & Hrun & Hnext & Hnodes & Hfin & Hstarted & Hrew & Hdom).
  exists g'. split; [done|]. split; [done|]. split; [|done].
  apply (Hstarted a e). simpl. left.
Qed.

End ApplierClaims.

(** ** Claims on planMemory *)

Lemma elem_of_nodes (g : Graph) (a : N) (n : Node) :
  (a, n) ∈ nodes g <-> a ∈ g_nodes g /\ g_heap g !! a = Some n.
Proof.
  unfold nodes. rewrite list_elem_of_omap. split.
  - intros (a' & Ha & Heq). destruct (g_heap g !! a') as [n'|] eqn:Hn; [|done].
    simpl in Heq. by inversion Heq; subst.
  - intros [Ha Hn]. exists a. by rewrite Hn.
Qed.

Lemma wrap_u64_i64 (z : Z) : wrap_u64 (wrap_i64 z) = wrap_u64 z.
Proof.
  unfold wrap_u64, wrap_i64.
  rewrite Zminus_mod_idemp_l.
  replace (z + 2 ^ 63 - 2 ^ 63) with z by lia. done.
Qed.

Lemma getTotalAllocationSize_range (plan : Allocations) :
  0 <= getTotalAllocationSize plan < 2 ^ 64.
Proof.
  unfold getTotalAllocationSize.
  destruct (running_max_attained plan 0) as [->|(e & _ & ->)]; [lia|].
  unfold region_end, wrap_u64. apply Z.mod_pos_bound. lia.
Qed.

Lemma bindings_of_none p (t : list (N * (Value * Region))) :
  (forall a e, (a, e) ∈ t -> v_node e.1 <> p) -> bindings_of p t = [].
Proof.
  intros Hno. unfold bindings_of. induction t as [|[a e] t IH]; [done|].
  rewrite filter_cons. rewrite decide_False.
  - apply IH. intros a' e' H. apply (Hno a' e'). by right.
  - apply (Hno a e). left.
Qed.

Lemma elem_of_with_bindings t (l : list N) a :
  a ∈ with_bindings t l -> a ∈ l \/ a ∈ t.*1.
Proof.
  unfold with_bindings. induction l as [|p l IH]; [intros H; inversion H|].
  cbn [flat_map]. rewrite !elem_of_app, list_elem_of_singleton.
  intros [[Hb| ->]|Hr].
  - right. by eapply bindings_of_elem.
  - left. left.
  - destruct (IH Hr); [left; by right|by right].
Qed.

Section StorageNode.

Variable pickDeviceType : list (N * Node) -> option DeviceType.

Lemma nodes_fresh_insert (g : Graph) (n : Node) :
  g_next g ∉ g_nodes g ->
  nodes (mkGraph (<[g_next g := n]> (g_heap g)) (g_nodes g) (g_next g + 1)%N)
  = nodes g.
Proof.
  unfold nodes. simpl. intros Hfresh.
  induction (g_nodes g) as [|a l IH]; [done|].
  apply not_elem_of_cons in Hfresh as [Hne Hfresh].
  cbn [omap list_omap]. rewrite lookup_insert_ne by done.
  by rewrite <- IH.
Qed.

Lemma storage_node_inserted (g : Graph) (total_size : Z) :
  g_next g ∉ g_nodes g ->
  insertAllocStorageNode pickDeviceType total_size g =
  (mkGraph
     (<[g_next g := mkNode AllocateStorage [] [out_value (g_next g)]
                      (storage_attrs total_size (pickDeviceType (nodes g)))]>
        (g_heap g))
     (g_next g :: g_nodes g) (g_next g + 1)%N,
   Return (g_next g)).
Proof.
  intros Hfresh. pose proof (nodes_fresh_insert g) as Hnodes.
  destruct g as [h l nx]. simpl in *. run_pass.
  rewrite !lookup_insert_eq. cbn [n_kind n_inputs n_outputs n_attrs].
  rewrite insert_insert_eq, (Hnodes _ Hfresh).
  destruct (pickDeviceType (nodes (mkGraph h l nx))) as [d|];
    rewrite !lookup_insert_eq; cbn [n_kind n_inputs n_outputs n_attrs];
    rewrite !insert_insert_eq;
    (destruct l as [|t l]; simpl; [|rewrite N.eqb_refl]); done.
Qed.

End StorageNode.

(** ** planMemory *)

Section PlannerClaims.

Variable elementSize : ScalarType -> Z.
Variable getAllOperatorsFor : string -> list Operator.
Variable isOptimizableContainerType : Node -> bool.
Variable pickDeviceType : list (N * Node) -> option DeviceType.
Variable GetAlwaysAliveValues : Graph -> gset N.
Variable GetLiveness : Graph -> gset N -> ManagedRanges.
Variable greedyBySize : ManagedSizes -> ManagedRanges -> Allocations.
Variable linearScanHeuristic : ManagedSizes -> ManagedRanges -> Allocations.
Variable greedyByOperatorBreadth :
  ManagedSizes -> ManagedRanges -> list (N * Node) -> Allocations.

Local Abbreviation stuff_of :=
  (getManagedStuff elementSize getAllOperatorsFor isOptimizableContainerType
     GetAlwaysAliveValues GetLiveness).
Local Abbreviation select :=
  (selectAllocations greedyBySize linearScanHeuristic
     greedyByOperatorBreadth).
Local Abbreviation plan_memory :=
  (planMemory elementSize getAllOperatorsFor isOptimizableContainerType
     pickDeviceType GetAlwaysAliveValues GetLiveness greedyBySize
     linearScanHeuristic greedyByOperatorBreadth).

Lemma planMemory_unfold (strat : Strategy) (graph : Graph) :
  plan_memory strat graph =
  match select strat (stuff_of graph).1.1 (stuff_of graph).1.2
          (stuff_of graph).2 with
  | None => (graph, Return tt)
  | Some allocations =>
      (storage_node ← insertAllocStorageNode pickDeviceType
                        (getTotalAllocationSize allocations);
       insertAllocTensorNodes storage_node allocations) graph
  end.
Proof.
  unfold planMemory, gets. unfold mbind at 1, Pass_bind at 1, bind at 1.
  destruct (stuff_of graph) as [[outs sizes] ranges]. simpl.
  by destruct (select strat outs sizes ranges).
Qed.

(** C4. With the NAIVE strategy, or with a selector that names no
    strategy, planMemory returns without an error and hands the graph back
    as it got it: no node is created, linked or changed. *)
Theorem naive_and_unknown_strategies_rewrite_nothing (graph : Graph) :
  plan_memory NAIVE graph = (graph, Return tt) /\
  (forall code, plan_memory (OTHER code) graph = (graph, Return tt)).
Proof.
  split; [|intros code]; by rewrite planMemory_unfold.
Qed.

(** The plans of the strategies only hold managed values. *)
Hypothesis greedyBySize_managed :
  forall sizes ranges, picks_managed sizes (greedyBySize sizes ranges).
Hypothesis linearScanHeuristic_managed :
  forall sizes ranges, picks_managed sizes (linearScanHeuristic sizes ranges).
Hypothesis greedyByOperatorBreadth_managed :
  forall sizes ranges outs,
    picks_managed sizes (greedyByOperatorBreadth sizes ranges outs).

Lemma selected_plan_managed strat outs sizes ranges plan :
  select strat outs sizes ranges = Some plan -> picks_managed sizes plan.
Proof using All.
  destruct strat; simpl; intros H; inversion H; subst; auto.
Qed.

Lemma managed_value_typed (v : Value) (s : Z) :
  computeStorageSize elementSize v = Some s -> typed (v, mkRegion 0 0).
Proof.
  unfold computeStorageSize, typed. simpl. intros H.
  destruct (v_type v) as [ttp|]; [|done].
  destruct (scalarType ttp) as [st|] eqn:Hst; [|done]. by exists ttp, st.
Qed.

Lemma planned_value_passes (graph : Graph) (plan : Allocations) e :
  wf_graph graph ->
  picks_managed (stuff_of graph).1.2 plan -> e ∈ plan ->
  v_node e.1 ∈ g_nodes graph /\ typed e.
Proof using Type.
  intros Hwf Hplan He. destruct (Hplan e He) as [s Hs].
  unfold getManagedStuff in Hs.
  destruct (getManagedValues elementSize getAllOperatorsFor
              isOptimizableContainerType graph (GetAlwaysAliveValues graph))
    as [outs sizes] eqn:Hmv. simpl in Hs.
  assert (Hin : (e.1, s) ∈
            (getManagedValues elementSize getAllOperatorsFor
               isOptimizableContainerType graph
               (GetAlwaysAliveValues graph)).2) by by rewrite Hmv.
  apply managed_provenance in Hin
    as ([a n] & [Ha Hn]%elem_of_nodes & _ & Hout & _ & Hsize & _).
  simpl in *. split.
  - by rewrite (wf_graph_owner graph a n e.1 Hwf Hn Hout).
  - exact (managed_value_typed e.1 s Hsize).
Qed.

Lemma wf_graph_with_storage (graph : Graph) (sn : Node) :
  wf_graph graph -> n_outputs sn = [out_value (g_next graph)] ->
  wf_graph (mkGraph (<[g_next graph := sn]> (g_heap graph))
              (g_next graph :: g_nodes graph) (g_next graph + 1)%N).
Proof using Type.
  intros Hwf Hout. pose proof Hwf as (Hnd & Hl & Hm).
  assert (Hfresh : g_next graph ∉ g_nodes graph).
  { intros [n Hn%(wf_graph_fresh _ _ _ Hwf)]%(wf_graph_linked _ _ Hwf). lia. }
  split; [|split]; simpl.
  - by apply NoDup_cons.
  - apply Forall_cons. split; [by rewrite lookup_insert_eq|].
    apply Forall_forall. intros a Ha.
    rewrite lookup_insert_ne by (by intros <-).
    by apply wf_graph_linked.
  - apply map_Forall_insert_2.
    + split; [lia|]. rewrite Hout. repeat constructor. simpl. lia.
    + intros a n Ha. destruct (Hm a n Ha) as [Hlt Ho]. split; [lia|].
      eapply Forall_impl; [exact Ho|]. intros v [Hv Hu]. split; [done|lia].
Qed.

(** C5. On a well-formed graph, with one of the three packing strategies
    (each returning a plan over managed values), planMemory returns and
    the rewritten graph starts with the prim::AllocateStorage node it
    created, at an address that was free before.  That node carries the
    total size of the plan ([total_size], which reads back as the same
    unsigned number) and the device picked for the graph, CPU when none is
    picked.  After it come the nodes of the graph in their order, each
    preceded by its binding nodes, so it is the only such node the run
    emits: every other linked node was in the graph already or is a
    prim::AllocateTensor node. *)
Theorem planMemory_emits_one_storage_node
    (graph : Graph) (strat : Strategy) :
  wf_graph graph ->
  strat = GREEDY_BY_SIZE \/ strat = LINEAR_SCAN \/
    strat = GREEDY_BY_BREADTH ->
  let storage := g_next graph in
  exists plan graph' rest,
    select strat (stuff_of graph).1.1 (stuff_of graph).1.2
      (stuff_of graph).2 = Some plan /\
    plan_memory strat graph = (graph', Return tt) /\
    g_nodes graph' = storage :: rest /\
    rest = with_bindings (number_from (storage + 1)%N plan) (g_nodes graph) /\
    g_heap graph !! storage = None /\
    g_heap graph' !! storage =
      Some (mkNode AllocateStorage [] [out_value storage]
              (storage_attrs (getTotalAllocationSize plan)
                 (pickDeviceType (nodes graph)))) /\
    wrap_u64 (wrap_i64 (getTotalAllocationSize plan)) =
      getTotalAllocationSize plan /\
    (forall a, a ∈ rest ->
       a ∈ g_nodes graph \/
       exists n, g_heap graph' !! a = Some n /\ n_kind n = AllocateTensor).
Proof using All.
  intros Hwf Hknown storage.
  assert (exists plan, select strat (stuff_of graph).1.1 (stuff_of graph).1.2
                         (stuff_of graph).2 = Some plan) as [plan Hsel].
  { destruct Hknown as [-> |[-> | ->]]; by eexists. }
  pose proof (selected_plan_managed _ _ _ _ _ Hsel) as Hplan.
  assert (Hnone : g_heap graph !! storage = None).
  { destruct (g_heap graph !! storage) as [n|] eqn:Hn; [|done].
    apply (wf_graph_fresh _ _ _ Hwf) in Hn. subst storage. lia. }
  assert (Hfresh : storage ∉ g_nodes graph).
  { intros [n Hn]%(wf_graph_linked _ _ Hwf). congruence. }
  assert (Hround : wrap_u64 (wrap_i64 (getTotalAllocationSize plan)) =
                   getTotalAllocationSize plan).
  { rewrite wrap_u64_i64. unfold wrap_u64. apply Z.mod_small.
    apply getTotalAllocationSize_range. }
  set (sn := mkNode AllocateStorage [] [out_value storage]
               (storage_attrs (getTotalAllocationSize plan)
                  (pickDeviceType (nodes graph)))).
  set (g1 := mkGraph (<[storage := sn]> (g_heap graph))
               (storage :: g_nodes graph) (storage + 1)%N).
  destruct (tensor_nodes_bound storage sn (out_value storage)
              (wrap_i64 (getTotalAllocationSize plan))
              (wrap_i8 (default kCPU (pickDeviceType (nodes graph)))) g1)
    with (plan := plan)
    as (graph' & Hrun & _ & Hnodes & Hfin & _ & Hrew & _).
  { by apply wf_graph_with_storage. }
  { apply lookup_insert_eq. }
  { done. }
  { done. }
  { done. }
  { intros e He.
    destruct (planned_value_passes graph plan e Hwf Hplan He) as [Hp Hty].
    split; [|split; [done|]].
    - split; [by right|]. split; [by intros Heq; rewrite Heq in Hp|].
      destruct Hty as (ttp & _ & Hty & _). by exists ttp.
    - rewrite Hround. by apply running_max_upper. }
  rewrite app_nil_r in Hnodes, Hrew.
  exists plan, graph', (with_bindings (number_from (g_next g1) plan)
                          (g_nodes graph)).
  split; [done|]. split.
  { rewrite planMemory_unfold, Hsel.
    unfold mbind, Pass_bind, bind.
    by rewrite storage_node_inserted. }
  assert (Hnobind : bindings_of storage (number_from (g_next g1) plan) = []).
  { apply bindings_of_none. intros a e [_ He]%number_from_range Heq.
    destruct (planned_value_passes graph plan e Hwf Hplan He) as [Hp _].
    by rewrite Heq in Hp. }
  split.
  { rewrite Hnodes. simpl g_nodes.
    change (with_bindings ?t (storage :: ?l))
      with ((bindings_of storage t ++ [storage]) ++ with_bindings t l).
    by rewrite Hnobind. }
  split; [done|]. split; [done|]. split.
  { rewrite (Hrew storage sn) by apply lookup_insert_eq.
    by rewrite Hnobind, rewired_nil. }
  split; [done|].
  intros a [Ha|Ha]%elem_of_with_bindings; [by left|right].
  apply list_elem_of_fmap in Ha as ([a' [v r]] & -> & Hin).
  destruct (number_from_range _ _ _ _ Hin) as [_ He].
  destruct (planned_value_passes graph plan _ Hwf Hplan He)
    as [_ (ttp & st & Hty & Hst)].
  eexists. split; [exact (Hfin a' v r ttp st Hin Hty Hst)|done].
Qed.

End PlannerClaims.

(** ** Determinism of the packing strategies *)

Section FindKey.

Context {A : Type}.
Implicit Types (m : list (Value * A)) (v : Value).

Lemma find_key_Some m v a :
  Strategies.find_key v m = Some a ->
  exists w, (w, a) ∈ m /\ v_unique w = v_unique v.
Proof.
  unfold Strategies.find_key.
  destruct (find _ m) as [[w a']|] eqn:Hf; [|done].
  intros [= <-]. apply find_some in Hf as [Hin Heq].
  exists w. split; [by apply list_elem_of_In|by apply N.eqb_eq].
Qed.

Lemma find_key_None m v e :
  Strategies.find_key v m = None -> e ∈ m -> v_unique e.1 <> v_unique v.
Proof.
  unfold Strategies.find_key.
  destruct (find _ m) as [x|] eqn:Hf; [done|]. intros _ Hin.
  apply list_elem_of_In in Hin.
  pose proof (find_none _ _ Hf e Hin) as Hne. by apply N.eqb_neq.
Qed.

Lemma find_key_unique m v w a :
  NoDup (keys m) -> (w, a) ∈ m -> v_unique w = v_unique v ->
  Strategies.find_key v m = Some a.
Proof.
  intros Hnd Hin Heq.
  destruct (Strategies.find_key v m) as [a'|] eqn:Hf.
  - apply find_key_Some in Hf as (w' & Hin' & Heq').
    apply list_elem_of_lookup in Hin as [i Hi], Hin' as [j Hj].
    assert (i = j) as ->; [|by simplify_eq].
    apply (NoDup_lookup (keys m) i j (v_unique v)); [done| |].
    + unfold keys. rewrite list_lookup_fmap, Hi. simpl. by rewrite Heq.
    + unfold keys. rewrite list_lookup_fmap, Hj. simpl. by rewrite Heq'.
  - by destruct (find_key_None m v (w, a) Hf Hin).
Qed.

(** A lookup does not depend on the order in which the map holds its
    entries. *)
Lemma find_key_Permutation m m' v :
  NoDup (keys m) -> m ≡ₚ m' ->
  Strategies.find_key v m = Strategies.find_key v m'.
Proof.
  intros Hnd Hp.
  assert (Hnd' : NoDup (keys m')) by (unfold keys; by rewrite <- Hp).
  destruct (Strategies.find_key v m) as [a|] eqn:Hf.
  - apply find_key_Some in Hf as (w & Hin & Heq). symmetry.
    apply (find_key_unique m' v w a); [done| |done]. by rewrite <- Hp.
  - destruct (Strategies.find_key v m') as [a|] eqn:Hf'; [|done].
    apply find_key_Some in Hf' as (w & Hin & Heq).
    rewrite <- Hp in Hin. by destruct (find_key_None m v (w, a) Hf Hin).
Qed.

End FindKey.

Lemma managed_items_handles sizes ranges :
  NoDup (keys sizes) ->
  NoDup (Strategies.handle <$> Strategies.managed_items sizes ranges).
Proof.
  unfold Strategies.managed_items, keys.
  induction sizes as [|[v s] sizes IH]; intros Hnd; [constructor|].
  apply NoDup_cons in Hnd as [Hv Hnd]. cbn [omap list_omap fmap list_fmap].
  simpl. destruct (Strategies.find_key v ranges) as [lr|]; simpl;
    [|by apply IH].
  apply NoDup_cons. split; [|by apply IH].
  intros (it & Hh & Hit)%list_elem_of_fmap. apply Hv.
  apply list_elem_of_omap in Hit as ([w s'] & Hin & Hw).
  apply list_elem_of_fmap. exists (w, s'). split; [|done].
  simpl in *. destruct (Strategies.find_key w ranges); [|done].
  inversion Hw; subst. done.
Qed.

Lemma managed_items_ranges sizes ranges ranges' :
  NoDup (keys ranges) -> ranges ≡ₚ ranges' ->
  Strategies.managed_items sizes ranges = Strategies.managed_items sizes ranges'.
Proof.
  intros Hnd Hp. unfold Strategies.managed_items.
  induction sizes as [|e sizes IH]; [done|].
  cbn [omap list_omap].
  by rewrite IH, (find_key_Permutation ranges ranges' e.1 Hnd Hp).
Qed.

Lemma managed_items_sizes sizes sizes' ranges :
  sizes ≡ₚ sizes' ->
  Strategies.managed_items sizes ranges ≡ₚ Strategies.managed_items sizes' ranges.
Proof. intros Hp. unfold Strategies.managed_items. by rewrite Hp. Qed.

Global Instance by_size_total : Total Strategies.by_size.
Proof. intros a b. unfold Strategies.by_size. lia. Qed.
Global Instance by_size_trans : Transitive Strategies.by_size.
Proof. intros a b c. unfold Strategies.by_size. lia. Qed.
Global Instance by_start_total : Total Strategies.by_start.
Proof. intros a b. unfold Strategies.by_start. lia. Qed.
Global Instance by_start_trans : Transitive Strategies.by_start.
Proof. intros a b c. unfold Strategies.by_start. lia. Qed.

Lemma handle_inj (items : list Strategies.Managed) x y :
  NoDup (Strategies.handle <$> items) -> x ∈ items -> y ∈ items ->
  Strategies.handle x = Strategies.handle y -> x = y.
Proof.
  intros Hnd [i Hi]%list_elem_of_lookup [j Hj]%list_elem_of_lookup Heq.
  assert (i = j) as ->; [|by simplify_eq].
  apply (NoDup_lookup _ i j (Strategies.handle x) Hnd).
  - by rewrite list_lookup_fmap, Hi.
  - by rewrite list_lookup_fmap, Hj, Heq.
Qed.

(** Sorting by an order that is total up to the handle gives one result
    for all the orders in which the input may come. *)
Lemma sorted_once (R : relation Strategies.Managed)
    `{!RelDecision R, !Total R, !Transitive R} items items' :
  (forall x y, R x y -> R y x -> Strategies.handle x = Strategies.handle y) ->
  NoDup (Strategies.handle <$> items) -> items ≡ₚ items' ->
  merge_sort R items = merge_sort R items'.
Proof.
  intros Hanti Hnd Hp. apply (Sorted_unique_strong R).
  - intros x y Hx Hy Hxy Hyx. rewrite merge_sort_Permutation in Hx, Hy.
    rewrite <- Hp in Hy. by apply (handle_inj items); [| | |apply Hanti].
  - apply (Sorted_merge_sort R).
  - apply (Sorted_merge_sort R).
  - by rewrite !merge_sort_Permutation.
Qed.

(** The two maps that the collector hands to a strategy have one entry per
    address. *)

Lemma count_key_false_keys {A} (v : Value) (m : list (Value * A)) :
  count_key v m = false -> v_unique v ∉ keys m.
Proof.
  intros Hc (e & He & Hin)%list_elem_of_fmap.
  assert (count_key v m = true) as Ht; [|by rewrite Ht in Hc].
  apply count_key_true. by exists e.
Qed.

Lemma map_insert_keys {A} (v : Value) (a : A) (m : list (Value * A)) :
  NoDup (keys m) -> NoDup (keys (map_insert v a m)).
Proof.
  intros Hnd. unfold map_insert.
  destruct (count_key v m) eqn:Hc; [done|].
  unfold keys. rewrite fmap_app. apply NoDup_app. split; [done|].
  split; [|apply NoDup_singleton].
  intros k Hk ->%list_elem_of_singleton.
  by apply (count_key_false_keys v m Hc).
Qed.

Section CollectedMaps.

Variable elementSize : ScalarType -> Z.
Variable getAllOperatorsFor : string -> list Operator.
Variable isOptimizableContainerType : Node -> bool.
Variable GetAlwaysAliveValues : Graph -> gset N.
Variable GetLiveness : Graph -> gset N -> ManagedRanges.

Lemma visit_output_keys always_alive node c out_v :
  NoDup (keys (managed_tensor_values c)) ->
  NoDup (keys (managed_tensor_values
                 (visit_output elementSize isOptimizableContainerType
                    always_alive node c out_v))).
Proof.
  intros Hnd. unfold visit_output. repeat case_match; simpl; try done.
  by apply map_insert_keys.
Qed.

Lemma visit_node_keys always_alive c an :
  NoDup (keys (managed_tensor_values c)) ->
  NoDup (keys (managed_tensor_values
                 (visit_node elementSize getAllOperatorsFor
                    isOptimizableContainerType always_alive c an))).
Proof.
  intros Hnd. unfold visit_node. case_match; [|done].
  generalize (mkCollected (out_nodes c ++ [an]) (managed_tensor_values c)
                (leaked_values c)) (Hnd : NoDup (keys (managed_tensor_values
                (mkCollected (out_nodes c ++ [an]) (managed_tensor_values c)
                (leaked_values c))))).
  induction (n_outputs an.2) as [|o outs IH]; intros c' Hc'; simpl; [done|].
  by apply IH, visit_output_keys.
Qed.

Lemma managed_sizes_keys graph always_alive :
  NoDup (keys (getManagedValues elementSize getAllOperatorsFor
                 isOptimizableContainerType graph always_alive).2).
Proof.
  unfold getManagedValues, collect. simpl.
  assert (Hinit : NoDup (keys (managed_tensor_values (mkCollected [] [] []))))
    by constructor.
  revert Hinit. generalize (mkCollected [] [] []).
  induction (nodes graph) as [|an l IH]; intros c Hc; simpl; [done|].
  by apply IH, visit_node_keys.
Qed.

Lemma managed_ranges_keys graph :
  NoDup (keys (getManagedStuff elementSize getAllOperatorsFor
                 isOptimizableContainerType GetAlwaysAliveValues GetLiveness
                 graph).2).
Proof.
  unfold getManagedStuff.
  destruct (getManagedValues _ _ _ _ _) as [outs sizes]. simpl.
  assert (Hinit : NoDup (keys ([] : ManagedRanges))) by constructor.
  revert Hinit. generalize ([] : ManagedRanges).
  induction (GetLiveness graph (GetAlwaysAliveValues graph)) as [|lvr l IH];
    intros acc Hacc; simpl; [done|].
  apply IH. case_match; [by apply map_insert_keys|done].
Qed.

End CollectedMaps.

Lemma fold_left_ext {A B} (f f' : A -> B -> A) (l : list B) (a : A) :
  (forall x y, f x y = f' x y) -> fold_left f l a = fold_left f' l a.
Proof.
  intros Hf. revert a. induction l as [|y l IH]; intros a; simpl; [done|].
  by rewrite Hf, IH.
Qed.

Section Determinism.

Variable choose : Strategies.Placed -> option (Strategies.Managed * Region).

Variables (sizes sizes' : ManagedSizes) (ranges ranges' : ManagedRanges).
Hypothesis sizes_keys : NoDup (keys sizes).
Hypothesis ranges_keys : NoDup (keys ranges).
Hypothesis same_sizes : sizes ≡ₚ sizes'.
Hypothesis same_ranges : ranges ≡ₚ ranges'.

Lemma same_items :
  Strategies.managed_items sizes ranges ≡ₚ
  Strategies.managed_items sizes' ranges'.
Proof using ranges_keys same_sizes same_ranges.
  rewrite (managed_items_ranges sizes ranges ranges') by done.
  by apply managed_items_sizes.
Qed.

Lemma greedyBySize_deterministic :
  Strategies.greedyBySize sizes ranges = Strategies.greedyBySize sizes' ranges'.
Proof using All.
  unfold Strategies.greedyBySize. do 2 f_equal.
  apply (sorted_once Strategies.by_size);
    [|by apply managed_items_handles|apply same_items].
  intros x y. unfold Strategies.by_size. lia.
Qed.

Lemma linearScanHeuristic_deterministic :
  Strategies.linearScanHeuristic sizes ranges =
  Strategies.linearScanHeuristic sizes' ranges'.
Proof using All.
  unfold Strategies.linearScanHeuristic. do 3 f_equal.
  apply (sorted_once Strategies.by_start);
    [|by apply managed_items_handles|apply same_items].
  intros x y. unfold Strategies.by_start. lia.
Qed.

Lemma greedyByOperatorBreadth_deterministic out_nodes :
  Strategies.greedyByOperatorBreadth choose sizes ranges out_nodes =
  Strategies.greedyByOperatorBreadth choose sizes' ranges' out_nodes.
Proof using All.
  unfold Strategies.greedyByOperatorBreadth. do 2 f_equal.
  apply fold_left_ext. intros st an. apply fold_left_ext. intros st' v.
  unfold Strategies.breadth_output.
  by rewrite (find_key_Permutation sizes sizes' v sizes_keys same_sizes),
    (find_key_Permutation ranges ranges' v ranges_keys same_ranges).
Qed.

(** C9. Two runs of a packing strategy on the same sizes, the same ranges
    and (for greedy-by-breadth) the same operations in the same order
    return the same plan, entry for entry, and so the same total arena
    size.  The two runs may meet the entries of the two maps in different
    orders: the maps of the second run are permutations of those of the
    first.  The sort keys end in the value's handle, which makes the order
    of placement the same in both runs.  The maps have one entry per key,
    as the maps of the collector have (managed_sizes_keys,
    managed_ranges_keys). *)
Theorem planning_is_deterministic
    (strat : Strategy) (out_nodes : list (N * Node)) :
  let plan :=
    selectAllocations Strategies.greedyBySize Strategies.linearScanHeuristic
      (Strategies.greedyByOperatorBreadth choose) strat out_nodes in
  plan sizes ranges = plan sizes' ranges' /\
  getTotalAllocationSize <$> plan sizes ranges =
    getTotalAllocationSize <$> plan sizes' ranges'.
Proof using All.
  intros plan.
  assert (Hsame : plan sizes ranges = plan sizes' ranges').
  { subst plan. destruct strat; simpl; [done| | | |done]; f_equal.
    - apply greedyBySize_deterministic.
    - apply linearScanHeuristic_deterministic.
    - apply greedyByOperatorBreadth_deterministic. }
  split; [exact Hsame|by rewrite Hsame].
Qed.

End Determinism.

(** ** The pass on the example graph *)

(** The collector on the example graph: relu and sigmoid have an out
    variant, aten::size has none; x and y are managed with 24 and 16
    bytes. *)
Lemma example_collected :
  getManagedValues Example.elementSize Example.registry Example.no_container
    Example.graph ∅ =
  ([(10%N, Example.relu); (11%N, Example.sigmoid)],
   [(Example.x, 24); (Example.y, 16)]).
Proof. reflexivity. Qed.

Lemma example_graph_wf : wf_graph Example.graph.
Proof.
  unfold wf_graph. split; [|split].
  - by apply (bool_decide_unpack _).
  - by apply (bool_decide_unpack _).
  - by apply (bool_decide_unpack _).
Qed.

Lemma example_stored_wf : wf_graph Example.stored.
Proof.
  unfold wf_graph. split; [|split].
  - by apply (bool_decide_unpack _).
  - by apply (bool_decide_unpack _).
  - by apply (bool_decide_unpack _).
Qed.

Lemma stack_managed (offset : Z) (sizes : ManagedSizes) :
  picks_managed sizes (Example.stack offset sizes).
Proof.
  revert offset. induction sizes as [|[v s] sizes IH]; intros offset e He.
  - inversion He.
  - simpl in He. apply elem_of_cons in He as [->|He].
    + exists s. left.
    + destruct (IH _ e He) as [s' Hs']. exists s'. by right.
Qed.

Lemma example_passes (e : Value * Region) :
  e ∈ Example.fitting -> passes Example.stored 20 40 e.
Proof.
  intros He. repeat (apply elem_of_cons in He as [->|He]); [| |inversion He].
  - split; [|split].
    + split; [by apply (bool_decide_unpack _)|]. split; [done|by eexists].
    + by eexists _, _.
    + by vm_compute.
  - split; [|split].
    + split; [by apply (bool_decide_unpack _)|]. split; [done|by eexists].
    + by eexists _, _.
    + by vm_compute.
Qed.

Lemma always_alive_values_are_excluded_witness :
  count_key Example.y
    (getManagedStuff Example.elementSize Example.registry
       Example.no_container Example.y_pinned Example.liveness
       Example.graph).1.2 = false.
Proof.
  apply (always_alive_values_are_excluded Example.elementSize Example.registry
           Example.no_container Example.y_pinned Example.liveness
           Example.stack2 Example.stack2 Example.stack3 Example.graph
           Example.y).
  unfold Example.y_pinned. simpl. by apply elem_of_singleton.
Defined.

Lemma planMemory_emits_one_storage_node_witness :
  exists graph' rest,
    planMemory Example.elementSize Example.registry Example.no_container
      Example.no_device Example.nothing_pinned Example.liveness
      Example.stack2 Example.stack2 Example.stack3 LINEAR_SCAN Example.graph
    = (graph', Return tt) /\
    g_nodes graph' = 20%N :: rest.
Proof.
  destruct (planMemory_emits_one_storage_node Example.elementSize
              Example.registry Example.no_container Example.no_device
              Example.nothing_pinned Example.liveness
              Example.stack2 Example.stack2 Example.stack3
              (fun sizes _ => stack_managed 0 sizes)
              (fun sizes _ => stack_managed 0 sizes)
              (fun sizes _ _ => stack_managed 0 sizes)
              Example.graph LINEAR_SCAN example_graph_wf
              (or_intror (or_introl eq_refl)))
    as (plan & graph' & rest & _ & Hrun & Hnodes & _).
  exists graph', rest. split; [exact Hrun|exact Hnodes].
Defined.

Lemma every_planned_value_gets_one_binding_witness :
  exists g',
    insertAllocTensorNodes 20 Example.fitting Example.stored = (g', Return tt)
    /\ g_nodes g' = [20; 21; 10; 22; 11; 12]%N.
Proof.
  destruct (every_planned_value_gets_one_binding 20 Example.storage_node
              (out_value 20) 40 0 Example.stored example_stored_wf
              eq_refl eq_refl eq_refl eq_refl Example.fitting example_passes)
    as (g' & Hrun & _ & _ & Hnodes & _).
  exists g'. split; [exact Hrun|]. rewrite Hnodes. reflexivity.
Defined.

Lemma oversized_region_aborts_midway_witness :
  exists g',
    insertAllocTensorNodes 20 Example.corrupted Example.stored
      = (g', Throw ExceedsPlannedMemory)
    /\ g_nodes g' = [20; 21; 10; 22; 11; 12]%N.
Proof.
  destruct (oversized_region_aborts_midway 20 Example.storage_node
              (out_value 20) 40 0 Example.stored example_stored_wf
              eq_refl eq_refl eq_refl eq_refl
              [(Example.x, mkRegion 0 24)] [] (Example.y, mkRegion 32 16))
    as (g' & Hrun & Hnodes & _).
  - intros e He. apply list_elem_of_singleton in He as ->.
    apply example_passes. left.
  - split; [by apply (bool_decide_unpack _)|]. split; [done|by eexists].
  - by vm_compute.
  - exists g'. split; [exact Hrun|]. rewrite Hnodes. reflexivity.
Defined.

(** Against C1 as stated: a plan whose second Region ends beyond the 40
    bytes of the arena.  The check fires, and by then the storage node and
    both binding nodes are linked and the producer of the failing entry is
    rewired. *)
Lemma oversized_region_leaves_graph_rewritten :
  let run :=
    (storage ← insertAllocStorageNode Example.no_device 40;
     insertAllocTensorNodes storage Example.corrupted) Example.graph in
  run.2 = Throw ExceedsPlannedMemory /\
  g_nodes Example.graph = [10; 11; 12]%N /\
  g_nodes run.1 = [20; 21; 10; 22; 11; 12]%N /\
  n_kind <$> g_heap run.1 !! 20%N = Some AllocateStorage /\
  n_kind <$> g_heap run.1 !! 22%N = Some AllocateTensor /\
  n_inputs <$> g_heap Example.graph !! 11%N = Some [Example.x] /\
  n_inputs <$> g_heap run.1 !! 11%N = Some [Example.x; out_value 22].
Proof. vm_compute. repeat split. Qed.

(** Against C6 as stated: a Float value of rank 0, the output of a node
    with an out variant.  It is a managed value of 4 bytes, the plan gives
    it a Region, and planMemory returns; its binding node carries the
    extents [0] and the strides [1], where the value has no axis at all. *)
Lemma rank0_value_is_bound_with_extent_0 :
  let managed :=
    (getManagedValues Example.elementSize Example.registry
       Example.no_container Example.rank0_graph ∅).2 in
  let run :=
    planMemory Example.elementSize Example.registry Example.no_container
      Example.no_device Example.nothing_pinned Example.rank0_liveness
      Example.stack2 Example.stack2 Example.stack3 LINEAR_SCAN
      Example.rank0_graph in
  v_type Example.z = TensorTy Example.float_rank0 /\
  sizes_concrete Example.float_rank0 = Some [] /\
  strides_concrete Example.float_rank0 = Some [] /\
  managed = [(Example.z, 4)] /\
  run.2 = Return tt /\
  g_nodes run.1 = [20; 21; 10]%N /\
  n_kind <$> g_heap run.1 !! 21%N = Some AllocateTensor /\
  (g_heap run.1 !! 21%N ≫= fun n => n_attrs n !! "sizes") =
    Some (AttrInts [0]) /\
  (g_heap run.1 !! 21%N ≫= fun n => n_attrs n !! "stride") =
    Some (AttrInts [1]) /\
  n_inputs <$> g_heap run.1 !! 10%N = Some [out_value 21].
Proof. vm_compute. repeat split. Qed.

(** Against C7 as stated: a type that reports the extents [0; 5] and no
    strides.  The row-major default strides of its extents are [5; 1];
    getSizesStrides returns the extents [0] and the strides [1]. *)
Lemma empty_leading_extent_gets_stride_1 :
  sizes_concrete Example.float_0x5 = Some [0; 5] /\
  strides_concrete Example.float_0x5 = None /\
  defaultStrides [0; 5] = [5; 1] /\
  getSizesStrides Example.float_0x5 = ([0], [1]).
Proof. vm_compute. repeat split. Qed.

Lemma planning_is_deterministic_witness :
  let sizes := [(Example.x, 24); (Example.y, 16)] in
  let sizes' := [(Example.y, 16); (Example.x, 24)] in
  let ranges := Example.liveness Example.graph ∅ in
  let ranges' := reverse ranges in
  let plan :=
    selectAllocations Strategies.greedyBySize Strategies.linearScanHeuristic
      (Strategies.greedyByOperatorBreadth head) LINEAR_SCAN [] in
  plan sizes ranges = plan sizes' ranges'.
Proof.
  intros sizes sizes' ranges ranges' plan.
  assert (Hs : NoDup (keys sizes)) by by apply (bool_decide_unpack _).
  assert (Hr : NoDup (keys ranges)) by by apply (bool_decide_unpack _).
  exact (proj1 (planning_is_deterministic head sizes sizes' ranges ranges'
                  Hs Hr (perm_swap _ _ _) (perm_swap _ _ _) LINEAR_SCAN [])).
Defined.

(** The scenarios of section 8 of the spec, on the strategies as read from
    it. *)
Lemma scenario_disjoint_lifetimes_reuse_memory :
  let a := Example.buffer 1 in
  let b := Example.buffer 2 in
  let plan :=
    Strategies.linearScanHeuristic [(a, 100); (b, 100)]
      [(a, mkLiveRange 0 2); (b, mkLiveRange 3 5)] in
  plan = [(a, mkRegion 0 100); (b, mkRegion 0 100)] /\
  getTotalAllocationSize plan = 100.
Proof. by vm_compute. Qed.

Lemma scenario_overlapping_lifetimes_are_disjoint :
  let a := Example.buffer 1 in
  let b := Example.buffer 2 in
  let sizes := [(a, 100); (b, 50)] in
  let ranges := [(a, mkLiveRange 0 5); (b, mkLiveRange 3 8)] in
  let expected := [(a, mkRegion 0 100); (b, mkRegion 100 50)] in
  Strategies.greedyBySize sizes ranges = expected /\
  Strategies.linearScanHeuristic sizes ranges = expected /\
  getTotalAllocationSize expected = 150.
Proof. by vm_compute. Qed.

Lemma scenario_size_sorted_placement :
  let a := Example.buffer 1 in
  let b := Example.buffer 2 in
  let c := Example.buffer 3 in
  let plan :=
    Strategies.greedyBySize [(a, 300); (b, 100); (c, 200)]
      [(a, mkLiveRange 0 1); (b, mkLiveRange 2 3); (c, mkLiveRange 4 5)] in
  plan = [(a, mkRegion 0 300); (c, mkRegion 0 200); (b, mkRegion 0 100)] /\
  getTotalAllocationSize plan = 300.
Proof. by vm_compute. Qed.

(** * Further properties of the pass *)

(** ** Reasoning on every outcome *)

Lemma triple_bind {A B} P (m : Pass A) Q (k : A -> Pass B) R E :
  triple P m Q E -> (forall a, triple (Q a) (k a) R E) ->
  triple P (m ≫= k) R E.
Proof.
  intros Hm Hk g Hg. specialize (Hm g Hg).
  unfold mbind, Pass_bind, bind. destruct (m g) as [g' [a|e]]; [|done].
  by apply Hk.
Qed.

Lemma triple_ret {A} (P : Graph -> Prop) (a : A) Q E :
  (forall g, P g -> Q a g) -> triple P (ret a) Q E.
Proof. intros H g Hg. by apply H. Qed.

Lemma triple_throw {A} (P : Graph -> Prop) e (Q : A -> Graph -> Prop) E :
  (forall g, P g -> E e g) -> triple P (throw e) Q E.
Proof. intros H g Hg. by apply H. Qed.

Lemma triple_bind_throw {A B} (P : Graph -> Prop) e (k : A -> Pass B) R
    (E : Error -> Graph -> Prop) :
  (forall g, P g -> E e g) -> triple P (throw e ≫= k) R E.
Proof. intros H g Hg. by apply H. Qed.

Lemma triple_bind_ret {A B} (P : Graph -> Prop) (a : A) (k : A -> Pass B) R
    (E : Error -> Graph -> Prop) :
  triple P (k a) R E -> triple P (ret a ≫= k) R E.
Proof. intros H g Hg. by apply H. Qed.

Lemma triple_assume {A} (P : Graph -> Prop) (fact : Prop) (m : Pass A) Q E :
  (fact -> triple P m Q E) -> triple (fun g => P g /\ fact) m Q E.
Proof. intros Hm g [Hg Hf]. by apply Hm. Qed.

Lemma triple_for_each {A} (I : Graph -> Prop) (body : A -> Pass unit)
    (l : list A) E :
  (forall x, x ∈ l -> triple I (body x) (fun _ => I) E) ->
  triple I (for_each body l) (fun _ => I) E.
Proof.
  induction l as [|x l IH]; intros Hbody.
  - by apply triple_ret.
  - simpl. eapply triple_bind; [apply Hbody; left|].
    intros ?. apply IH. intros y Hy. apply Hbody. by right.
Qed.

(** ** The errors of the loop and their causes *)

Lemma triple_errors {A} (P : Graph -> Prop) (m : Pass A) Q
    (E E' : Error -> Graph -> Prop) :
  (forall e g, E e g -> E' e g) -> triple P m Q E -> triple P m Q E'.
Proof.
  intros HE Hm g Hg. specialize (Hm g Hg).
  destruct (m g) as [g' [a|e]]; [done|by apply HE].
Qed.

Lemma deref_assert a :
  triple any_graph (deref a) (fun _ => any_graph) only_assert.
Proof. intros g _. unfold deref. by destruct (g_heap g !! a). Qed.

Lemma update_assert a f :
  triple any_graph (update a f) (fun _ => any_graph) only_assert.
Proof. intros g _. unfold update. by destruct (g_heap g !! a). Qed.

Lemma create_assert kind :
  triple any_graph (create kind) (fun _ => any_graph) only_assert.
Proof. by intros g _. Qed.

Lemma insertBefore_assert a n :
  triple any_graph (insertBefore a n) (fun _ => any_graph) only_assert.
Proof.
  intros g _. unfold insertBefore. destruct n as [target|]; [|done].
  by destruct (insert_before a target (g_nodes g)).
Qed.

Lemma output_assert a :
  triple any_graph (output a) (fun _ => any_graph) only_assert.
Proof.
  unfold output. eapply triple_bind; [apply deref_assert|]. intros n.
  repeat case_match; (by apply triple_ret) || (by apply triple_throw).
Qed.

Lemma i_assert a name :
  triple any_graph (i a name) (fun _ => any_graph) only_assert.
Proof.
  unfold i. eapply triple_bind; [apply deref_assert|]. intros n.
  repeat case_match; (by apply triple_ret) || (by apply triple_throw).
Qed.

Lemma assert_is_cause {A} (m : Pass A) total x :
  triple any_graph m (fun _ => any_graph) only_assert ->
  triple any_graph m (fun _ => any_graph) (fun e _ => turn_cause total x e).
Proof. apply triple_errors. by intros e g ->. Qed.

Ltac next_step :=
  eapply (triple_bind _ _ (fun _ => any_graph)); [|intros ?].

(** One turn of the loop: an error other than a failed assertion tells
    what is wrong with the entry. *)
Lemma turn_causes storage total x :
  triple any_graph (insertAllocTensorNode storage total x)
    (fun _ => any_graph) (fun e _ => turn_cause total x e).
Proof.
  unfold insertAllocTensorNode.
  next_step; [apply assert_is_cause, create_assert|].
  next_step; [apply assert_is_cause, output_assert|].
  next_step; [apply assert_is_cause, update_assert|].
  next_step; [apply assert_is_cause, insertBefore_assert|].
  next_step; [apply assert_is_cause, output_assert|].
  next_step; [apply assert_is_cause, update_assert|].
  destruct (v_type x.1) as [ttp|] eqn:Hty; cbn [expectTensorType];
    [|apply triple_bind_throw; by intros g _].
  apply triple_bind_ret. cbv zeta. next_step.
  { unfold TORCH_CHECK. destruct (Z.leb_spec (region_end x.2) total);
      [by apply triple_ret|by apply triple_throw]. }
  do 4 (next_step; [apply assert_is_cause, update_assert|]).
  next_step; [apply assert_is_cause, i_assert|].
  next_step; [apply assert_is_cause, update_assert|].
  destruct (scalarType ttp) as [dtype|] eqn:Hdtype; cbn [value].
  - apply triple_bind_ret, assert_is_cause, update_assert.
  - apply triple_bind_throw. intros g _. by exists ttp.
Qed.

Lemma loop_causes storage total (plan : Allocations) :
  triple any_graph (for_each (insertAllocTensorNode storage total) plan)
    (fun _ => any_graph)
    (fun e _ => exists x, x ∈ plan /\ turn_cause total x e).
Proof.
  apply triple_for_each. intros x Hx.
  eapply triple_errors; [|apply turn_causes].
  intros e g He. by exists x.
Qed.

Lemma loop_other storage total (plan : Allocations) :
  (forall e, e ∈ plan -> region_end e.2 <= total) ->
  triple any_graph (for_each (insertAllocTensorNode storage total) plan)
    (fun _ => any_graph) other_error.
Proof.
  intros Hle. eapply triple_errors; [|apply loop_causes].
  intros e g (x & Hx & Hcause). specialize (Hle x Hx).
  destruct e; [by left|by right|]. simpl in Hcause. lia.
Qed.

(** X7. When insertAllocTensorNodes stops on a missing optional, the plan
    has an entry whose tensor type carries no element type; when it stops
    on the bounds check, the plan has an entry whose [offset + size]
    exceeds the total recorded on the storage node. *)
Theorem tensor_node_errors_have_causes
    (storage : N) (plan : Allocations) (g g' : Graph) :
  (insertAllocTensorNodes storage plan g = (g', Throw BadOptionalAccess) ->
   exists x ttp,
     x ∈ plan /\ v_type x.1 = TensorTy ttp /\ scalarType ttp = None) /\
  (insertAllocTensorNodes storage plan g = (g', Throw ExceedsPlannedMemory) ->
   exists x sn total,
     x ∈ plan /\ g_heap g !! storage = Some sn /\
     n_attrs sn !! "total_size" = Some (AttrInt total) /\
     wrap_u64 total < region_end x.2).
Proof.
  unfold insertAllocTensorNodes, i, deref.
  unfold mbind at 1 2 3 4, Pass_bind at 1 2 3 4, bind at 1 2 3 4.
  destruct (g_heap g !! storage) as [sn|] eqn:Hsn; [|by split].
  destruct (n_attrs sn !! "total_size") as [[total|?]|] eqn:Htotal;
    [|by split|by split].
  unfold ret. cbv zeta.
  generalize (loop_causes storage (wrap_u64 total) plan g I).
  destruct (for_each _ plan g) as [g1 [[]|e]]; [by split|].
  intros (x & Hx & Hcause). split; intros [= -> ->].
  - destruct Hcause as (ttp & Hty & Hdtype). by exists x, ttp.
  - by exists x, sn, total.
Qed.

(** insertAllocStorageNode on any graph: it returns, with the new node
    linked first. *)
Lemma storage_node_any (pickDeviceType : list (N * Node) -> option DeviceType)
    (g : Graph) (total_size : Z) :
  exists device,
    insertAllocStorageNode pickDeviceType total_size g =
    (mkGraph
       (<[g_next g := mkNode AllocateStorage [] [out_value (g_next g)]
                        (storage_attrs total_size device)]> (g_heap g))
       (g_next g :: g_nodes g) (g_next g + 1)%N,
     Return (g_next g)) /\
    (g_next g ∉ g_nodes g -> device = pickDeviceType (nodes g)).
Proof.
  pose proof (nodes_fresh_insert g) as Hnodes.
  destruct g as [h l nx]. simpl in *. run_pass.
  rewrite !lookup_insert_eq. cbn [n_kind n_inputs n_outputs n_attrs].
  rewrite insert_insert_eq.
  match goal with
  | |- context [pickDeviceType ?ns] => exists (pickDeviceType ns)
  end.
  split; [|intros Hfresh; by rewrite (Hnodes _ Hfresh)].
  destruct (pickDeviceType _) as [d|];
    rewrite !lookup_insert_eq; cbn [n_kind n_inputs n_outputs n_attrs];
    rewrite !insert_insert_eq;
    (destruct l as [|t l]; simpl; [|rewrite N.eqb_refl]); done.
Qed.

Section CheckHolds.

Variable elementSize : ScalarType -> Z.
Variable getAllOperatorsFor : string -> list Operator.
Variable isOptimizableContainerType : Node -> bool.
Variable pickDeviceType : list (N * Node) -> option DeviceType.
Variable GetAlwaysAliveValues : Graph -> gset N.
Variable GetLiveness : Graph -> gset N -> ManagedRanges.
Variable greedyBySize : ManagedSizes -> ManagedRanges -> Allocations.
Variable linearScanHeuristic : ManagedSizes -> ManagedRanges -> Allocations.
Variable greedyByOperatorBreadth :
  ManagedSizes -> ManagedRanges -> list (N * Node) -> Allocations.

(** The storage node followed by the loop, on any graph and any plan:
    the total recorded on the node is read back unchanged, so every entry
    passes the check. *)
Lemma apply_plan_other (plan : Allocations) :
  triple any_graph
    (storage_node ← insertAllocStorageNode pickDeviceType
                      (getTotalAllocationSize plan);
     insertAllocTensorNodes storage_node plan)
    (fun _ => any_graph) other_error.
Proof.
  intros g _.
  destruct (storage_node_any pickDeviceType g (getTotalAllocationSize plan))
    as (device & Hrun & _).
  unfold mbind at 1, Pass_bind at 1, bind at 1. rewrite Hrun.
  set (g1 := mkGraph _ _ _).
  rewrite (insertAllocTensorNodes_unfold (g_next g)
             (mkNode AllocateStorage [] [out_value (g_next g)]
                (storage_attrs (getTotalAllocationSize plan) device))
             (wrap_i64 (getTotalAllocationSize plan)) g1).
  - rewrite wrap_u64_i64.
    pose proof (getTotalAllocationSize_range plan) as Hrange.
    unfold wrap_u64. rewrite Z.mod_small by done.
    apply (loop_other _ _ plan); [|done].
    intros e He. by apply running_max_upper.
  - simpl. by rewrite lookup_insert_eq.
  - done.
Qed.

(** X1. However the strategies place the tensors, planMemory never fails
    the bounds check of the loop: it returns, or it stops on an internal
    assertion or on a missing element type. *)
Theorem planMemory_never_exceeds_planned_memory
    (strat : Strategy) (graph : Graph) :
  exists g',
    planMemory elementSize getAllOperatorsFor isOptimizableContainerType
      pickDeviceType GetAlwaysAliveValues GetLiveness greedyBySize
      linearScanHeuristic greedyByOperatorBreadth strat graph = (g', Return tt)
    \/ planMemory elementSize getAllOperatorsFor isOptimizableContainerType
      pickDeviceType GetAlwaysAliveValues GetLiveness greedyBySize
      linearScanHeuristic greedyByOperatorBreadth strat graph
       = (g', Throw InternalAssert)
    \/ planMemory elementSize getAllOperatorsFor isOptimizableContainerType
      pickDeviceType GetAlwaysAliveValues GetLiveness greedyBySize
      linearScanHeuristic greedyByOperatorBreadth strat graph
       = (g', Throw BadOptionalAccess).
Proof.
  rewrite planMemory_unfold.
  destruct (selectAllocations _ _ _ _ _ _ _) as [plan|];
    [|exists graph; by left].
  generalize (apply_plan_other plan graph I).
  match goal with
  | |- match ?run with _ => _ end -> _ => destruct run as [g' [[]|e]]
  end; intros H; exists g'; [by left|].
  destruct H as [->| ->]; [right; by left|right; by right].
Qed.

End CheckHolds.

(** ** What the rewriting keeps *)

Lemma insert_before_sublist a target (l l' : list N) :
  insert_before a target l = Some l' ->
  sublist l l' /\ (forall x, x ∈ l' -> x = a \/ x ∈ l).
Proof.
  revert l'. induction l as [|x l IH]; intros l' Heq; [done|].
  simpl in Heq. destruct (N.eqb x target).
  - inversion Heq; subst. split; [by apply sublist_cons|].
    intros y [-> |Hy]%elem_of_cons; [by left|by right].
  - destruct (insert_before a target l) as [r|]; [|done].
    inversion Heq; subst. destruct (IH r eq_refl) as [Hsub Hin].
    split; [by apply sublist_skip|].
    intros y [-> |Hy]%elem_of_cons; [right; by left|].
    destruct (Hin y Hy) as [-> |?]; [by left|right; by right].
Qed.

Lemma extended_nil (n : Node) : extended n [] = n.
Proof. destruct n. unfold extended. simpl. by rewrite app_nil_r. Qed.

Section Kept.

Variable g0 : Graph.
Hypothesis Hfresh0 :
  forall a n, g_heap g0 !! a = Some n -> (a < g_next g0)%N.

Lemma kept_refl : kept g0 g0.
Proof using Hfresh0.
  split; [lia|]. split; [reflexivity|]. split.
  { intros a n Hn. exists []. by rewrite extended_nil. }
  split; [intros a Ha; by left|].
  intros a n Hle Hn. apply Hfresh0 in Hn. lia.
Qed.

Lemma deref_kept a :
  triple (kept g0) (deref a) (fun _ => kept g0) (fun _ => kept g0).
Proof. intros g Hg. unfold deref. by destruct (g_heap g !! a). Qed.

Lemma output_kept a :
  triple (kept g0) (output a) (fun _ => kept g0) (fun _ => kept g0).
Proof.
  unfold output. eapply triple_bind; [apply deref_kept|]. intros n.
  repeat case_match; (by apply triple_ret) || (by apply triple_throw).
Qed.

Lemma i_kept a name :
  triple (kept g0) (i a name) (fun _ => kept g0) (fun _ => kept g0).
Proof.
  unfold i. eapply triple_bind; [apply deref_kept|]. intros n.
  repeat case_match; (by apply triple_ret) || (by apply triple_throw).
Qed.

Lemma create_kept kind :
  kind = AllocateStorage \/ kind = AllocateTensor ->
  triple (kept g0) (create kind)
    (fun a g => kept g0 g /\ (g_next g0 <= a)%N) (fun _ => kept g0).
Proof using Hfresh0.
  intros Hkind g (Hnext & Hsub & Hheap & Hlinked & Hkinds).
  unfold create. cbv zeta. split; [|done].
  unfold kept. cbn [g_heap g_nodes g_next].
  split; [lia|]. split; [done|]. split.
  { intros a n Hn. destruct (Hheap a n Hn) as [extra Hextra].
    exists extra. rewrite lookup_insert_ne; [done|].
    apply Hfresh0 in Hn. lia. }
  split; [done|].
  intros a n Hle. destruct (decide (g_next g = a)) as [<-|Hne].
  - rewrite lookup_insert_eq. intros [= <-]. done.
  - rewrite lookup_insert_ne by done. by apply Hkinds.
Qed.

Lemma addInput_kept a v :
  triple (kept g0) (addInput a v) (fun _ => kept g0) (fun _ => kept g0).
Proof.
  intros g Hg. unfold addInput, update.
  destruct (g_heap g !! a) as [n|] eqn:Hn; [|done].
  destruct Hg as (Hnext & Hsub & Hheap & Hlinked & Hkinds).
  simpl. unfold kept. cbn [g_heap g_nodes g_next].
  split; [done|]. split; [done|]. split.
  { intros b m Hm. destruct (Hheap b m Hm) as [extra Hextra].
    destruct (decide (a = b)) as [->|Hne].
    - exists (extra ++ [v]). rewrite lookup_insert_eq.
      rewrite Hn in Hextra. inversion Hextra; subst.
      unfold extended. simpl. by rewrite app_assoc.
    - exists extra. by rewrite lookup_insert_ne. }
  split; [done|].
  intros b m Hle. destruct (decide (a = b)) as [->|Hne].
  - rewrite lookup_insert_eq. intros [= <-]. simpl. by eapply Hkinds.
  - rewrite lookup_insert_ne by done. by apply Hkinds.
Qed.

Lemma setAttr_kept a name x :
  (g_next g0 <= a)%N ->
  triple (kept g0) (setAttr a name x) (fun _ => kept g0) (fun _ => kept g0).
Proof using Hfresh0.
  intros Ha g Hg. unfold setAttr, update.
  destruct (g_heap g !! a) as [n|] eqn:Hn; [|done].
  destruct Hg as (Hnext & Hsub & Hheap & Hlinked & Hkinds).
  simpl. unfold kept. cbn [g_heap g_nodes g_next].
  split; [done|]. split; [done|]. split.
  { intros b m Hm. destruct (Hheap b m Hm) as [extra Hextra].
    exists extra. rewrite lookup_insert_ne; [done|].
    apply Hfresh0 in Hm. lia. }
  split; [done|].
  intros b m Hle. destruct (decide (a = b)) as [->|Hne].
  - rewrite lookup_insert_eq. intros [= <-]. simpl. by eapply Hkinds.
  - rewrite lookup_insert_ne by done. by apply Hkinds.
Qed.

Lemma insertBefore_kept a n :
  (g_next g0 <= a)%N ->
  triple (kept g0) (insertBefore a n) (fun _ => kept g0) (fun _ => kept g0).
Proof.
  intros Ha g Hg. unfold insertBefore.
  pose proof Hg as (Hnext & Hsub & Hheap & Hlinked & Hkinds).
  destruct n as [target|].
  - destruct (insert_before a target (g_nodes g)) as [l|] eqn:Hl; [|done].
    apply insert_before_sublist in Hl as [Hl Hin].
    split; [done|]. split; [by etrans|]. split; [done|]. split; [|done].
    simpl. intros b [-> |Hb]%Hin; [by right|by apply Hlinked].
  - split; [done|]. split; [simpl; by apply sublist_inserts_r|].
    split; [done|]. split; [|done].
    simpl. intros b [Hb|Hb%list_elem_of_singleton]%elem_of_app;
      [by apply Hlinked|subst; by right].
Qed.

Ltac kept_step :=
  eapply (triple_bind _ _ (fun _ => kept g0)); [|intros ?].

Lemma turn_kept storage total e :
  triple (kept g0) (insertAllocTensorNode storage total e)
    (fun _ => kept g0) (fun _ => kept g0).
Proof using Hfresh0.
  unfold insertAllocTensorNode.
  eapply triple_bind; [apply create_kept; by right|].
  intros alloc. apply triple_assume. intros Halloc.
  kept_step; [apply output_kept|].
  kept_step; [apply addInput_kept|].
  kept_step; [by apply insertBefore_kept|].
  kept_step; [apply output_kept|].
  kept_step; [apply addInput_kept|].
  kept_step.
  { unfold expectTensorType. case_match;
      [by apply triple_ret|by apply triple_throw]. }
  cbv zeta.
  kept_step.
  { unfold TORCH_CHECK. case_match;
      [by apply triple_ret|by apply triple_throw]. }
  do 4 (kept_step; [by apply setAttr_kept|]).
  kept_step; [apply i_kept|].
  kept_step; [by apply setAttr_kept|].
  kept_step.
  { unfold value. case_match; [by apply triple_ret|by apply triple_throw]. }
  by apply setAttr_kept.
Qed.

Lemma insertAllocTensorNodes_kept storage (plan : Allocations) :
  triple (kept g0) (insertAllocTensorNodes storage plan)
    (fun _ => kept g0) (fun _ => kept g0).
Proof using Hfresh0.
  unfold insertAllocTensorNodes.
  kept_step; [apply i_kept|].
  apply triple_for_each. intros e _. apply turn_kept.
Qed.

Lemma insertAllocStorageNode_kept pickDeviceType total_size :
  triple (kept g0) (insertAllocStorageNode pickDeviceType total_size)
    (fun _ => kept g0) (fun _ => kept g0).
Proof using Hfresh0.
  unfold insertAllocStorageNode.
  eapply triple_bind; [apply create_kept; by left|].
  intros storage. apply triple_assume. intros Hstorage.
  kept_step; [by apply setAttr_kept|].
  kept_step; [by intros g Hg|].
  kept_step; [case_match; by apply setAttr_kept|].
  kept_step; [by intros g Hg|].
  kept_step; [by apply insertBefore_kept|].
  by apply triple_ret.
Qed.

End Kept.

Section Frame.

Variable elementSize : ScalarType -> Z.
Variable getAllOperatorsFor : string -> list Operator.
Variable isOptimizableContainerType : Node -> bool.
Variable pickDeviceType : list (N * Node) -> option DeviceType.
Variable GetAlwaysAliveValues : Graph -> gset N.
Variable GetLiveness : Graph -> gset N -> ManagedRanges.
Variable greedyBySize : ManagedSizes -> ManagedRanges -> Allocations.
Variable linearScanHeuristic : ManagedSizes -> ManagedRanges -> Allocations.
Variable greedyByOperatorBreadth :
  ManagedSizes -> ManagedRanges -> list (N * Node) -> Allocations.

(** X2. Whatever the plan and whether planMemory returns or throws, the
    graph it leaves still links every node of the input graph, in the
    same order; each of them keeps its kind, outputs and attributes and
    its inputs, to which binding outputs may have been appended; and the
    only nodes added are prim::AllocateStorage and prim::AllocateTensor
    nodes at fresh addresses. *)
Theorem planMemory_keeps_the_graph (strat : Strategy) (graph : Graph) :
  (forall a n, g_heap graph !! a = Some n -> (a < g_next graph)%N) ->
  kept graph
    (planMemory elementSize getAllOperatorsFor isOptimizableContainerType
       pickDeviceType GetAlwaysAliveValues GetLiveness greedyBySize
       linearScanHeuristic greedyByOperatorBreadth strat graph).1.
Proof.
  intros Hfresh. rewrite planMemory_unfold.
  destruct (selectAllocations _ _ _ _ _ _ _) as [plan|];
    [|by apply kept_refl].
  assert (triple (kept graph)
            (storage_node ← insertAllocStorageNode pickDeviceType
                              (getTotalAllocationSize plan);
             insertAllocTensorNodes storage_node plan)
            (fun _ => kept graph) (fun _ => kept graph)) as Hrun.
  { eapply triple_bind; [by apply insertAllocStorageNode_kept|].
    intros storage. by apply insertAllocTensorNodes_kept. }
  specialize (Hrun graph (kept_refl graph Hfresh)).
  revert Hrun.
  match goal with
  | |- match ?run with _ => _ end -> _ => by destruct run as [g' [[]|e]]
  end.
Qed.

End Frame.

Lemma planMemory_keeps_the_graph_witness :
  kept Example.graph
    (planMemory Example.elementSize Example.registry Example.no_container
       Example.no_device Example.nothing_pinned Example.liveness
       Example.stack2 Example.stack2 Example.stack3 LINEAR_SCAN
       Example.graph).1.
Proof.
  apply planMemory_keeps_the_graph.
  intros a n. exact (wf_graph_fresh Example.graph a n example_graph_wf).
Defined.

(** ** The total of a plan in parts *)

Lemma running_max_from (plan : Allocations) (acc : Z) :
  0 <= acc ->
  running_max acc plan = Z.max acc (getTotalAllocationSize plan).
Proof.
  unfold getTotalAllocationSize. revert acc.
  induction plan as [|e plan IH]; intros acc Hacc; simpl; [lia|].
  pose proof (region_end_nonneg e.2) as He.
  rewrite (IH (Z.max acc (region_end e.2))) by lia.
  rewrite (IH (Z.max 0 (region_end e.2))) by lia. lia.
Qed.

(** X3. The total of a plan made of two parts is the larger of the totals
    of the parts. *)
Theorem getTotalAllocationSize_app (p q : Allocations) :
  getTotalAllocationSize (p ++ q) =
  Z.max (getTotalAllocationSize p) (getTotalAllocationSize q).
Proof.
  unfold getTotalAllocationSize at 1. rewrite fold_left_app.
  apply running_max_from. apply getTotalAllocationSize_range.
Qed.

(** ** The extents getSizesStrides reports *)

(** X4. The extents that getSizesStrides returns are never the empty
    list, and they start with 0 only when they are [0]: a tensor type
    that reports no dimension at all, or an empty leading dimension, is
    recorded with the single extent 0 whatever its rank. *)
Theorem getSizesStrides_sizes_shape (ttp : TensorType) :
  (getSizesStrides ttp).1 <> [] /\
  (forall rest, (getSizesStrides ttp).1 = 0 :: rest -> rest = []) /\
  (sizes_concrete ttp = Some [] -> (getSizesStrides ttp).1 = [0]) /\
  (forall rest, sizes_concrete ttp = Some (0 :: rest) ->
     (getSizesStrides ttp).1 = [0]) /\
  (forall x rest, sizes_concrete ttp = Some (x :: rest) -> x <> 0 ->
     (getSizesStrides ttp).1 = x :: rest).
Proof.
  unfold getSizesStrides. cbn [fst].
  destruct (sizes_concrete ttp) as [[|x rest]|]; cbn [usable default].
  - split; [done|]. split; [by intros ? [= <-]|]. done.
  - destruct (Z.eqb_spec x 0) as [->|Hx]; cbn [negb].
    + split; [done|]. split; [by intros ? [= <-]|]. split; [done|].
      split; [done|]. by intros ? ? [= <- <-].
    + split; [done|]. split; [by intros ? [= ? ?]|]. split; [done|].
      split; [by intros ? [= ? ?]|]. by intros ? ? [= <- <-].
  - split; [done|]. split; [by intros ? [= <-]|]. done.
Qed.

(** ** The ranges handed to the strategies *)

Lemma count_key_not_in_keys {A} (v : Value) (m : list (Value * A)) :
  v_unique v ∉ keys m -> count_key v m = false.
Proof.
  intros Hv. destruct (count_key v m) eqn:Hc; [|done].
  apply count_key_true in Hc as (e & He & Heq). destruct Hv.
  rewrite <- Heq. unfold keys. apply list_elem_of_fmap. by exists e.
Qed.

Lemma restrict_ranges_filter (sizes : ManagedSizes)
    (live_ranges acc : list (Value * LiveRange)) :
  NoDup (keys (acc ++ live_ranges)) ->
  fold_left
    (fun acc lvr =>
       if count_key lvr.1 sizes then map_insert lvr.1 lvr.2 acc else acc)
    live_ranges acc =
  acc ++ filter (fun e => count_key e.1 sizes = true) live_ranges.
Proof.
  revert acc. induction live_ranges as [|[v r] live IH]; intros acc Hnd.
  - cbn. by rewrite app_nil_r.
  - cbn [fold_left fst snd]. destruct (count_key v sizes) eqn:Hv.
    + rewrite filter_cons_True by done.
      assert (count_key v acc = false) as Hfresh.
      { apply count_key_not_in_keys. unfold keys in *.
        rewrite fmap_app, fmap_cons in Hnd.
        apply NoDup_app in Hnd as (_ & Hdisj & _).
        intros Hin. apply (Hdisj _ Hin). by left. }
      unfold map_insert. rewrite Hfresh.
      rewrite IH; [by rewrite <- app_assoc|].
      by rewrite <- app_assoc.
    + rewrite filter_cons_False by (cbn [fst]; by rewrite Hv).
      apply IH. unfold keys in *.
      rewrite fmap_app, fmap_cons in Hnd. rewrite fmap_app.
      apply NoDup_app in Hnd as (Hacc & Hdisj & Hlive).
      apply NoDup_app. split; [done|]. split.
      * intros x Hx Hin. apply (Hdisj x Hx). by right.
      * by apply NoDup_cons in Hlive as [_ ?].
Qed.

Section Restriction.

Variable elementSize : ScalarType -> Z.
Variable getAllOperatorsFor : string -> list Operator.
Variable isOptimizableContainerType : Node -> bool.
Variable GetAlwaysAliveValues : Graph -> gset N.
Variable GetLiveness : Graph -> gset N -> ManagedRanges.

(** X5. The liveness map having one entry per value, the ranges that
    getManagedStuff returns have one entry per value too, and their
    entries are the liveness entries of the managed values: each of them
    is an entry of the liveness map for a value with a managed size, and
    each such entry of the liveness map is among them. *)
Theorem managed_ranges_restrict_liveness (graph : Graph) :
  NoDup (keys (GetLiveness graph (GetAlwaysAliveValues graph))) ->
  (forall e,
     e ∈ (getManagedStuff elementSize getAllOperatorsFor
            isOptimizableContainerType GetAlwaysAliveValues GetLiveness
            graph).2 <->
     e ∈ GetLiveness graph (GetAlwaysAliveValues graph) /\
     count_key e.1
       (getManagedStuff elementSize getAllOperatorsFor
          isOptimizableContainerType GetAlwaysAliveValues GetLiveness
          graph).1.2 = true) /\
  NoDup
    (keys (getManagedStuff elementSize getAllOperatorsFor
             isOptimizableContainerType GetAlwaysAliveValues GetLiveness
             graph).2).
Proof.
  intros Hnd. split; [|apply managed_ranges_keys].
  intros e. unfold getManagedStuff.
  destruct (getManagedValues _ _ _ _ _) as [outs sizes]. cbn [fst snd].
  rewrite (restrict_ranges_filter sizes _ []) by done.
  cbn [app]. rewrite list_elem_of_filter. tauto.
Qed.

End Restriction.

Lemma managed_ranges_restrict_liveness_witness :
  (Example.x, mkLiveRange 0 1) ∈
    (getManagedStuff Example.elementSize Example.registry
       Example.no_container Example.nothing_pinned Example.liveness
       Example.graph).2.
Proof.
  apply (managed_ranges_restrict_liveness Example.elementSize
           Example.registry Example.no_container Example.nothing_pinned
           Example.liveness Example.graph).
  - by apply (bool_decide_unpack _).
  - split; [|done]. unfold Example.liveness. left.
Defined.

(** ** Pinning more values *)

Lemma count_key_filter_keys {A} (v : Value) (extra : gset N)
    (m : list (Value * A)) :
  v_unique v ∉ extra ->
  count_key v (filter (fun e => v_unique e.1 ∉ extra) m) = count_key v m.
Proof.
  intros Hv. induction m as [|e m IH]; [done|].
  destruct (decide (v_unique e.1 ∈ extra)) as [He|He].
  - rewrite filter_cons_False by (intros ?; done).
    rewrite IH. unfold count_key. cbn [existsb].
    destruct (N.eqb_spec (v_unique e.1) (v_unique v)) as [Heq|]; [|done].
    rewrite Heq in He. done.
  - rewrite filter_cons_True by done.
    unfold count_key in *. cbn [existsb]. by rewrite IH.
Qed.

Lemma map_insert_filter_keys {A} (v : Value) (a : A) (extra : gset N)
    (m : list (Value * A)) :
  filter (fun e => v_unique e.1 ∉ extra) (map_insert v a m) =
  if bool_decide (v_unique v ∈ extra)
  then filter (fun e => v_unique e.1 ∉ extra) m
  else map_insert v a (filter (fun e => v_unique e.1 ∉ extra) m).
Proof.
  unfold map_insert. case_bool_decide as Hv.
  - destruct (count_key v m); [done|].
    rewrite filter_app, filter_cons_False by (intros ?; done).
    by rewrite filter_nil, app_nil_r.
  - rewrite count_key_filter_keys by done.
    destruct (count_key v m); [done|].
    by rewrite filter_app, filter_cons_True.
Qed.

Section Pinning.

Variable elementSize : ScalarType -> Z.
Variable getAllOperatorsFor : string -> list Operator.
Variable isOptimizableContainerType : Node -> bool.
Variables always_alive extra : gset N.

(** Two states of the collector that differ by the values in [extra]. *)
Local Abbreviation narrowed c' c :=
  (out_nodes c' = out_nodes c /\
   managed_tensor_values c' =
   filter (fun e => v_unique e.1 ∉ extra) (managed_tensor_values c)).

Lemma visit_output_narrowed node c' c out_v :
  narrowed c' c ->
  narrowed
    (visit_output elementSize isOptimizableContainerType
       (always_alive ∪ extra) node c' out_v)
    (visit_output elementSize isOptimizableContainerType
       always_alive node c out_v).
Proof.
  intros [Houts Hmanaged]. unfold visit_output, ManagedSizes in *.
  destruct (decide (v_unique out_v ∈ always_alive)) as [Haa|Haa].
  { rewrite !bool_decide_eq_true_2; [done|done|apply elem_of_union; by left]. }
  rewrite (bool_decide_eq_false_2 (_ ∈ always_alive)) by done.
  destruct (decide (v_unique out_v ∈ extra)) as [Hex|Hex].
  - rewrite bool_decide_eq_true_2 by (apply elem_of_union; by right).
    repeat case_match; cbn [out_nodes managed_tensor_values]; try done.
    split; [done|]. rewrite map_insert_filter_keys.
    by rewrite bool_decide_eq_true_2.
  - rewrite bool_decide_eq_false_2 by (intros [?|?]%elem_of_union; done).
    repeat case_match; cbn [out_nodes managed_tensor_values]; try done.
    split; [done|]. rewrite map_insert_filter_keys.
    rewrite bool_decide_eq_false_2 by done. by rewrite Hmanaged.
Qed.

Lemma visit_outputs_narrowed node outs c' c :
  narrowed c' c ->
  narrowed
    (fold_left (visit_output elementSize isOptimizableContainerType
                  (always_alive ∪ extra) node) outs c')
    (fold_left (visit_output elementSize isOptimizableContainerType
                  always_alive node) outs c).
Proof.
  revert c' c. induction outs as [|v outs IH]; intros c' c Hc; [done|].
  simpl. by apply IH, visit_output_narrowed.
Qed.

Lemma visit_nodes_narrowed l c' c :
  narrowed c' c ->
  narrowed
    (fold_left (visit_node elementSize getAllOperatorsFor
                  isOptimizableContainerType (always_alive ∪ extra)) l c')
    (fold_left (visit_node elementSize getAllOperatorsFor
                  isOptimizableContainerType always_alive) l c).
Proof.
  revert c' c. induction l as [|an l IH]; intros c' c Hc; [done|].
  simpl. apply IH. unfold visit_node.
  destruct (hasOutVariant getAllOperatorsFor an.2); [|done].
  apply visit_outputs_narrowed. destruct Hc as [Houts Hmanaged].
  cbn [out_nodes managed_tensor_values]. by rewrite Houts.
Qed.

(** X6. Pinning further values as always alive removes their entries
    from the managed map and changes nothing else: the entries of the
    other values are the same, with the same sizes, and the list of
    out-variant nodes is the same. *)
Theorem pinning_more_values_only_drops_them (graph : Graph) :
  (forall e,
     e ∈ (getManagedValues elementSize getAllOperatorsFor
            isOptimizableContainerType graph (always_alive ∪ extra)).2 <->
     e ∈ (getManagedValues elementSize getAllOperatorsFor
            isOptimizableContainerType graph always_alive).2 /\
     v_unique e.1 ∉ extra) /\
  (getManagedValues elementSize getAllOperatorsFor
     isOptimizableContainerType graph (always_alive ∪ extra)).1 =
  (getManagedValues elementSize getAllOperatorsFor
     isOptimizableContainerType graph always_alive).1.
Proof.
  unfold getManagedValues, collect. cbn [fst snd].
  destruct (visit_nodes_narrowed (nodes graph)
              (mkCollected [] [] []) (mkCollected [] [] [])) as [Houts Hm];
    [done|].
  split; [|done]. intros e. rewrite Hm, list_elem_of_filter. tauto.
Qed.

End Pinning.

(** ** The storage node on any graph *)

(** X8. insertAllocStorageNode returns on every graph: the new node sits
    at the fresh address and is linked first, the other node objects are
    untouched, and the loop of insertAllocTensorNodes then runs with the
    very total the node was given, also when the total is 2^63 or more
    and the attribute that carries it is negative. *)
Theorem insertAllocStorageNode_records_the_total
    (pickDeviceType : list (N * Node) -> option DeviceType)
    (g : Graph) (total_size : Z) (plan : Allocations) :
  0 <= total_size < 2 ^ 64 ->
  exists g',
    insertAllocStorageNode pickDeviceType total_size g =
      (g', Return (g_next g)) /\
    g_nodes g' = g_next g :: g_nodes g /\
    g_next g' = (g_next g + 1)%N /\
    (forall a, a <> g_next g -> g_heap g' !! a = g_heap g !! a) /\
    i (g_next g) "total_size" g' = (g', Return (wrap_i64 total_size)) /\
    insertAllocTensorNodes (g_next g) plan g' =
      for_each (insertAllocTensorNode (g_next g) total_size) plan g'.
Proof.
  intros Hrange.
  destruct (storage_node_any pickDeviceType g total_size)
    as (device & Hrun & _).
  eexists. split; [exact Hrun|]. cbn [g_nodes g_next g_heap].
  split; [done|]. split; [done|]. split.
  { intros a Ha. by rewrite lookup_insert_ne. }
  assert (forall g1 : Graph,
            g_heap g1 !! g_next g =
              Some (mkNode AllocateStorage [] [out_value (g_next g)]
                      (storage_attrs total_size device)) ->
            i (g_next g) "total_size" g1 =
              (g1, Return (wrap_i64 total_size))) as Hread.
  { intros g1 Hg1. unfold i, deref, mbind, Pass_bind, bind, ret.
    by rewrite Hg1. }
  split; [apply Hread; simpl; by rewrite lookup_insert_eq|].
  unfold insertAllocTensorNodes.
  unfold mbind at 1, Pass_bind at 1, bind at 1.
  rewrite Hread by (simpl; by rewrite lookup_insert_eq).
  cbv zeta. rewrite wrap_u64_i64. unfold wrap_u64.
  by rewrite Z.mod_small.
Qed.

Lemma insertAllocStorageNode_records_the_total_witness :
  exists g',
    insertAllocStorageNode Example.no_device 40 Example.graph =
      (g', Return 20%N) /\
    i 20 "total_size" g' = (g', Return 40).
Proof.
  destruct (insertAllocStorageNode_records_the_total Example.no_device
              Example.graph 40 []) as (g' & Hrun & _ & _ & _ & Hread & _);
    [done|].
  exists g'. split; [exact Hrun|exact Hread].
Defined.

Section EmptyPlan.

Variable elementSize : ScalarType -> Z.
Variable getAllOperatorsFor : string -> list Operator.
Variable isOptimizableContainerType : Node -> bool.
Variable pickDeviceType : list (N * Node) -> option DeviceType.
Variable GetAlwaysAliveValues : Graph -> gset N.
Variable GetLiveness : Graph -> gset N -> ManagedRanges.
Variable greedyBySize : ManagedSizes -> ManagedRanges -> Allocations.
Variable linearScanHeuristic : ManagedSizes -> ManagedRanges -> Allocations.
Variable greedyByOperatorBreadth :
  ManagedSizes -> ManagedRanges -> list (N * Node) -> Allocations.

(** X9. When the selected strategy plans nothing, planMemory still
    rewrites the graph: it returns after linking, first in the block, a
    prim::AllocateStorage node of 0 bytes, and does nothing else. *)
Theorem planMemory_with_empty_plan (strat : Strategy) (graph : Graph) :
  (let stuff :=
     getManagedStuff elementSize getAllOperatorsFor
       isOptimizableContainerType GetAlwaysAliveValues GetLiveness graph in
   selectAllocations greedyBySize linearScanHeuristic
     greedyByOperatorBreadth strat stuff.1.1 stuff.1.2 stuff.2) = Some [] ->
  exists device,
    planMemory elementSize getAllOperatorsFor isOptimizableContainerType
      pickDeviceType GetAlwaysAliveValues GetLiveness greedyBySize
      linearScanHeuristic greedyByOperatorBreadth strat graph =
    (mkGraph
       (<[g_next graph :=
            mkNode AllocateStorage [] [out_value (g_next graph)]
              (storage_attrs 0 device)]> (g_heap graph))
       (g_next graph :: g_nodes graph) (g_next graph + 1)%N,
     Return tt).
Proof.
  cbv zeta. intros Hplan. rewrite planMemory_unfold, Hplan.
  change (getTotalAllocationSize []) with 0.
  destruct (storage_node_any pickDeviceType graph 0) as (device & Hrun & _).
  exists device. unfold mbind at 1, Pass_bind at 1, bind at 1. rewrite Hrun.
  unfold insertAllocTensorNodes, i, deref, mbind, Pass_bind, bind, ret.
  cbn [g_heap]. rewrite lookup_insert_eq. by cbn.
Qed.

End EmptyPlan.

Lemma planMemory_with_empty_plan_witness :
  exists device,
    planMemory Example.elementSize Example.registry Example.no_container
      Example.no_device Example.nothing_pinned Example.liveness
      (fun _ _ => []) (fun _ _ => []) (fun _ _ _ => []) GREEDY_BY_SIZE
      Example.graph =
    (mkGraph
       (<[20%N := mkNode AllocateStorage [] [out_value 20]
                    (storage_attrs 0 device)]> (g_heap Example.graph))
       [20; 10; 11; 12]%N 21%N,
     Return tt).
Proof.
  exact (planMemory_with_empty_plan Example.elementSize Example.registry
           Example.no_container Example.no_device Example.nothing_pinned
           Example.liveness (fun _ _ => []) (fun _ _ => [])
           (fun _ _ _ => []) GREEDY_BY_SIZE Example.graph eq_refl).
Defined.

Lemma tensor_node_errors_have_causes_witness :
  exists x sn total,
    x ∈ Example.corrupted /\ g_heap Example.stored !! 20%N = Some sn /\
    n_attrs sn !! "total_size" = Some (AttrInt total) /\
    wrap_u64 total < region_end x.2.
Proof.
  apply (proj2 (tensor_node_errors_have_causes 20 Example.corrupted
                  Example.stored
                  (insertAllocTensorNodes 20 Example.corrupted
                     Example.stored).1)).
  by vm_compute.
Defined.

(** * Properties of the shape functions *)

(** ** Loops and lists *)

Lemma for_in_app {A S} (l1 l2 : list A) (body : A -> S -> option S) s :
  Shape.for_in (l1 ++ l2) body s =
  s' ← Shape.for_in l1 body s; Shape.for_in l2 body s'.
Proof.
  revert s. induction l1 as [|x l1 IH]; intros s; simpl; [done|].
  destruct (body x s) as [s'|]; simpl; [apply IH|done].
Qed.

Lemma for_in_ext {A S} (l : list A) (body body' : A -> S -> option S) s :
  (forall x s, x ∈ l -> body x s = body' x s) ->
  Shape.for_in l body s = Shape.for_in l body' s.
Proof.
  revert s. induction l as [|x l IH]; intros s Hext; simpl; [done|].
  rewrite Hext by left. destruct (body' x s) as [s'|]; simpl; [|done].
  apply IH. intros y s0 Hy. apply Hext. by right.
Qed.

(** A loop that appends what [h] gives for each element. *)
Lemma for_in_gather {A B} (l : list A) (h : A -> option (list B)) out0 :
  Shape.for_in l (fun x out => o ← h x; Some (out ++ o)) out0 =
  (fun parts => out0 ++ concat parts) <$> mapM h l.
Proof.
  revert out0. induction l as [|x l IH]; intros out0; simpl.
  - by rewrite app_nil_r.
  - destruct (h x) as [o|]; simpl; [|done]. rewrite IH.
    destruct (mapM h l) as [parts|]; simpl; [|done].
    by rewrite app_assoc.
Qed.

Lemma len_nonneg {A} (l : list A) : 0 <= Shape.len l.
Proof. unfold Shape.len. lia. Qed.

Lemma getitem_in_range (l : list Z) (i : Z) :
  0 <= i < Shape.len l -> Shape.getitem l i = l !! Z.to_nat i.
Proof.
  intros Hi. unfold Shape.getitem.
  destruct (Z.ltb_spec i 0); [lia|].
  destruct (Z.leb_spec 0 i); [|lia].
  destruct (Z.ltb_spec i (Shape.len l)); [done|lia].
Qed.

Lemma getitem_from_end (l : list Z) (i : Z) :
  - Shape.len l <= i < 0 ->
  Shape.getitem l i = l !! Z.to_nat (Shape.len l + i).
Proof.
  intros Hi. unfold Shape.getitem.
  destruct (Z.ltb_spec i 0); [|lia].
  destruct (Z.leb_spec 0 (Shape.len l + i)); [|lia].
  destruct (Z.ltb_spec (Shape.len l + i) (Shape.len l)); [done|lia].
Qed.

Lemma getitem_out_of_range (l : list Z) (i : Z) :
  i < - Shape.len l \/ Shape.len l <= i -> Shape.getitem l i = None.
Proof.
  intros Hi. unfold Shape.getitem. pose proof (len_nonneg l).
  destruct (Z.ltb_spec i 0).
  - destruct (Z.leb_spec 0 (Shape.len l + i)); [lia|done].
  - destruct (Z.ltb_spec i (Shape.len l)); [lia|].
    by rewrite andb_false_r.
Qed.

Lemma getitem_nat (l : list Z) (k : nat) (x : Z) :
  l !! k = Some x -> Shape.getitem l (Z.of_nat k) = Some x.
Proof.
  intros Hk. rewrite getitem_in_range.
  - by rewrite Nat2Z.id.
  - apply lookup_lt_Some in Hk. unfold Shape.len. lia.
Qed.

(** Reading a list position by position gives the list back, with what
    [f] makes of each position and element. *)
Lemma for_in_positions (l : list Z) (f : Z -> Z -> list Z)
    (first : nat) (out0 : list Z) (whole : list Z) :
  drop first whole = l ->
  Shape.for_in (seqZ (Z.of_nat first) (Shape.len l))
    (fun i out => x ← Shape.getitem whole i; Some (out ++ f i x)) out0 =
  Some (out0 ++
        concat (imap (fun k x => f (Z.of_nat (first + k)) x) l)).
Proof.
  revert first out0. induction l as [|x l IH]; intros first out0 Hdrop.
  - simpl. by rewrite app_nil_r.
  - unfold Shape.len. cbn [length]. rewrite Nat2Z.inj_succ.
    rewrite seqZ_cons by lia. cbn [Shape.for_in].
    assert (whole !! first = Some x) as Hx.
    { rewrite <- (Nat.add_0_r first), <- lookup_drop, Hdrop. done. }
    rewrite (getitem_nat _ _ _ Hx). cbn [mbind option_bind].
    replace (Z.succ (Z.of_nat first)) with (Z.of_nat (S first)) by lia.
    replace (Z.pred (Z.succ (Z.of_nat (length l)))) with (Shape.len l)
      by (unfold Shape.len; lia).
    rewrite (IH (S first)).
    + cbn [imap concat]. rewrite Nat.add_0_r, <- app_assoc.
      do 4 f_equal. apply imap_ext. intros k y _. simpl.
      do 2 f_equal. lia.
    + replace (S first) with (first + 1)%nat by lia.
      by rewrite <- drop_drop, Hdrop.
Qed.

Lemma for_in_elements (l : list Z) (f : Z -> Z -> list Z) :
  Shape.for_in (Shape.range (Shape.len l))
    (fun i out => x ← Shape.getitem l i; Some (out ++ f i x)) [] =
  Some (concat (imap (fun k x => f (Z.of_nat k) x) l)).
Proof.
  unfold Shape.range. exact (for_in_positions l f 0 [] l eq_refl).
Qed.

Lemma concat_singletons {A} (l : list A) :
  concat (imap (fun _ x => [x]) l) = l.
Proof.
  induction l as [|x l IH]; [done|]. cbn [imap concat]. simpl.
  f_equal. etrans; [|exact IH]. f_equal.
Qed.

Lemma copy_elements (l : list Z) :
  Shape.for_in (Shape.range (Shape.len l))
    (fun i out => x ← Shape.getitem l i; Some (out ++ [x])) [] = Some l.
Proof.
  rewrite (for_in_elements l (fun _ x => [x])).
  by rewrite concat_singletons.
Qed.

Lemma for_in_append_each (l : list Z) (out0 : list Z) :
  Shape.for_in l (fun elem out => Some (out ++ [elem])) out0 =
  Some (out0 ++ l).
Proof.
  revert out0. induction l as [|x l IH]; intros out0; simpl.
  - by rewrite app_nil_r.
  - by rewrite IH, <- app_assoc.
Qed.

(** ** maybe_wrap_dim *)

Ltac compare_cases :=
  repeat match goal with
  | |- context [Z.ltb ?a ?b] => destruct (Z.ltb_spec a b)
  | |- context [Z.leb ?a ?b] => destruct (Z.leb_spec a b)
  | |- context [Z.eqb ?a ?b] => destruct (Z.eqb_spec a b)
  end.

Lemma maybe_wrap_dim_eq (dim dim_post_expr : Z) :
  Shape.maybe_wrap_dim dim dim_post_expr true =
  if (- Z.max dim_post_expr 1 <=? dim) && (dim <? Z.max dim_post_expr 1)
  then Some (if dim <? 0 then dim + Z.max dim_post_expr 1 else dim)
  else None.
Proof.
  unfold Shape.maybe_wrap_dim, Shape.assert_that.
  destruct (Z.leb_spec dim_post_expr 0).
  - rewrite Z.max_r by lia. cbn [mbind option_bind].
    compare_cases; simpl; try done; lia.
  - rewrite Z.max_l by lia. cbn [mbind option_bind].
    compare_cases; simpl; try done; lia.
Qed.

(** X10. maybe_wrap_dim accepts a position exactly when it lies between
    -n and n - 1, n being the rank or 1 when the rank is not positive, and
    then returns the position counted from the start, which lies between
    0 and n - 1.  With wrap_scalar off it raises for a rank that is not
    positive. *)
Theorem maybe_wrap_dim_spec (dim dim_post_expr : Z) :
  (forall r,
     Shape.maybe_wrap_dim dim dim_post_expr true = Some r <->
     - Z.max dim_post_expr 1 <= dim < Z.max dim_post_expr 1 /\
     r = dim mod Z.max dim_post_expr 1) /\
  (forall r,
     Shape.maybe_wrap_dim dim dim_post_expr true = Some r ->
     0 <= r < Z.max dim_post_expr 1) /\
  (dim_post_expr <= 0 ->
   Shape.maybe_wrap_dim dim dim_post_expr false = None).
Proof.
  assert (forall r,
     Shape.maybe_wrap_dim dim dim_post_expr true = Some r <->
     - Z.max dim_post_expr 1 <= dim < Z.max dim_post_expr 1 /\
     r = dim mod Z.max dim_post_expr 1) as Hspec.
  { intros r. rewrite maybe_wrap_dim_eq.
    set (n := Z.max dim_post_expr 1). assert (1 <= n) as Hn by lia.
    clearbody n.
    destruct (Z.leb_spec (- n) dim), (Z.ltb_spec dim n); simpl;
      try (split; [done|lia]).
    destruct (Z.ltb_spec dim 0).
    - rewrite <- (Z_mod_plus_full dim 1 n), Z.mod_small by lia.
      split; [intros [= <-]; lia|intros [_ ->]; f_equal; lia].
    - rewrite Z.mod_small by lia.
      split; [by intros [= <-]|by intros [_ ->]]. }
  split; [exact Hspec|]. split.
  - intros r [_ ->]%Hspec. apply Z.mod_pos_bound. lia.
  - intros Hd. unfold Shape.maybe_wrap_dim.
    destruct (Z.leb_spec dim_post_expr 0); [done|lia].
Qed.

(** ** check_non_negative *)

Lemma check_non_negative_from (array : list Z) (flag : bool) :
  fold_left (fun non_negative val => if val <? 0 then true else non_negative)
    array flag = flag || bool_decide (Exists (fun val => val < 0) array).
Proof.
  revert flag. induction array as [|x array IH]; intros flag; simpl.
  - by rewrite orb_false_r.
  - rewrite IH. destruct (Z.ltb_spec x 0) as [Hx|Hx].
    + rewrite (bool_decide_eq_true_2 (Exists _ (x :: array)))
        by (by apply Exists_cons_hd).
      by rewrite orb_true_r.
    + f_equal. apply bool_decide_ext. rewrite Exists_cons. split.
      * by right.
      * intros [?|?]; [lia|done].
Qed.

(** X11. check_non_negative answers True exactly when the list has a
    negative element, and False on a list without one, the empty list
    included. *)
Theorem check_non_negative_finds_a_negative (array : list Z) :
  Shape.check_non_negative array = true <->
  exists val, val ∈ array /\ val < 0.
Proof.
  unfold Shape.check_non_negative. rewrite check_non_negative_from.
  rewrite orb_false_l, bool_decide_eq_true. apply Exists_exists.
Qed.

(** ** broadcast *)

Lemma for_in_lookup {A B} (whole l : list A) (h : A -> option B)
    (first : nat) (out0 : list B) :
  drop first whole = l ->
  Shape.for_in (seqZ (Z.of_nat first) (Shape.len l))
    (fun i out => x ← whole !! Z.to_nat i; o ← h x; Some (out ++ [o]))
    out0 =
  (fun rest => out0 ++ rest) <$> mapM h l.
Proof.
  revert first out0. induction l as [|x l IH]; intros first out0 Hdrop.
  - simpl. by rewrite app_nil_r.
  - unfold Shape.len. cbn [length]. rewrite Nat2Z.inj_succ.
    rewrite seqZ_cons by lia. cbn [Shape.for_in].
    assert (whole !! first = Some x) as Hx.
    { rewrite <- (Nat.add_0_r first), <- lookup_drop, Hdrop. done. }
    rewrite Nat2Z.id, Hx. cbn [mbind option_bind mapM].
    destruct (h x) as [o|]; cbn [mbind option_bind]; [|done].
    replace (Z.succ (Z.of_nat first)) with (Z.of_nat (S first)) by lia.
    replace (Z.pred (Z.succ (Z.of_nat (length l)))) with (Shape.len l)
      by (unfold Shape.len; lia).
    rewrite (IH (S first)).
    + destruct (mapM h l) as [rest|]; simpl; [|done].
      by rewrite <- app_assoc.
    + replace (S first) with (first + 1)%nat by lia.
      by rewrite <- drop_drop, Hdrop.
Qed.

(** The size one dimension gets from the sizes of the two operands. *)
Local Abbreviation expanded_size :=
  (fun xy : Z * Z =>
     if negb (xy.1 =? xy.2) && negb (xy.1 =? 1) && negb (xy.2 =? 1)
     then None
     else Some (if xy.1 =? 1 then xy.2 else xy.1)).

Lemma padded_lookup (a : list Z) (n : nat) (i : Z) :
  (length a <= n)%nat -> 0 <= i < Z.of_nat n ->
  (if 0 <=? Shape.len a - 1 - (Z.of_nat n - 1 - i)
   then Shape.getitem a (Shape.len a - 1 - (Z.of_nat n - 1 - i))
   else Some 1) =
  (replicate (n - length a) 1 ++ a) !! Z.to_nat i.
Proof.
  intros Hn Hi. unfold Shape.len.
  destruct (Z.leb_spec 0 (Z.of_nat (length a) - 1 - (Z.of_nat n - 1 - i))).
  - rewrite getitem_in_range by (unfold Shape.len; lia).
    rewrite lookup_app_r by (rewrite length_replicate; lia).
    rewrite length_replicate. f_equal. lia.
  - rewrite lookup_app_l by (rewrite length_replicate; lia).
    symmetry. apply lookup_replicate_2. lia.
Qed.

Lemma broadcast_aligned (a b : list Z) :
  Shape.broadcast a b =
  mapM expanded_size
    (zip (replicate (Nat.max (length a) (length b) - length a) 1 ++ a)
         (replicate (Nat.max (length a) (length b) - length b) 1 ++ b)).
Proof.
  set (n := Nat.max (length a) (length b)).
  assert (length a <= n /\ length b <= n)%nat as [Han Hbn]
    by (unfold n; lia).
  set (a' := replicate (n - length a) 1 ++ a).
  set (b' := replicate (n - length b) 1 ++ b).
  assert (length a' = n) as Ha'.
  { unfold a'. rewrite length_app, length_replicate. lia. }
  assert (length b' = n) as Hb'.
  { unfold b'. rewrite length_app, length_replicate. lia. }
  unfold Shape.broadcast. cbv zeta.
  replace (Z.max (Shape.len a) (Shape.len b)) with (Z.of_nat n)
    by (unfold Shape.len, n; lia).
  rewrite (for_in_ext _ _
    (fun i out =>
       xy ← zip a' b' !! Z.to_nat i; o ← expanded_size xy;
       Some (out ++ [o]))).
  - replace (Z.of_nat n) with (Shape.len (zip a' b'))
      by (unfold Shape.len; rewrite length_zip; lia).
    unfold Shape.range.
    etrans;
      [exact (for_in_lookup (zip a' b') (zip a' b') expanded_size 0 []
                eq_refl)|].
    by destruct (mapM _ _).
  - intros i out Hi%elem_of_seqZ.
    rewrite (padded_lookup a n i), (padded_lookup b n i) by lia.
    fold a' b'. rewrite lookup_zip_with.
    destruct (a' !! Z.to_nat i) as [x|]; cbn [mbind option_bind]; [|done].
    destruct (b' !! Z.to_nat i) as [y|]; cbn [mbind option_bind fst snd];
      [|done].
    by destruct (negb (x =? y) && negb (x =? 1) && negb (y =? 1)).
Qed.

(** X12. broadcast lines the two shapes up from the right, the shorter
    one filled with 1 in front, and goes through the pairs of sizes: it
    raises when a pair differs and holds no 1, and otherwise keeps the
    size that is not 1. *)
Theorem broadcast_aligns_from_the_right (a b : list Z) :
  Shape.broadcast a b =
  mapM
    (fun xy : Z * Z =>
       if negb (xy.1 =? xy.2) && negb (xy.1 =? 1) && negb (xy.2 =? 1)
       then None
       else Some (if xy.1 =? 1 then xy.2 else xy.1))
    (zip (replicate (Nat.max (length a) (length b) - length a) 1 ++ a)
         (replicate (Nat.max (length a) (length b) - length b) 1 ++ b)).
Proof. apply broadcast_aligned. Qed.

Lemma mapM_same_sizes (a : list Z) : mapM expanded_size (zip a a) = Some a.
Proof.
  induction a as [|x a IH]; [done|].
  cbn [zip zip_with mapM fst snd]. rewrite Z.eqb_refl. cbn [negb andb].
  cbn [mbind option_bind]. rewrite IH. cbn [mbind option_bind mret option_ret].
  by destruct (x =? 1).
Qed.

Lemma mapM_ones_left (a : list Z) :
  mapM expanded_size (zip (replicate (length a) 1) a) = Some a.
Proof.
  induction a as [|x a IH]; [done|].
  cbn [length replicate zip zip_with mapM fst snd].
  change (1 =? 1) with true. rewrite andb_false_r.
  cbn [andb mbind option_bind]. by rewrite IH.
Qed.

Lemma mapM_ones_right (a : list Z) :
  mapM expanded_size (zip a (replicate (length a) 1)) = Some a.
Proof.
  induction a as [|x a IH]; [done|].
  cbn [length replicate zip zip_with mapM fst snd].
  change (1 =? 1) with true. rewrite andb_false_r.
  cbn [mbind option_bind]. rewrite IH. cbn [mbind option_bind mret option_ret].
  by destruct (Z.eqb_spec x 1) as [->|].
Qed.

Lemma broadcast_nil_r (a : list Z) : Shape.broadcast a [] = Some a.
Proof.
  rewrite broadcast_aligned. cbn [length].
  rewrite Nat.max_0_r, Nat.sub_diag, Nat.sub_0_r, app_nil_r. simpl.
  apply mapM_ones_right.
Qed.

(** X13. broadcast does not depend on the order of its operands, a shape
    broadcasts with itself and with the empty shape to itself, and a
    result has the rank of the longer operand. *)
Theorem broadcast_laws (a b : list Z) :
  Shape.broadcast a b = Shape.broadcast b a /\
  Shape.broadcast a a = Some a /\
  Shape.broadcast a [] = Some a /\
  Shape.broadcast [] a = Some a /\
  (forall r, Shape.broadcast a b = Some r ->
     length r = Nat.max (length a) (length b)).
Proof.
  split.
  { unfold Shape.broadcast. cbv zeta.
    rewrite (Z.max_comm (Shape.len b) (Shape.len a)).
    apply for_in_ext. intros i out _.
    destruct (if 0 <=? Shape.len a - 1 - _ then _ else _) as [x|],
      (if 0 <=? Shape.len b - 1 - _ then _ else _) as [y|];
      cbn [mbind option_bind]; try done.
    compare_cases; simpl; congruence. }
  split.
  { rewrite broadcast_aligned, Nat.max_id, Nat.sub_diag. simpl.
    apply mapM_same_sizes. }
  split; [apply broadcast_nil_r|]. split.
  { rewrite broadcast_aligned. cbn [length].
    rewrite Nat.max_0_l, Nat.sub_diag, Nat.sub_0_r, app_nil_r. simpl.
    apply mapM_ones_left. }
  intros r. rewrite broadcast_aligned. intros Hr%length_mapM.
  rewrite <- Hr, length_zip, !length_app, !length_replicate. lia.
Qed.

(** ** The copying functions *)

Lemma view_from (sizes out0 : list Z) :
  Shape.for_in sizes
    (fun elem out => if elem =? -1 then None else Some (out ++ [elem])) out0 =
  if bool_decide (-1 ∈ sizes) then None else Some (out0 ++ sizes).
Proof.
  revert out0. induction sizes as [|x sizes IH]; intros out0.
  - rewrite bool_decide_eq_false_2 by apply not_elem_of_nil.
    simpl. by rewrite app_nil_r.
  - cbn [Shape.for_in]. destruct (Z.eqb_spec x (-1)) as [->|Hx].
    + rewrite bool_decide_eq_true_2; [done|by left].
    + cbn [mbind option_bind]. rewrite IH, <- app_assoc.
      apply (f_equal (fun c : bool =>
               if c then None else Some (out0 ++ [x] ++ sizes))).
      apply bool_decide_ext. rewrite elem_of_cons. split; [by right|].
      by intros [?|?].
Qed.

(** X14. unary returns its argument and never raises; view returns the
    requested sizes when none of them is -1 and raises when one is. *)
Theorem unary_and_view_copy (self sizes : list Z) :
  Shape.unary self = Some self /\
  (-1 ∉ sizes -> Shape.view self sizes = Some sizes) /\
  (-1 ∈ sizes -> Shape.view self sizes = None).
Proof.
  split; [apply (for_in_append_each self [])|].
  unfold Shape.view. rewrite view_from.
  split; intros Hin; [by rewrite bool_decide_eq_false_2|].
  by rewrite bool_decide_eq_true_2.
Qed.

(** ** Matrix products *)

Lemma assert_that_inv {B} (cond : bool) (rest : option B) (r : B) :
  (Shape.assert_that cond;; rest) = Some r -> cond = true /\ rest = Some r.
Proof. by destruct cond. Qed.

Lemma len_2_inv {A} (l : list A) :
  Shape.len l = 2 -> exists x y, l = [x; y].
Proof.
  unfold Shape.len. destruct l as [|x [|y [|z l]]]; cbn [length]; try lia.
  intros _. by exists x, y.
Qed.

Lemma len_1_inv {A} (l : list A) : Shape.len l = 1 -> exists x, l = [x].
Proof.
  unfold Shape.len. destruct l as [|x [|y l]]; cbn [length]; try lia.
  intros _. by exists x.
Qed.

Ltac shape_compute := cbv -[Z.eqb]; cbn.
Ltac shape_compute_in H := cbv -[Z.eqb] in H; cbn in H.

Lemma mm_matrices (n m m' p : Z) :
  Shape.mm [n; m] [m'; p] = if m =? m' then Some [n; p] else None.
Proof. shape_compute. by destruct (m =? m'). Qed.

(** X15. mm, mv and dot return exactly when the operands have the ranks of
    the product and the contracted sizes are equal; the result is then
    made of the remaining sizes. *)
Theorem products_check_the_contracted_size (a b r : list Z) :
  (Shape.mm a b = Some r <->
   exists n m p, a = [n; m] /\ b = [m; p] /\ r = [n; p]) /\
  (Shape.mv a b = Some r <->
   exists n m, a = [n; m] /\ b = [m] /\ r = [n]) /\
  (Shape.dot a b = Some r <->
   exists n, a = [n] /\ b = [n] /\ r = []).
Proof.
  split; [|split]; split.
  - unfold Shape.mm.
    intros [(n & m & ->)%Z.eqb_eq%len_2_inv H]%assert_that_inv.
    apply assert_that_inv in H as [(m' & p & ->)%Z.eqb_eq%len_2_inv H].
    shape_compute_in H. destruct (Z.eqb_spec m m'); [|done].
    exists n, m, p. by simplify_eq/=.
  - intros (n & m & p & -> & -> & ->). by rewrite mm_matrices, Z.eqb_refl.
  - unfold Shape.mv.
    intros [[(n & m & ->)%Z.eqb_eq%len_2_inv
             (m' & ->)%Z.eqb_eq%len_1_inv]%andb_true_iff H]%assert_that_inv.
    shape_compute_in H. destruct (Z.eqb_spec m m'); [|done].
    exists n, m. by simplify_eq/=.
  - intros (n & m & -> & -> & ->). shape_compute.
    by rewrite Z.eqb_refl.
  - unfold Shape.dot.
    intros [[(n & ->)%Z.eqb_eq%len_1_inv
             (n' & ->)%Z.eqb_eq%len_1_inv]%andb_true_iff H]%assert_that_inv.
    shape_compute_in H. destruct (Z.eqb_spec n n'); [|done].
    exists n. by simplify_eq/=.
  - intros (n & -> & -> & ->). shape_compute.
    by rewrite Z.eqb_refl.
Qed.

(** ** t *)

Lemma t_cases (self : list Z) :
  Shape.t self =
  match self with
  | [] => Some []
  | [x] => Some [x]
  | [x; y] => Some [y; x]
  | _ => None
  end.
Proof.
  unfold Shape.t. destruct self as [|x [|y [|z self]]]; try done.
  unfold Shape.len. cbn [length].
  destruct (Z.leb_spec (Z.of_nat (S (S (S (length self))))) 2); [lia|done].
Qed.

(** X16. t swaps the two sizes of a matrix, returns a shape of rank 0 or
    1 as it is and raises on a higher rank; applied twice it gives the
    shape back. *)
Theorem t_swaps_a_matrix (self : list Z) :
  (forall n m, Shape.t [n; m] = Some [m; n]) /\
  ((length self <= 1)%nat -> Shape.t self = Some self) /\
  ((2 < length self)%nat -> Shape.t self = None) /\
  (forall r, Shape.t self = Some r -> Shape.t r = Some self).
Proof.
  split; [done|]. rewrite t_cases.
  destruct self as [|x [|y [|z self]]]; cbn [length].
  - split; [done|]. split; [lia|]. by intros r [= <-].
  - split; [done|]. split; [lia|]. by intros r [= <-].
  - split; [lia|]. split; [lia|]. by intros r [= <-].
  - split; [lia|]. done.
Qed.

(** ** multiply_integers *)

Lemma wrap_i64_mod (z : Z) : wrap_i64 z mod 2 ^ 64 = z mod 2 ^ 64.
Proof.
  unfold wrap_i64. rewrite Zminus_mod_idemp_l. f_equal. lia.
Qed.

Lemma wrap_i64_same_mod (x y : Z) :
  x mod 2 ^ 64 = y mod 2 ^ 64 -> wrap_i64 x = wrap_i64 y.
Proof.
  intros Heq. unfold wrap_i64.
  rewrite <- (Zplus_mod_idemp_l x), <- (Zplus_mod_idemp_l y).
  by rewrite Heq.
Qed.

Lemma wrap_i64_mul_l (a b : Z) : wrap_i64 (wrap_i64 a * b) = wrap_i64 (a * b).
Proof.
  apply wrap_i64_same_mod.
  by rewrite <- Zmult_mod_idemp_l, wrap_i64_mod, Zmult_mod_idemp_l.
Qed.

Lemma wrap_i64_mul_r (a b : Z) : wrap_i64 (a * wrap_i64 b) = wrap_i64 (a * b).
Proof. by rewrite (Z.mul_comm a), wrap_i64_mul_l, Z.mul_comm. Qed.

Lemma multiply_integers_from (li : list Z) (out : Z) :
  fold_left (fun out elem => Shape.mul64 out elem) li (wrap_i64 out) =
  wrap_i64 (out * foldr Z.mul 1 li).
Proof.
  revert out. induction li as [|x li IH]; intros out; simpl.
  - by rewrite Z.mul_1_r.
  - unfold Shape.mul64 at 2. rewrite wrap_i64_mul_l, IH.
    by rewrite Z.mul_assoc.
Qed.

Lemma multiply_integers_product (li : list Z) :
  Shape.multiply_integers li = wrap_i64 (foldr Z.mul 1 li).
Proof.
  unfold Shape.multiply_integers.
  change 1 with (wrap_i64 1) at 1.
  rewrite multiply_integers_from. f_equal. lia.
Qed.

Lemma product_app (l1 l2 : list Z) :
  foldr Z.mul 1 (l1 ++ l2) = foldr Z.mul 1 l1 * foldr Z.mul 1 l2.
Proof. induction l1 as [|x l1 IH]; simpl; [lia|]. rewrite IH. lia. Qed.

(** X17. multiply_integers is the product of the elements brought into
    the int64 range, the wrap-around of the steps in between leaving no
    trace: it does not depend on the order of the elements, and the
    product of a list in two parts is the product of the two parts'
    products. *)
Theorem multiply_integers_is_the_product (li : list Z) :
  Shape.multiply_integers li = wrap_i64 (foldr Z.mul 1 li) /\
  (forall li', li ≡ₚ li' ->
     Shape.multiply_integers li = Shape.multiply_integers li') /\
  (forall rest,
     Shape.multiply_integers (li ++ rest) =
     Shape.mul64 (Shape.multiply_integers li)
       (Shape.multiply_integers rest)).
Proof.
  split; [apply multiply_integers_product|]. split.
  - intros li' Hperm. rewrite !multiply_integers_product. f_equal.
    induction Hperm as [|x l l' _ IH|x y l|l l' l'' _ IH1 _ IH2]; simpl.
    + done.
    + by rewrite IH.
    + lia.
    + by rewrite IH1.
  - intros rest. rewrite !multiply_integers_product, product_app.
    unfold Shape.mul64. by rewrite wrap_i64_mul_l, wrap_i64_mul_r.
Qed.

(** ** linear *)

(** X18. On a matrix [n, k] and a weight [m, k'], without bias, linear
    returns [n, m] when k and k' are equal and raises otherwise. *)
Theorem linear_of_matrices (n k m k' : Z) :
  Shape.linear [n; k] [m; k'] None =
  if k =? k' then Some [n; m] else None.
Proof.
  unfold Shape.linear. rewrite t_cases. cbn [mbind option_bind].
  unfold Shape.matmul. cbn [Shape.len length]. simpl.
  rewrite mm_matrices. by destruct (k =? k').
Qed.

(** ** transpose *)

Lemma wrapped_in_range (l : list Z) (dim d : Z) :
  Shape.maybe_wrap_dim dim (Shape.len l) true = Some d ->
  l <> [] -> 0 <= d < Shape.len l.
Proof.
  intros Hd Hl. rewrite maybe_wrap_dim_eq in Hd.
  assert (1 <= Shape.len l) as Hlen.
  { unfold Shape.len. destruct l; [done|]. cbn [length]. lia. }
  rewrite Z.max_l in Hd by lia.
  destruct (Z.leb_spec (- Shape.len l) dim), (Z.ltb_spec dim (Shape.len l));
    simpl in Hd; try done.
  destruct (Z.ltb_spec dim 0); simplify_eq; lia.
Qed.

Lemma insert_Permutation (l : list Z) (j : nat) (x y : Z) :
  l !! j = Some y -> y :: <[j := x]> l ≡ₚ x :: l.
Proof.
  revert j. induction l as [|z l IH]; intros j Hy; [done|].
  destruct j as [|j]; simplify_eq/=.
  - apply Permutation_swap.
  - rewrite Permutation_swap, (IH j Hy). apply Permutation_swap.
Qed.

Lemma swap_Permutation (l : list Z) (i j : nat) (x y : Z) :
  l !! i = Some x -> l !! j = Some y -> <[i := y]> (<[j := x]> l) ≡ₚ l.
Proof.
  intros Hx Hy. destruct (decide (i = j)) as [->|Hne].
  { simplify_eq. by rewrite list_insert_insert_eq, list_insert_id. }
  revert i j Hne Hx Hy. induction l as [|z l IH]; intros i j Hne Hx Hy;
    [done|].
  destruct i as [|i], j as [|j]; simplify_eq/=.
  - by apply insert_Permutation.
  - by apply insert_Permutation.
  - apply Permutation_skip, IH; [lia|done|done].
Qed.

Lemma transpose_swap (self : list Z) (dim0 dim1 d0 d1 x0 x1 : Z) :
  Shape.maybe_wrap_dim dim0 (Shape.len self) true = Some d0 ->
  Shape.maybe_wrap_dim dim1 (Shape.len self) true = Some d1 ->
  self !! Z.to_nat d0 = Some x0 ->
  self !! Z.to_nat d1 = Some x1 ->
  Shape.transpose self dim0 dim1 =
  Some (<[Z.to_nat d0 := x1]> (<[Z.to_nat d1 := x0]> self)).
Proof.
  intros Hd0 Hd1 Hx0 Hx1.
  assert (self <> []) as Hne by (by intros ->).
  pose proof (wrapped_in_range _ _ _ Hd0 Hne) as Hr0.
  pose proof (wrapped_in_range _ _ _ Hd1 Hne) as Hr1.
  unfold Shape.transpose. cbv zeta. rewrite Hd0, Hd1.
  cbn [mbind option_bind].
  destruct (Z.eqb_spec d0 d1) as [<-|Hne01].
  { unfold Shape._copy. rewrite for_in_append_each.
    rewrite list_insert_insert_eq. simplify_eq.
    by rewrite list_insert_id. }
  set (r := <[Z.to_nat d0 := x1]> (<[Z.to_nat d1 := x0]> self)).
  assert (Shape.len r = Shape.len self) as Hlen.
  { unfold Shape.len, r. by rewrite !length_insert. }
  rewrite <- Hlen, <- (copy_elements r). apply for_in_ext.
  intros i out Hi%elem_of_seqZ.
  rewrite (getitem_in_range r) by lia.
  rewrite !getitem_in_range by lia. rewrite Hx0, Hx1.
  unfold Shape.len in *.
  destruct (Z.eqb_spec i d0) as [->|Hi0].
  { unfold r. rewrite list_lookup_insert_eq; [done|].
    rewrite length_insert. lia. }
  destruct (Z.eqb_spec i d1) as [->|Hi1].
  { unfold r. rewrite list_lookup_insert_ne by lia.
    rewrite list_lookup_insert_eq; [done|lia]. }
  unfold r. by rewrite !list_lookup_insert_ne by lia.
Qed.

Lemma transpose_inv (self : list Z) (dim0 dim1 : Z) (r : list Z) :
  Shape.transpose self dim0 dim1 = Some r ->
  self = [] /\ r = [] \/
  exists d0 d1 x0 x1,
    Shape.maybe_wrap_dim dim0 (Shape.len self) true = Some d0 /\
    Shape.maybe_wrap_dim dim1 (Shape.len self) true = Some d1 /\
    self !! Z.to_nat d0 = Some x0 /\ self !! Z.to_nat d1 = Some x1 /\
    r = <[Z.to_nat d0 := x1]> (<[Z.to_nat d1 := x0]> self).
Proof.
  intros Hr. destruct self as [|x self].
  { left. split; [done|]. revert Hr. unfold Shape.transpose. cbv zeta.
    rewrite !maybe_wrap_dim_eq. change (Shape.len []) with 0.
    change (Z.max 0 1) with 1.
    compare_cases; cbn [andb mbind option_bind]; try done;
      compare_cases; by intros [= <-]. }
  right. pose proof Hr as Hrun. unfold Shape.transpose in Hr. cbv zeta in Hr.
  destruct (Shape.maybe_wrap_dim dim0 _ true) as [d0|] eqn:Hd0; [|done].
  destruct (Shape.maybe_wrap_dim dim1 _ true) as [d1|] eqn:Hd1; [|done].
  clear Hr.
  pose proof (wrapped_in_range _ _ _ Hd0 ltac:(done)) as Hr0.
  pose proof (wrapped_in_range _ _ _ Hd1 ltac:(done)) as Hr1.
  destruct (lookup_lt_is_Some_2 (x :: self) (Z.to_nat d0)) as [x0 Hx0];
    [unfold Shape.len in *; lia|].
  destruct (lookup_lt_is_Some_2 (x :: self) (Z.to_nat d1)) as [x1 Hx1];
    [unfold Shape.len in *; lia|].
  exists d0, d1, x0, x1. rewrite (transpose_swap _ _ _ _ _ _ _ Hd0 Hd1 Hx0 Hx1)
    in Hrun. by simplify_eq.
Qed.

Lemma transpose_nil_comm (dim0 dim1 : Z) :
  Shape.transpose [] dim0 dim1 = Some [] ->
  Shape.transpose [] dim1 dim0 = Some [].
Proof.
  unfold Shape.transpose. cbv zeta.
  rewrite !maybe_wrap_dim_eq. change (Shape.len []) with 0.
  change (Z.max 0 1) with 1.
  compare_cases; cbn [andb mbind option_bind]; try done;
    compare_cases; done.
Qed.

(** X19. A transposition that returns has exchanged the sizes at the two
    positions, counted from the end when negative, and left the others;
    the same call with the positions exchanged returns the same shape,
    and a second transposition gives the first shape back. *)
Theorem transpose_exchanges_two_sizes
    (self : list Z) (dim0 dim1 : Z) (r : list Z) :
  Shape.transpose self dim0 dim1 = Some r ->
  length r = length self /\
  r ≡ₚ self /\
  Shape.transpose self dim1 dim0 = Some r /\
  Shape.transpose r dim0 dim1 = Some self.
Proof.
  intros Hr. pose proof Hr as Hrun.
  apply transpose_inv in Hr
    as [[-> ->]|(d0 & d1 & x0 & x1 & Hd0 & Hd1 & Hx0 & Hx1 & ->)].
  { split; [done|]. split; [done|]. split; [|done].
    by apply transpose_nil_comm. }
  assert (Z.to_nat d0 < length self /\ Z.to_nat d1 < length self)%nat
    as [Hlt0 Hlt1].
  { split; by eapply lookup_lt_Some. }
  assert (self <> []) as Hne by (by intros ->).
  pose proof (wrapped_in_range _ _ _ Hd0 Hne) as Hr0.
  pose proof (wrapped_in_range _ _ _ Hd1 Hne) as Hr1.
  set (r := <[Z.to_nat d0 := x1]> (<[Z.to_nat d1 := x0]> self)).
  assert (length r = length self) as Hlen.
  { unfold r. by rewrite !length_insert. }
  assert (<[Z.to_nat d1 := x0]> (<[Z.to_nat d0 := x1]> self) = r) as Hcomm.
  { unfold r. destruct (decide (d0 = d1)) as [->|Hne01].
    - simplify_eq. done.
    - apply list_insert_insert_ne. lia. }
  split; [done|]. split.
  { unfold r. apply swap_Permutation; done. }
  split.
  { by rewrite (transpose_swap _ _ _ _ _ _ _ Hd1 Hd0 Hx1 Hx0), Hcomm. }
  assert (Shape.len r = Shape.len self) as HlenZ
    by (unfold Shape.len; by rewrite Hlen).
  rewrite (transpose_swap r dim0 dim1 d0 d1 x1 x0).
  - f_equal. unfold r. destruct (decide (d0 = d1)) as [->|Hne01].
    + simplify_eq. rewrite !list_insert_insert_eq. by apply list_insert_id.
    + rewrite (list_insert_insert_ne _ (Z.to_nat d1) (Z.to_nat d0)) by lia.
      rewrite !list_insert_insert_eq.
      rewrite (list_insert_id _ _ _ Hx1).
      by rewrite (list_insert_id _ _ _ Hx0).
  - by rewrite HlenZ.
  - by rewrite HlenZ.
  - unfold r. apply list_lookup_insert_eq. by rewrite length_insert.
  - rewrite <- Hcomm. apply list_lookup_insert_eq. by rewrite length_insert.
Qed.

Lemma transpose_exchanges_two_sizes_witness :
  Shape.transpose [4; 3; 2] 0 (-1) = Some [2; 3; 4].
Proof.
  apply (transpose_exchanges_two_sizes [2; 3; 4] 0 (-1) [4; 3; 2]).
  by vm_compute.
Defined.

(** ** squeeze, unsqueeze and select *)

(** A loop that treats one position apart. *)
Lemma concat_imap_at (g : Z -> list Z) (l : list Z) (d first : nat) :
  concat
    (imap (fun k x =>
             if Z.of_nat (first + k) =? Z.of_nat (first + d)
             then g x else [x]) l) =
  take d l ++ from_option g [] (l !! d) ++ drop (S d) l.
Proof.
  revert d first. induction l as [|x l IH]; intros d first.
  - by destruct d.
  - rewrite imap_cons. cbn [concat]. destruct d as [|d].
    + rewrite Z.eqb_refl.
      change (take 0 (x :: l) ++
              from_option g [] ((x :: l) !! 0%nat) ++ drop 1 (x :: l))
        with (g x ++ l).
      f_equal.
      etrans; [|exact (concat_singletons l)]. f_equal.
      apply imap_ext. intros k y _. simpl.
      destruct (Z.eqb_spec (Z.of_nat (first + S k)) (Z.of_nat (first + 0)));
        [lia|done].
    + destruct (Z.eqb_spec (Z.of_nat (first + 0)) (Z.of_nat (first + S d)));
        [lia|].
      change (take (S d) (x :: l) ++
              from_option g [] ((x :: l) !! S d) ++ drop (S (S d)) (x :: l))
        with (x :: (take d l ++ from_option g [] (l !! d) ++ drop (S d) l)).
      cbn [app]. f_equal.
      rewrite <- (IH d (S first)). f_equal.
      apply imap_ext. intros k y _. simpl.
      by replace (first + S k)%nat with (S (first + k)) by lia;
         replace (first + S d)%nat with (S (first + d)) by lia.
Qed.

Lemma for_in_one_apart (l : list Z) (g : Z -> list Z) (d : Z) :
  0 <= d ->
  Shape.for_in (Shape.range (Shape.len l))
    (fun i out =>
       x ← Shape.getitem l i;
       Some (out ++ if i =? d then g x else [x])) [] =
  Some (take (Z.to_nat d) l ++ from_option g [] (l !! Z.to_nat d) ++
        drop (S (Z.to_nat d)) l).
Proof.
  intros Hd.
  rewrite (for_in_elements l (fun i x => if i =? d then g x else [x])).
  rewrite <- (concat_imap_at g l (Z.to_nat d) 0). do 2 f_equal.
  apply imap_ext. intros k y _. simpl. by rewrite Z2Nat.id.
Qed.

Local Abbreviation unless_one :=
  (fun x : Z => if negb (x =? 1) then [x] else []).

Lemma squeeze_at (li : list Z) (dim d : Z) :
  li <> [] ->
  Shape.maybe_wrap_dim dim (Shape.len li) true = Some d ->
  Shape.squeeze li dim =
  Some (take (Z.to_nat d) li ++
        from_option unless_one [] (li !! Z.to_nat d) ++
        drop (S (Z.to_nat d)) li).
Proof.
  intros Hne Hd. pose proof (wrapped_in_range _ _ _ Hd Hne) as Hrange.
  rewrite <- (for_in_one_apart li unless_one d) by lia.
  unfold Shape.squeeze. apply for_in_ext. intros i out _.
  rewrite Hd. cbn [mbind option_bind].
  destruct (i =? d), (Shape.getitem li i) as [x|]; cbn [mbind option_bind];
    try done.
  destruct (negb (x =? 1)); [done|]. by rewrite app_nil_r.
Qed.

(** X20. squeeze on the empty shape returns it whatever the position,
    which is not looked at; on another shape it raises for a position
    out of range, and otherwise removes the size at the position when it
    is 1 and returns the shape as it is when it is not. *)
Theorem squeeze_removes_a_one (li : list Z) (dim : Z) :
  Shape.squeeze [] dim = Some [] /\
  (li <> [] -> Shape.maybe_wrap_dim dim (Shape.len li) true = None ->
   Shape.squeeze li dim = None) /\
  (forall d x,
     Shape.maybe_wrap_dim dim (Shape.len li) true = Some d ->
     li !! Z.to_nat d = Some x ->
     Shape.squeeze li dim =
     Some (if x =? 1 then delete (Z.to_nat d) li else li)).
Proof.
  split; [done|]. split.
  - intros Hne Hd. unfold Shape.squeeze.
    destruct li as [|x li]; [done|].
    unfold Shape.range, Shape.len at 1. cbn [length].
    rewrite Nat2Z.inj_succ, seqZ_cons by lia.
    cbn [Shape.for_in]. by rewrite Hd.
  - intros d x Hd Hx. rewrite (squeeze_at li dim d); [|by intros ->|done].
    rewrite Hx. cbn [from_option]. destruct (x =? 1); cbn [negb].
    + by rewrite delete_take_drop.
    + cbn [app]. by rewrite (take_drop_middle li _ x Hx).
Qed.

Lemma unsqueeze_at (li : list Z) (dim d : Z) :
  Shape.maybe_wrap_dim dim (Shape.len li + 1) true = Some d ->
  0 <= d <= Shape.len li /\
  Shape.unsqueeze li dim =
  Some (take (Z.to_nat d) li ++ 1 :: drop (Z.to_nat d) li).
Proof.
  intros Hd. pose proof (len_nonneg li) as Hlen.
  assert (0 <= d <= Shape.len li) as Hrange.
  { rewrite maybe_wrap_dim_eq, Z.max_l in Hd by lia.
    revert Hd. compare_cases; cbn [andb]; intros; simplify_eq; lia. }
  split; [done|]. unfold Shape.unsqueeze. rewrite Hd.
  cbn [mbind option_bind]. unfold Shape._copy.
  rewrite for_in_append_each. cbn [app mbind option_bind].
  unfold Shape.list_insert. cbv zeta.
  destruct (Z.ltb_spec d 0); [lia|].
  compare_cases; try lia; try done.
  rewrite take_ge, drop_ge by (unfold Shape.len in *; lia). done.
Qed.

(** X21. unsqueeze puts a 1 at the position, which may be the end of the
    shape, and the rank grows by one; squeeze at the same position then
    gives the first shape back. *)
Theorem unsqueeze_then_squeeze (li : list Z) (dim : Z) (r : list Z) :
  Shape.unsqueeze li dim = Some r ->
  (exists d,
     Shape.maybe_wrap_dim dim (Shape.len li + 1) true = Some d /\
     r = take (Z.to_nat d) li ++ 1 :: drop (Z.to_nat d) li) /\
  length r = S (length li) /\
  Shape.squeeze r dim = Some li.
Proof.
  intros Hr.
  destruct (Shape.maybe_wrap_dim dim (Shape.len li + 1) true) as [d|] eqn:Hd;
    [|by unfold Shape.unsqueeze in Hr; rewrite Hd in Hr].
  destruct (unsqueeze_at li dim d Hd) as [Hrange Heq].
  rewrite Heq in Hr. injection Hr as <-.
  set (r := take (Z.to_nat d) li ++ 1 :: drop (Z.to_nat d) li).
  assert (length (take (Z.to_nat d) li) = Z.to_nat d) as Htake.
  { rewrite length_take. unfold Shape.len in *. lia. }
  assert (length r = S (length li)) as Hlen.
  { unfold r. rewrite length_app, length_cons, Htake, length_drop.
    unfold Shape.len in *. lia. }
  split; [by exists d|]. split; [done|].
  rewrite (squeeze_at r dim d).
  - unfold r. rewrite take_app_length' by done.
    rewrite list_lookup_middle by done. cbn [from_option].
    change (negb (1 =? 1)) with false. cbn [app].
    rewrite (cons_middle 1), app_assoc, drop_app_length'.
    + by rewrite take_drop.
    + rewrite length_app, Htake. simpl. lia.
  - unfold r. by destruct (take _ _).
  - replace (Shape.len r) with (Shape.len li + 1); [done|].
    unfold Shape.len. rewrite Hlen. lia.
Qed.

Lemma unsqueeze_then_squeeze_witness :
  Shape.squeeze [2; 1; 3] 1 = Some [2; 3].
Proof.
  apply (unsqueeze_then_squeeze [2; 3] 1 [2; 1; 3]). by vm_compute.
Defined.

Lemma imap_no_index {A B} (f : A -> B) (l : list A) :
  imap (fun _ x => f x) l = f <$> l.
Proof.
  induction l as [|x l IH]; [done|]. rewrite imap_cons, fmap_cons.
  f_equal. exact IH.
Qed.

Lemma concat_unless_one (l : list Z) :
  concat (imap (fun _ x => unless_one x) l) = filter (fun x => x <> 1) l.
Proof.
  rewrite (imap_no_index unless_one). induction l as [|x l IH]; [done|].
  rewrite fmap_cons. cbn [concat]. rewrite IH.
  destruct (Z.eqb_spec x 1) as [->|Hx]; cbn [negb].
  - by rewrite filter_cons_False by (intros ?; done).
  - by rewrite filter_cons_True by done.
Qed.

Lemma squeeze_nodim_filter (li : list Z) :
  Shape.squeeze_nodim li = Some (filter (fun x => x <> 1) li).
Proof.
  rewrite <- concat_unless_one.
  rewrite <- (for_in_elements li (fun _ x => unless_one x)).
  unfold Shape.squeeze_nodim. apply for_in_ext. intros i out _.
  destruct (Shape.getitem li i) as [x|]; cbn [mbind option_bind]; [|done].
  destruct (negb (x =? 1)); [done|]. by rewrite app_nil_r.
Qed.

(** X22. squeeze_nodim never raises: it returns the sizes that are not
    1, in their order, and leaves its own results as they are. *)
Theorem squeeze_nodim_drops_the_ones (li : list Z) :
  Shape.squeeze_nodim li = Some (filter (fun x => x <> 1) li) /\
  (forall r, Shape.squeeze_nodim li = Some r ->
     Shape.squeeze_nodim r = Some r).
Proof.
  split; [apply squeeze_nodim_filter|].
  intros r. rewrite !squeeze_nodim_filter. intros [= <-]. f_equal.
  induction li as [|x li IH]; [done|].
  destruct (decide (x = 1)) as [->|Hx].
  - by rewrite filter_cons_False by (intros ?; done).
  - rewrite !filter_cons_True by done. by rewrite IH.
Qed.

Lemma select_at (self : list Z) (dim index d size : Z) :
  Shape.maybe_wrap_dim dim (Shape.len self) true = Some d ->
  self !! Z.to_nat d = Some size ->
  Shape.select self dim index =
  if (index <? Shape.neg64 size) || (size <=? index) then None
  else Some (delete (Z.to_nat d) self).
Proof.
  intros Hd Hsize.
  assert (self <> []) as Hne by (by intros ->).
  pose proof (wrapped_in_range _ _ _ Hd Hne) as Hrange.
  unfold Shape.select. cbv zeta.
  destruct (Z.eqb_spec (Shape.len self) 0) as [Hlen|_]; [lia|].
  cbn [negb Shape.assert_that mbind option_bind]. rewrite Hd.
  cbn [mbind option_bind]. rewrite getitem_in_range, Hsize by done.
  cbn [mbind option_bind].
  destruct ((index <? Shape.neg64 size) || (size <=? index));
    cbn [negb Shape.assert_that mbind option_bind]; [done|].
  rewrite delete_take_drop.
  change (take (Z.to_nat d) self ++ drop (S (Z.to_nat d)) self)
    with (take (Z.to_nat d) self ++
          from_option (fun _ : Z => []) [] (Some size) ++
          drop (S (Z.to_nat d)) self).
  rewrite <- Hsize, <- (for_in_one_apart self (fun _ => []) d) by lia.
  apply for_in_ext. intros i out Hi%elem_of_seqZ.
  rewrite getitem_in_range by lia.
  destruct (lookup_lt_is_Some_2 self (Z.to_nat i)) as [x Hx];
    [unfold Shape.len in *; lia|].
  rewrite Hx. cbn [mbind option_bind].
  destruct (i =? d); cbn [negb]; [|done]. by rewrite app_nil_r.
Qed.

(** X23. select returns exactly when the shape is not empty, the
    position is in range and the index lies between minus the size at
    the position and that size less one; the result is the shape
    without that position. *)
Theorem select_removes_the_dimension
    (self : list Z) (dim index : Z) (r : list Z) :
  Shape.select self dim index = Some r <->
  exists d size,
    Shape.maybe_wrap_dim dim (Shape.len self) true = Some d /\
    self !! Z.to_nat d = Some size /\
    Shape.neg64 size <= index < size /\
    r = delete (Z.to_nat d) self.
Proof.
  split.
  - intros Hr.
    destruct self as [|x self]; [done|].
    destruct (Shape.maybe_wrap_dim dim (Shape.len (x :: self)) true)
      as [d|] eqn:Hd.
    2:{ unfold Shape.select in Hr. cbv zeta in Hr. rewrite Hd in Hr.
        by destruct (negb _). }
    pose proof (wrapped_in_range _ _ _ Hd ltac:(done)) as Hrange.
    destruct (lookup_lt_is_Some_2 (x :: self) (Z.to_nat d)) as [size Hsize];
      [unfold Shape.len in *; lia|].
    rewrite (select_at _ _ _ _ _ Hd Hsize) in Hr.
    exists d, size. revert Hr. compare_cases; cbn [orb]; try done.
    intros [= <-]. repeat split; try done; lia.
  - intros (d & size & Hd & Hsize & Hindex & ->).
    rewrite (select_at _ _ _ _ _ Hd Hsize).
    compare_cases; try lia. done.
Qed.

(** ** flatten *)

(** Reading a stretch of a list position by position. *)
Lemma for_in_segment (whole : list Z) (n first : nat) (out0 : list Z) :
  (first + n <= length whole)%nat ->
  Shape.for_in (seqZ (Z.of_nat first) (Z.of_nat n))
    (fun i out => x ← Shape.getitem whole i; Some (out ++ [x])) out0 =
  Some (out0 ++ take n (drop first whole)).
Proof.
  revert first out0. induction n as [|n IH]; intros first out0 Hlen.
  - simpl. by rewrite app_nil_r.
  - rewrite Nat2Z.inj_succ, seqZ_cons by lia. cbn [Shape.for_in].
    destruct (lookup_lt_is_Some_2 whole first) as [x Hx]; [lia|].
    rewrite (getitem_nat _ _ _ Hx). cbn [mbind option_bind].
    replace (Z.succ (Z.of_nat first)) with (Z.of_nat (S first)) by lia.
    replace (Z.pred (Z.succ (Z.of_nat n))) with (Z.of_nat n) by lia.
    rewrite IH by lia. rewrite <- app_assoc. do 2 f_equal.
    rewrite (drop_S whole x first Hx). done.
Qed.

Lemma for_in_prefix (whole : list Z) (n : nat) :
  (n <= length whole)%nat ->
  Shape.for_in (seqZ 0 (Z.of_nat n))
    (fun i out => x ← Shape.getitem whole i; Some (out ++ [x])) [] =
  Some (take n whole).
Proof. intros Hn. exact (for_in_segment whole n 0 [] Hn). Qed.

Lemma list_slice_inside (l : list Z) (start stop : Z) :
  0 <= start -> 0 <= stop ->
  Shape.list_slice l start stop =
  drop (Z.to_nat start) (take (Z.to_nat stop) l).
Proof.
  intros Hstart Hstop. unfold Shape.list_slice. cbv zeta.
  destruct (Z.ltb_spec start 0); [lia|].
  destruct (Z.ltb_spec stop 0); [lia|].
  assert (forall i, 0 <= i ->
            Z.to_nat (Z.max 0 (Z.min (Shape.len l) i)) =
            Nat.min (length l) (Z.to_nat i)) as Hclamp.
  { intros i Hi. unfold Shape.len. lia. }
  rewrite !Hclamp by done.
  destruct (Nat.le_gt_cases (Z.to_nat stop) (length l)).
  - rewrite (Nat.min_r _ (Z.to_nat stop)) by done.
    destruct (Nat.le_gt_cases (Z.to_nat start) (length l)).
    + by rewrite Nat.min_r.
    + rewrite Nat.min_l by lia.
      rewrite !drop_ge; [done| |]; rewrite length_take; lia.
  - rewrite (Nat.min_l _ (Z.to_nat stop)) by lia.
    rewrite !(take_ge l) by lia.
    destruct (Nat.le_gt_cases (Z.to_nat start) (length l)).
    + by rewrite Nat.min_r.
    + rewrite Nat.min_l by lia. rewrite !drop_ge; [done|lia|lia].
Qed.

(** X24. On a shape that is not empty, with the two positions counted
    from the start: flatten raises when the end lies before the start,
    returns the shape as it is when they are equal, and otherwise puts
    one size in the place of the positions start to end.  That size is
    the product of the sizes at the positions start to end - start, which
    are the positions start to end when start is 0 and fewer than these
    when it is not. *)
Theorem flatten_multiplies_a_slice
    (input : list Z) (start_dim end_dim s e : Z) :
  input <> [] ->
  Shape.maybe_wrap_dim start_dim (Shape.len input) true = Some s ->
  Shape.maybe_wrap_dim end_dim (Shape.len input) true = Some e ->
  Shape.flatten input start_dim end_dim =
  if e <? s then None
  else if s =? e then Some input
  else Some (take (Z.to_nat s) input ++
             Shape.multiply_integers
               (drop (Z.to_nat s) (take (Z.to_nat (e - s + 1)) input)) ::
             drop (Z.to_nat (e + 1)) input).
Proof.
  intros Hne Hs He.
  pose proof (wrapped_in_range _ _ _ Hs Hne) as Hrs.
  pose proof (wrapped_in_range _ _ _ He Hne) as Hre.
  unfold Shape.flatten. rewrite Hs, He. cbn [mbind option_bind].
  destruct (Z.leb_spec s e), (Z.ltb_spec e s); try lia;
    cbn [Shape.assert_that mbind option_bind]; [|done].
  destruct (Z.eqb_spec (Shape.len input) 0); [lia|].
  destruct (Z.eqb_spec s e); [by rewrite for_in_append_each|].
  cbv zeta. rewrite list_slice_inside by lia.
  unfold Shape.range, Shape.range_from, Shape.len in *.
  rewrite <- (Z2Nat.id s) at 1 by lia.
  rewrite (for_in_prefix input (Z.to_nat s)) by lia.
  cbn [mbind option_bind].
  replace (seqZ (e + 1) (Z.of_nat (length input) - (e + 1)))
    with (seqZ (Z.of_nat (Z.to_nat (e + 1)))
            (Z.of_nat (length input - Z.to_nat (e + 1))))
    by (f_equal; lia).
  rewrite for_in_segment by lia.
  rewrite (take_ge (drop _ input)) by (rewrite length_drop; lia).
  by rewrite <- app_assoc.
Qed.

Lemma flatten_multiplies_a_slice_witness :
  Shape.flatten [2; 3; 4; 5] 1 3 = Some [2; 12] /\
  Shape.flatten [2; 3; 4; 5] 0 (-1) = Some [120].
Proof.
  split.
  - by rewrite (flatten_multiplies_a_slice [2; 3; 4; 5] 1 3 1 3).
  - by rewrite (flatten_multiplies_a_slice [2; 3; 4; 5] 0 (-1) 0 3).
Defined.

(** ** matmul *)

Lemma getitem_last_two (batch : list Z) (n m : Z) :
  Shape.getitem (batch ++ [n; m]) (-2) = Some n /\
  Shape.getitem (batch ++ [n; m]) (-1) = Some m.
Proof.
  assert (Shape.len (batch ++ [n; m]) = Z.of_nat (length batch) + 2) as Hlen.
  { unfold Shape.len. rewrite length_app. simpl. lia. }
  split.
  - rewrite getitem_from_end by lia. rewrite Hlen.
    replace (Z.to_nat (Z.of_nat (length batch) + 2 + -2))
      with (length batch + 0)%nat by lia.
    by rewrite lookup_app_r, Nat.add_comm, Nat.add_sub by lia.
  - rewrite getitem_from_end by lia. rewrite Hlen.
    replace (Z.to_nat (Z.of_nat (length batch) + 2 + -1))
      with (length batch + 1)%nat by lia.
    by rewrite lookup_app_r, Nat.add_comm, Nat.add_sub by lia.
Qed.

Lemma matmul_batched (batch : list Z) (n m1 m2 p : Z) :
  batch <> [] ->
  Shape.matmul (batch ++ [n; m1]) [m2; p] = Some (batch ++ [n; p]).
Proof.
  intros Hne.
  assert (Shape.len (batch ++ [n; m1]) = Z.of_nat (length batch) + 2)
    as Hlen.
  { unfold Shape.len. rewrite length_app. simpl. lia. }
  assert (1 <= Z.of_nat (length batch)) as Hbatch.
  { destruct batch; [done|]. cbn [length]. lia. }
  destruct (getitem_last_two batch n m1) as [Hn Hm1].
  unfold Shape.matmul. cbv zeta. rewrite Hlen.
  change (Shape.len [m2; p]) with 2.
  destruct (Z.eqb_spec (Z.of_nat (length batch) + 2) 1); [lia|].
  destruct (Z.eqb_spec (Z.of_nat (length batch) + 2) 2); [lia|].
  cbn [andb]. change (2 =? 1) with false. cbn [andb].
  destruct (Z.leb_spec 1 (Z.of_nat (length batch) + 2)); [|lia].
  destruct (Z.ltb_spec 1 (Z.of_nat (length batch) + 2)); [|lia].
  change (1 <=? 2) with true. change (1 <? 2) with true. cbn [andb].
  rewrite Hn, Hm1. cbn [mbind option_bind].
  replace (Z.of_nat (length batch) + 2 - 2) with (Z.of_nat (length batch))
    by lia.
  unfold Shape.range. rewrite for_in_prefix
    by (rewrite length_app; lia).
  rewrite take_app_length. cbn [mbind option_bind].
  change (Shape.getitem [m2; p] (-1)) with (Some p).
  cbn [mbind option_bind]. change (seqZ 0 (2 - 2)) with (@nil Z).
  cbn [Shape.for_in mbind option_bind]. rewrite broadcast_nil_r.
  cbn [mbind option_bind]. by rewrite <- app_assoc.
Qed.

(** X25. matmul of two matrices, of a vector and a matrix and of a
    matrix and a vector returns the product's shape when the contracted
    sizes are equal and raises when they differ.  With batch sizes in
    front of the first operand and a matrix as the second, the contracted
    sizes are not compared: the call returns whatever they are. *)
Theorem matmul_by_rank (n m k p : Z) (batch : list Z) :
  Shape.matmul [n; m] [k; p] = (if m =? k then Some [n; p] else None) /\
  Shape.matmul [m] [k; p] = (if m =? k then Some [p] else None) /\
  Shape.matmul [n; m] [k] = (if m =? k then Some [n] else None) /\
  Shape.matmul [m] [k] = (if m =? k then Some [] else None) /\
  (batch <> [] ->
   Shape.matmul (batch ++ [n; m]) [k; p] = Some (batch ++ [n; p])).
Proof.
  split; [|split; [|split; [|split]]].
  - unfold Shape.matmul. cbv -[Z.eqb]. cbn. by destruct (m =? k).
  - unfold Shape.matmul. cbv -[Z.eqb]. cbn. by destruct (m =? k).
  - unfold Shape.matmul. cbv -[Z.eqb]. cbn. by destruct (m =? k).
  - unfold Shape.matmul. cbv -[Z.eqb]. cbn. by destruct (m =? k).
  - apply matmul_batched.
Qed.

(** ** Convolutions *)

Ltac eval_reads :=
  repeat match goal with
  | |- context [Shape.getitem ?l ?i] =>
      let v := eval cbv in (Shape.getitem l i) in
      lazymatch v with
      | Some _ => progress change (Shape.getitem l i) with v
      | None => progress change (Shape.getitem l i) with v
      end
  | |- context [Shape.len ?l] =>
      let v := eval cbv in (Shape.len l) in
      lazymatch v with
      | Z0 => progress change (Shape.len l) with v
      | Zpos ?p =>
          lazymatch isPcst p with
          | true => progress change (Shape.len l) with v
          end
      end
  | |- context [Shape.range_from ?a ?b] =>
      let v := eval cbv in (Shape.range_from a b) in
      progress change (Shape.range_from a b) with v
  end.

Ltac step_binds :=
  cbn [Shape.assert_that Shape.for_in mbind option_bind andb negb].

Ltac pass_asserts :=
  repeat (step_binds;
          match goal with
          | |- context [Shape.assert_that ?cond] =>
              destruct cond eqn:?; step_binds; [|done]
          end).

(** X26. When conv2d returns, on an input [n, c, h, w] and a weight
    [o, ci, kh, kw] with two strides, paddings and dilations and no bias,
    the result is [n, o] followed by the two output extents
    (x + 2 p - (d (k - 1) + 1)) // s + 1, computed on int64; the strides
    are then positive, the paddings not negative, and the groups divide
    o and multiply ci to c. *)
Theorem conv2d_output_size
    (n c h w o ci kh kw sh sw ph pw dh dw groups : Z) (r : list Z) :
  let extent x k s p d :=
    Shape.add64
      (wrap_i64
         (Shape.sub64 (Shape.add64 x (Shape.mul64 2 p))
            (Shape.add64 (Shape.mul64 d (Shape.sub64 k 1)) 1) / s)) 1 in
  Shape.conv2d [n; c; h; w] [o; ci; kh; kw] None [sh; sw] [ph; pw] [dh; dw]
    groups = Some r ->
  r = [n; o; extent h kh sh ph dh; extent w kw sw pw dw] /\
  0 < sh /\ 0 < sw /\ 0 <= ph /\ 0 <= pw /\
  groups <> 0 /\ groups <= o /\ o mod groups = 0 /\
  c = Shape.mul64 ci groups.
Proof.
  cbv zeta.
  unfold Shape.conv2d, Shape.conv_output_size, Shape.check_shape_forward.
  cbv zeta. eval_reads. change (4 =? 4) with true.
  unfold Shape.check_non_negative. cbn [fold_left].
  unfold Shape.remainder, Shape.floordiv.
  destruct (Z.eqb_spec groups 0) as [|Hgroups]; [by pass_asserts|].
  pass_asserts. eval_reads. pass_asserts.
  change (0 <? 2) with true. cbv iota. eval_reads. step_binds.
  destruct (Z.eqb_spec sh 0) as [|Hsh]; [done|].
  destruct (Z.eqb_spec sw 0) as [|Hsw]; [done|].
  step_binds. intros [= <-]. split; [done|].
  repeat match goal with
  | H : negb _ = true |- _ => apply negb_true_iff in H
  | H : (if ?x <? 0 then true else _) = false |- _ =>
      destruct (Z.ltb_spec x 0); [done|]
  | H : (_ <=? _) = true |- _ => apply Z.leb_le in H
  | H : (_ =? _) = true |- _ => apply Z.eqb_eq in H
  end.
  repeat split; try done; lia.
Qed.

Lemma conv2d_output_size_witness :
  Shape.conv2d [1; 3; 32; 32] [8; 3; 3; 3] None [2; 2] [1; 1] [1; 1] 1 =
    Some [1; 8; 16; 16] /\
  3 = Shape.mul64 3 1.
Proof.
  split; [by vm_compute|].
  apply (conv2d_output_size 1 3 32 32 8 3 3 3 2 2 1 1 1 1 1 [1; 8; 16; 16]).
  by vm_compute.
Defined.

Lemma len_inv {A} (l : list A) (k : nat) :
  (Shape.len l =? Z.of_nat k) = true -> length l = k.
Proof. unfold Shape.len. intros ?%Z.eqb_eq. lia. Qed.

Ltac fail_somewhere :=
  repeat (step_binds; eval_reads; step_binds;
          match goal with
          | |- None = None => reflexivity
          | |- context [Shape.assert_that ?cond] => destruct cond
          | |- context [Shape.getitem ?l ?i ≫= _] =>
              destruct (Shape.getitem l i)
          | |- context [Shape.remainder ?a ?b ≫= _] =>
              destruct (Shape.remainder a b)
          | |- context [match ?bias with Some _ => _ | None => _ end ≫= _] =>
              destruct bias
          | |- context [if ?c then _ else _] => destruct c
          end).

(** X27. The convolutions read one dilation for every spatial position
    while checking the shapes, so with an empty dilation list they raise
    on every input: the dilation of 1 that conv_output_size has for this
    case is never used. *)
Theorem convolutions_need_dilations
    (input weight : list Z) (bias : option (list Z))
    (stride padding : list Z) (groups : Z) :
  Shape.conv1d input weight bias stride padding [] groups = None /\
  Shape.conv2d input weight bias stride padding [] groups = None /\
  Shape.conv3d input weight bias stride padding [] groups = None.
Proof.
  split; [|split].
  - unfold Shape.conv1d.
    destruct (Shape.len weight =? 3) eqn:Hw; [|done].
    destruct (Shape.len input =? 3) eqn:Hi; [|done].
    apply (len_inv _ 3) in Hw, Hi.
    destruct input as [|n [|c [|h [|? ?]]]]; try done.
    destruct weight as [|o [|ci [|kh [|? ?]]]]; try done.
    unfold Shape.conv_output_size, Shape.check_shape_forward.
    cbv zeta. eval_reads. fail_somewhere.
  - unfold Shape.conv2d.
    destruct (Shape.len weight =? 4) eqn:Hw; [|done].
    destruct (Shape.len input =? 4) eqn:Hi; [|done].
    apply (len_inv _ 4) in Hw, Hi.
    destruct input as [|n [|c [|h [|w [|? ?]]]]]; try done.
    destruct weight as [|o [|ci [|kh [|kw [|? ?]]]]]; try done.
    unfold Shape.conv_output_size, Shape.check_shape_forward.
    cbv zeta. eval_reads. fail_somewhere.
  - unfold Shape.conv3d.
    destruct (Shape.len weight =? 5) eqn:Hw; [|done].
    destruct (Shape.len input =? 5) eqn:Hi; [|done].
    apply (len_inv _ 5) in Hw, Hi.
    destruct input as [|n [|c [|t [|h [|w [|? ?]]]]]]; try done.
    destruct weight as [|o [|ci [|kt [|kh [|kw [|? ?]]]]]]; try done.
    unfold Shape.conv_output_size, Shape.check_shape_forward.
    cbv zeta. eval_reads. fail_somewhere.
Qed.

(** ** index_select and slice *)

(** A loop that replaces the size at one position. *)
Lemma for_in_replace_at (l : list Z) (d q : Z)
    (body : Z -> list Z -> option (list Z)) :
  0 <= d < Shape.len l ->
  (forall out, body d out = Some (out ++ [q])) ->
  (forall i out, i <> d ->
     body i out = x ← Shape.getitem l i; Some (out ++ [x])) ->
  Shape.for_in (Shape.range (Shape.len l)) body [] =
  Some (<[Z.to_nat d := q]> l).
Proof.
  intros Hd Hat Helse.
  rewrite insert_take_drop by (unfold Shape.len in *; lia).
  destruct (lookup_lt_is_Some_2 l (Z.to_nat d)) as [size Hsize];
    [unfold Shape.len in *; lia|].
  change (take (Z.to_nat d) l ++ q :: drop (S (Z.to_nat d)) l)
    with (take (Z.to_nat d) l ++
          from_option (fun _ : Z => [q]) [] (Some size) ++
          drop (S (Z.to_nat d)) l).
  rewrite <- Hsize, <- (for_in_one_apart l (fun _ => [q]) d) by lia.
  apply for_in_ext. intros i out Hi%elem_of_seqZ.
  destruct (Z.eqb_spec i d) as [->|Hne].
  - rewrite Hat, getitem_in_range, Hsize by lia. done.
  - by rewrite Helse.
Qed.

(** X28. index_select, on a shape that is not empty and a position in
    range, raises when the index has more than one dimension and
    otherwise puts the number of elements of the index in the place of
    the size at the position. *)
Theorem index_select_replaces_the_size
    (self : list Z) (dim d : Z) (index : list Z) :
  self <> [] ->
  Shape.maybe_wrap_dim dim (Shape.len self) true = Some d ->
  Shape.index_select self dim index =
  if bool_decide (length index <= 1)%nat
  then Some (<[Z.to_nat d := Shape.multiply_integers index]> self)
  else None.
Proof.
  intros Hne Hd. pose proof (wrapped_in_range _ _ _ Hd Hne) as Hrange.
  unfold Shape.index_select. rewrite Hd. cbn [mbind option_bind]. cbv zeta.
  case_bool_decide as Hindex.
  - destruct (Z.leb_spec (Shape.len index) 1);
      [|unfold Shape.len in *; lia].
    destruct (Z.ltb_spec d (Shape.len self)); [|lia].
    rewrite orb_true_r. cbn [Shape.assert_that mbind option_bind].
    apply for_in_replace_at; [done| |].
    + intros out. by rewrite Z.eqb_refl.
    + intros i out Hi. by destruct (Z.eqb_spec d i).
  - destruct (Z.leb_spec (Shape.len index) 1);
      [unfold Shape.len in *; lia|done].
Qed.

Lemma index_select_replaces_the_size_witness :
  Shape.index_select [5; 7] (-1) [3] = Some [5; 3].
Proof.
  by rewrite (index_select_replaces_the_size [5; 7] (-1) 1 [3]).
Defined.

Lemma wrap_i64_small (z : Z) : - 2 ^ 63 <= z < 2 ^ 63 -> wrap_i64 z = z.
Proof. intros Hz. unfold wrap_i64. rewrite Z.mod_small; lia. Qed.

Lemma wrap_i64_sub_l (a b : Z) : wrap_i64 (wrap_i64 a - b) = wrap_i64 (a - b).
Proof.
  apply wrap_i64_same_mod.
  by rewrite <- Zminus_mod_idemp_l, wrap_i64_mod, Zminus_mod_idemp_l.
Qed.

Section Slice.

Variables (self : list Z) (dim d size step : Z) (start end_ : option Z).

Hypothesis Hd : Shape.maybe_wrap_dim dim (Shape.len self) true = Some d.
Hypothesis Hsize : self !! Z.to_nat d = Some size.
Hypothesis Hsize_range : 0 <= size.
Hypothesis Hstep : 0 < step.
Hypothesis Hfits : size + step <= 2 ^ 63.
Hypothesis Hstart :
  forall s, start = Some s -> - 2 ^ 63 <= s < 2 ^ 63.
Hypothesis Hend :
  forall e, end_ = Some e -> - 2 ^ 63 <= e < 2 ^ 63.

(** X29. slice with a positive step, on a size that is not negative,
    returns the shape with a new size at the position, and this size
    lies between 0 and the old one; when the bounds are given as
    0 <= start <= end <= size it is (end - start) divided by the step
    and rounded up, a start equal to max_int being taken for 0 as the
    function does. *)
Theorem slice_stays_within_the_size :
  exists q,
    Shape.slice self dim start end_ step = Some (<[Z.to_nat d := q]> self) /\
    0 <= q <= size /\
    (forall s e, start = Some s -> end_ = Some e ->
       0 <= s <= e -> e <= size ->
       q = (e - (if s =? Shape.max_int then 0 else s) + step - 1) / step).
Proof using All.
  assert (self <> []) as Hne by (by intros ->).
  pose proof (wrapped_in_range _ _ _ Hd Hne) as Hrange.
  assert (Shape.getitem self d = Some size) as Hget
    by (by rewrite getitem_in_range).
  set (start0 := match start with Some s => s | None => 0 end).
  set (end0 := match end_ with Some e => e | None => Shape.max_int end).
  assert (- 2 ^ 63 <= start0 < 2 ^ 63) as Hs0.
  { unfold start0. destruct start as [s|]; [by apply Hstart|lia]. }
  assert (- 2 ^ 63 <= end0 < 2 ^ 63) as He0.
  { unfold end0, Shape.max_int. destruct end_ as [e|]; [by apply Hend|lia]. }
  set (start1 := if start0 =? Shape.max_int then 0 else start0).
  set (start2 := if start1 <? 0 then start1 + size else start1).
  set (end2 := if end0 <? 0 then end0 + size else end0).
  set (start3 :=
         if start2 <? 0 then 0
         else if size <=? start2 then size else start2).
  set (end3 :=
         if end2 <? start3 then start3
         else if size <=? end2 then size else end2).
  assert (0 <= start3 <= size) as Hstart3.
  { unfold start3. compare_cases; lia. }
  assert (0 <= start3 <= end3 /\ end3 <= size) as Hbounds.
  { unfold end3. compare_cases; lia. }
  set (q := (end3 - start3 + step - 1) / step).
  assert (0 <= q <= size) as Hq.
  { unfold q. split.
    - apply Z.div_pos; lia.
    - assert ((end3 - start3 + step - 1) / step < end3 - start3 + 1);
        [|lia].
      apply Z.div_lt_upper_bound; [lia|nia]. }
  exists q. split; [|split; [done|]].
  - unfold Shape.slice. cbv zeta.
    destruct (Z.eqb_spec (Shape.len self) 0); [lia|].
    cbn [negb Shape.assert_that mbind option_bind]. rewrite Hd.
    cbn [mbind option_bind].
    destruct (Z.ltb_spec 0 step); [|lia].
    cbn [Shape.assert_that mbind option_bind].
    fold start0 end0. fold start1. rewrite Hget.
    assert ((if start1 <? 0
             then Some size ≫= (fun size => Some (Shape.add64 start1 size))
             else Some start1) = Some start2) as ->.
    { unfold start2, Shape.add64.
      assert (- 2 ^ 63 <= start1 < 2 ^ 63)
        by (unfold start1; destruct (start0 =? Shape.max_int); lia).
      destruct (Z.ltb_spec start1 0); [|done].
      cbn [mbind option_bind]. by rewrite wrap_i64_small by lia. }
    cbn [mbind option_bind]. rewrite ?Hget.
    assert ((if end0 <? 0
             then Some (Shape.add64 end0 size)
             else Some end0) = Some end2) as ->.
    { unfold end2, Shape.add64. destruct (Z.ltb_spec end0 0); [|done].
      by rewrite wrap_i64_small by lia. }
    cbn [mbind option_bind]. rewrite ?Hget.
    assert ((if start2 <? 0 then Some 0
             else if size <=? start2 then Some size else Some start2) =
            Some start3) as ->.
    { unfold start3. destruct (start2 <? 0); [done|].
      by destruct (size <=? start2). }
    cbn [mbind option_bind]. rewrite ?Hget.
    assert ((if end2 <? start3 then Some start3
             else if size <=? end2 then Some size else Some end2) =
            Some end3) as ->.
    { unfold end3. destruct (end2 <? start3); [done|].
      by destruct (size <=? end2). }
    cbn [mbind option_bind]. rewrite ?Hget.
    apply for_in_replace_at; [done| |].
    + intros out. rewrite Z.eqb_refl. unfold Shape.floordiv.
      destruct (Z.eqb_spec step 0); [lia|].
      unfold Shape.sub64, Shape.add64.
      rewrite (wrap_i64_small (end3 - start3)) by lia.
      rewrite wrap_i64_sub_l.
      rewrite (wrap_i64_small (end3 - start3 + step - 1)) by lia.
      fold q. rewrite (wrap_i64_small q) by lia. done.
    + intros i out Hi. by destruct (Z.eqb_spec i d).
  - intros s e Hs_eq He_eq Hse He.
    set (s' := if s =? Shape.max_int then 0 else s).
    assert (0 <= s' <= e) as Hs'.
    { unfold s'. destruct (s =? Shape.max_int); lia. }
    assert (start1 = s') as Hs1.
    { unfold start1, start0. by rewrite Hs_eq. }
    assert (start2 = s') as Hs2.
    { unfold start2. rewrite Hs1. destruct (Z.ltb_spec s' 0); [lia|done]. }
    assert (start3 = s') as Hs3.
    { unfold start3. rewrite Hs2. compare_cases; lia. }
    assert (end2 = e) as He2.
    { unfold end2, end0. rewrite He_eq.
      destruct (Z.ltb_spec e 0); [lia|done]. }
    assert (end3 = e) as He3.
    { unfold end3. rewrite He2, Hs3. compare_cases; lia. }
    unfold q. by rewrite Hs3, He3.
Qed.

End Slice.

Lemma slice_stays_within_the_size_witness :
  exists q,
    Shape.slice [10; 20] 1 (Some 2) (Some 15) 3 = Some [10; q] /\
    0 <= q <= 20.
Proof.
  destruct (slice_stays_within_the_size [10; 20] 1 1 20 3 (Some 2) (Some 15))
    as (q & Hrun & Hq & _); try done.
  - by intros s [= <-].
  - by intros e [= <-].
  - exists q. split; [exact Hrun|exact Hq].
Defined.

(** ** mean_dim *)

Lemma is_mean_dim_from (dims ds : list Z) (n idx : Z) (flag : bool) :
  mapM (fun reduce_dim => Shape.maybe_wrap_dim reduce_dim n true) dims =
    Some ds ->
  Shape.for_in dims
    (fun reduce_dim (is_mean_dim : bool) =>
       d ← Shape.maybe_wrap_dim reduce_dim n true;
       Some (if idx =? d then true else is_mean_dim))
    flag =
  Some (flag || bool_decide (idx ∈ ds)).
Proof.
  revert ds flag. induction dims as [|rd dims IH]; intros ds flag Hds.
  - injection Hds as <-. cbn [Shape.for_in].
    rewrite bool_decide_eq_false_2 by apply not_elem_of_nil.
    by rewrite orb_false_r.
  - cbn [mapM] in Hds. cbn [Shape.for_in].
    destruct (Shape.maybe_wrap_dim rd n true) as [d|]; [|done].
    cbn [mbind option_bind] in *.
    destruct (mapM _ dims) as [ds'|]; [|done].
    cbn [mbind option_bind mret option_ret] in Hds. injection Hds as <-.
    rewrite (IH ds') by done. f_equal.
    destruct (Z.eqb_spec idx d) as [->|Hne].
    + rewrite (bool_decide_eq_true_2 (d ∈ d :: ds')) by left.
      by rewrite !orb_true_r.
    + f_equal. apply bool_decide_ext. rewrite elem_of_cons.
      split; [by right|]. by intros [?|?].
Qed.

Lemma length_concat_imap_ones (p : nat -> bool) (l : list Z) :
  length (concat (imap (fun k x => if p k then [1] else [x]) l)) = length l.
Proof.
  revert p. induction l as [|x l IH]; intros p; [done|].
  rewrite imap_cons. cbn [concat]. rewrite length_app.
  cbn [length]. rewrite <- (IH (p ∘ S)). by destruct (p 0%nat).
Qed.

(** X30. When every position of [dims] is in range, mean_dim goes
    through the shape and, at the positions named by [dims], puts a 1
    with keep_dim and nothing without it; the other sizes are kept, so
    with keep_dim the rank is the rank of the input. *)
Theorem mean_dim_reduces_the_named_positions
    (self dims ds : list Z) (keep_dim : bool) :
  mapM (fun reduce_dim =>
          Shape.maybe_wrap_dim reduce_dim (Shape.len self) true) dims =
    Some ds ->
  Shape.mean_dim self dims keep_dim tt =
    Some (concat
            (imap (fun k x =>
                     if bool_decide (Z.of_nat k ∈ ds)
                     then if keep_dim then [1] else []
                     else [x])
                  self)) /\
  (keep_dim = true ->
   forall r, Shape.mean_dim self dims keep_dim tt = Some r ->
     length r = length self).
Proof.
  intros Hds.
  assert (Shape.mean_dim self dims keep_dim tt =
          Some (concat
                  (imap (fun k x =>
                           if bool_decide (Z.of_nat k ∈ ds)
                           then if keep_dim then [1] else []
                           else [x])
                        self))) as Hrun.
  { etrans;
      [|exact (for_in_elements self
                 (fun i x => if bool_decide (i ∈ ds)
                             then if keep_dim then [1] else []
                             else [x]))].
    unfold Shape.mean_dim. apply for_in_ext.
    intros i out Hi%elem_of_seqZ.
    rewrite (is_mean_dim_from dims ds _ i false Hds).
    cbn [orb mbind option_bind].
    rewrite getitem_in_range by lia.
    destruct (lookup_lt_is_Some_2 self (Z.to_nat i)) as [x Hx];
      [unfold Shape.len in *; lia|].
    rewrite Hx. cbn [mbind option_bind].
    destruct (bool_decide (i ∈ ds)); [|done].
    destruct keep_dim; [done|]. by rewrite app_nil_r. }
  split; [exact Hrun|].
  intros -> r. rewrite Hrun. intros [= <-].
  exact (length_concat_imap_ones
           (fun k => bool_decide (Z.of_nat k ∈ ds)) self).
Qed.

Lemma mean_dim_reduces_the_named_positions_witness :
  Shape.mean_dim [2; 3; 4] [-1; 0] true tt = Some [1; 3; 1].
Proof.
  by rewrite (proj1 (mean_dim_reduces_the_named_positions
                       [2; 3; 4] [-1; 0] [2; 0] true eq_refl)).
Defined.
